(** * Road-network routing (lab.py): graph construction and best-first search

    A shallow embedding of [src/lab.py].

    Modelling conventions
    - Python [float] values (latitudes, longitudes, distances, path costs)
      are modelled by exact rationals [Q]; rounding is not modelled.
      Python's [==] on floats is [Qeq_bool], [<] is [Qltb].
    - A Python [dict] is an insertion-ordered association list ([dict_get],
      [dict_set]): iteration order decides ties in the nearest-node scan
      and the order in which neighbours enter the agenda.
    - A Python [set] that is only tested for membership is a list ([set_add],
      [set_mem]).
    - Exceptions are values of [result]; the [while] loop of the search is
      driven by fuel, [None] meaning that the fuel ran out.
    - [read_osm_data] and [great_circle_distance] live in [util], which is
      not part of the sources: the record streams are taken as lists, and the
      distance primitive is a parameter of the development. *)

From Stdlib Require Import List ZArith QArith Qabs String Bool Lia Lqa Arith.
Import ListNotations.

Local Open Scope Z_scope.

(** ** Exceptions *)

Inductive exn : Type :=
| KeyError
| TypeError
| IndexError
| ZeroDivisionError
| OverflowError.

Inductive result (A : Type) : Type :=
| Ok (a : A)
| Raise (e : exn).

Arguments Ok {A} a.
Arguments Raise {A} e.

Definition bind {A B : Type} (m : result A) (k : A -> result B) : result B :=
  match m with
  | Ok a => k a
  | Raise e => Raise e
  end.

Notation "x <- m ;; k" := (bind m (fun x => k))
  (at level 61, m at next level, right associativity).

(** ** Floats as rationals *)

Definition Qltb (a b : Q) : bool :=
  match Qcompare a b with
  | Lt => true
  | _ => false
  end.

(** Python truthiness of a float: [0.0] is falsy. *)
Definition Qtruthy (q : Q) : bool := negb (Qeq_bool q 0).

(** ** Dictionaries and sets *)

Section Dict.
Context {K V : Type}.
Variable eqb : K -> K -> bool.

Fixpoint dict_get (k : K) (d : list (K * V)) : option V :=
  match d with
  | [] => None
  | (k', v) :: d' => if eqb k k' then Some v else dict_get k d'
  end.

(** [d[k] = v]: an existing key keeps its position, a new key goes last. *)
Fixpoint dict_set (k : K) (v : V) (d : list (K * V)) : list (K * V) :=
  match d with
  | [] => [(k, v)]
  | (k', v') :: d' =>
      if eqb k k' then (k', v) :: d' else (k', v') :: dict_set k v d'
  end.
End Dict.

Definition set_mem (x : Z) (s : list Z) : bool := existsb (Z.eqb x) s.

Definition set_add (x : Z) (s : list Z) : list Z :=
  if set_mem x s then s else s ++ [x].

(** ** Input records *)

(** Tag values are strings, except [maxspeed_mph], which is a number. *)
Inductive pyval : Type :=
| VStr (s : string)
| VInt (z : Z).

Definition pyval_eqb (a b : pyval) : bool :=
  match a, b with
  | VStr s, VStr t => String.eqb s t
  | VInt x, VInt y => Z.eqb x y
  | _, _ => false
  end.

Definition tagmap : Type := list (string * pyval).

Record way : Type := mkWay {
  way_id : Z;
  way_nodes : list Z;
  way_tags : tagmap
}.

Record node : Type := mkNode {
  node_id : Z;
  node_lat : Q;
  node_lon : Q;
  node_tags : tagmap
}.

(** ** Constants *)

Definition ALLOWED_HIGHWAY_TYPES : list string :=
  [ "motorway"; "trunk"; "primary"; "secondary"; "tertiary"; "unclassified";
    "residential"; "living_street"; "motorway_link"; "trunk_link";
    "primary_link"; "secondary_link"; "tertiary_link" ]%string.

Definition DEFAULT_SPEED_LIMIT_MPH : list (string * pyval) :=
  [ ("motorway", VInt 60);
    ("trunk", VInt 45);
    ("primary", VInt 35);
    ("secondary", VInt 30);
    ("residential", VInt 25);
    ("tertiary", VInt 25);
    ("unclassified", VInt 25);
    ("living_street", VInt 10);
    ("motorway_link", VInt 30);
    ("trunk_link", VInt 30);
    ("primary_link", VInt 30);
    ("secondary_link", VInt 30);
    ("tertiary_link", VInt 25) ]%string.

(** [v in ALLOWED_HIGHWAY_TYPES] *)
Definition in_allowed (v : pyval) : bool :=
  match v with
  | VStr s => existsb (String.eqb s) ALLOWED_HIGHWAY_TYPES
  | VInt _ => false
  end.

(** [DEFAULT_SPEED_LIMIT_MPH[v]] *)
Definition default_speed (v : pyval) : result pyval :=
  match v with
  | VStr s =>
      match dict_get String.eqb s DEFAULT_SPEED_LIMIT_MPH with
      | Some x => Ok x
      | None => Raise KeyError
      end
  | VInt _ => Raise KeyError
  end.

(** ** The auxiliary structure *)

Definition loc : Type := (Q * Q)%type.

Definition loc_eqb (a b : loc) : bool :=
  Qeq_bool (fst a) (fst b) && Qeq_bool (snd a) (snd b).

(** One value of [my_structure[node_id]].  ['connected'] is written by both
    places that create an entry; ['lat'], ['lon'] and ['tags'] only by the
    node pass. *)
Record entry : Type := mkEntry {
  lat : option Q;
  lon : option Q;
  tags : option tagmap;
  connected : list (Z * pyval)
}.

(** [my_structure]: the integer keys and the ['locations'] key, kept apart. *)
Record structure : Type := mkStructure {
  entries : list (Z * entry);
  locations : list (loc * Z)
}.

(** ** build_auxiliary_structures *)

(** Truthiness of [prev_node_id]: [None] and [0] are falsy. *)
Definition id_truthy (o : option Z) : bool :=
  match o with
  | Some z => negb (Z.eqb z 0)
  | None => false
  end.

(** The body of [if prev_node_id: ...]: add [node] to [prev]'s connected
    section, creating the entry of [prev] when it has none. *)
Definition add_edge (prev nd : Z) (speed_limit : pyval)
    (es : list (Z * entry)) : list (Z * entry) :=
  match dict_get Z.eqb prev es with
  | Some e =>
      dict_set Z.eqb prev
        (mkEntry (lat e) (lon e) (tags e)
           (dict_set Z.eqb nd speed_limit (connected e))) es
  | None =>
      dict_set Z.eqb prev (mkEntry None None None [(nd, speed_limit)]) es
  end.

(** One [for node in ...] loop over a way's nodes; the state is
    [(my_structure, connected_nodes)]. *)
Fixpoint walk (speed_limit : pyval) (prev_node_id : option Z) (nds : list Z)
    (st : list (Z * entry) * list Z) : list (Z * entry) * list Z :=
  match nds with
  | [] => st
  | nd :: rest =>
      let es :=
        match prev_node_id with
        | Some p =>
            if id_truthy prev_node_id then add_edge p nd speed_limit (fst st)
            else fst st
        | None => fst st
        end in
      walk speed_limit (Some nd) rest (es, set_add nd (snd st))
  end.

(** ['highway' in way['tags'] and way['tags']['highway'] in ALLOWED_HIGHWAY_TYPES] *)
Definition accepted (w : way) : bool :=
  match dict_get String.eqb "highway"%string (way_tags w) with
  | Some v => in_allowed v
  | None => false
  end.

(** ['oneway' in way['tags'] and way['tags']['oneway'] == 'yes'] *)
Definition is_oneway (w : way) : bool :=
  match dict_get String.eqb "oneway"%string (way_tags w) with
  | Some v => pyval_eqb v (VStr "yes")
  | None => false
  end.

(** The speed limit of an accepted way. *)
Definition resolve_speed_limit (w : way) : result pyval :=
  match dict_get String.eqb "maxspeed_mph"%string (way_tags w) with
  | Some v => Ok v
  | None =>
      match dict_get String.eqb "highway"%string (way_tags w) with
      | Some hw => default_speed hw
      | None => Raise KeyError
      end
  end.

(** The body of the loop over the ways. *)
Definition process_way (w : way) (st : list (Z * entry) * list Z)
    : result (list (Z * entry) * list Z) :=
  if accepted w then
    speed_limit <- resolve_speed_limit w ;;
    let st1 := walk speed_limit None (way_nodes w) st in
    if negb (is_oneway w) then
      Ok (walk speed_limit None (rev (way_nodes w)) st1)
    else Ok st1
  else Ok st.

Fixpoint process_ways (ws : list way) (st : list (Z * entry) * list Z)
    : result (list (Z * entry) * list Z) :=
  match ws with
  | [] => Ok st
  | w :: rest => st' <- process_way w st ;; process_ways rest st'
  end.

(** The body of the loop over the nodes. *)
Definition process_node (connected_nodes : list Z) (s : structure) (n : node)
    : structure :=
  if set_mem (node_id n) connected_nodes then
    let es :=
      match dict_get Z.eqb (node_id n) (entries s) with
      | Some e =>
          dict_set Z.eqb (node_id n)
            (mkEntry (Some (node_lat n)) (Some (node_lon n))
               (Some (node_tags n)) (connected e)) (entries s)
      | None =>
          dict_set Z.eqb (node_id n)
            (mkEntry (Some (node_lat n)) (Some (node_lon n))
               (Some (node_tags n)) []) (entries s)
      end in
    mkStructure es
      (dict_set loc_eqb (node_lat n, node_lon n) (node_id n) (locations s))
  else s.

(** [nodes] and [ways] are the records [read_osm_data] yields for the two
    files. *)
Definition build_auxiliary_structures (nodes : list node) (ways : list way)
    : result structure :=
  st <- process_ways ways ([], []) ;;
  Ok (fold_left (process_node (snd st)) nodes (mkStructure (fst st) [])).

(** ** Queries *)

Section Search.

(** [util.great_circle_distance] on two coordinate pairs. *)
Variable great_circle_distance : loc -> loc -> Q.

(** The call [great_circle_distance(a, b)] where an argument may be [None]:
    the primitive works on coordinate pairs, and the model raises
    [TypeError] when it is given [None]. *)
Definition gcd_call (a b : option loc) : result Q :=
  match a, b with
  | Some x, Some y => Ok (great_circle_distance x y)
  | _, _ => Raise TypeError
  end.

Definition get_lat_lon (node_id : Z) (aux : structure)
    : result (option loc) :=
  match dict_get Z.eqb node_id (entries aux) with
  | Some e =>
      match lat e, lon e with
      | Some la, Some lo => Ok (Some (la, lo))
      | _, _ => Raise KeyError
      end
  | None => Ok None
  end.

(** [path[-1]] *)
Fixpoint last_vertex (p : list Z) : result Z :=
  match p with
  | [] => Raise IndexError
  | [x] => Ok x
  | _ :: r => last_vertex r
  end.

Fixpoint remove_nth {A : Type} (i : nat) (l : list A) : list A :=
  match l, i with
  | [], _ => []
  | _ :: r, O => r
  | x :: r, S j => x :: remove_nth j r
  end.

Definition agenda_t : Type := list (list Z * Q).

Section Engine.
Variable goal : Z.
Variable neighbors : Z -> result (list Z).
Variable cost : Z -> Z -> result (option Q).
Variable aux_structures : structure.
Variable heuristic : bool.

(** The quantity the scan minimises for one agenda entry. *)
Definition priority (path_and_cost : list Z * Q) : result Q :=
  if heuristic then
    t <- last_vertex (fst path_and_cost) ;;
    a <- get_lat_lon t aux_structures ;;
    b <- get_lat_lon goal aux_structures ;;
    h <- gcd_call a b ;;
    Ok (snd path_and_cost + h)%Q
  else Ok (snd path_and_cost).

(** The [for path_and_cost in agenda] scan: index of the first entry of
    least priority. *)
Fixpoint find_min (agenda : agenda_t) (index : nat)
    (min_cost : option Q) (min_index : nat) : result nat :=
  match agenda with
  | [] => Ok min_index
  | path_and_cost :: rest =>
      f <- priority path_and_cost ;;
      match min_cost with
      | None => find_min rest (S index) (Some f) index
      | Some m =>
          if Qltb f m then find_min rest (S index) (Some f) index
          else find_min rest (S index) min_cost min_index
      end
  end.

(** The [for n in neighbors(terminal_vertex)] loop. *)
Fixpoint expand (terminal_vertex : Z) (path : list Z * Q)
    (expanded_set : list Z) (ns : list Z) (agenda : agenda_t)
    : result agenda_t :=
  match ns with
  | [] => Ok agenda
  | n :: rest =>
      if set_mem n expanded_set then
        expand terminal_vertex path expanded_set rest agenda
      else
        c <- cost terminal_vertex n ;;
        match c with
        | Some q =>
            if Qtruthy q then
              expand terminal_vertex path expanded_set rest
                (agenda ++ [(fst path ++ [n], (snd path + q)%Q)])
            else expand terminal_vertex path expanded_set rest agenda
        | None => expand terminal_vertex path expanded_set rest agenda
        end
  end.

(** The [while agenda] loop; [None] when the fuel runs out. *)
Fixpoint search_loop (fuel : nat) (agenda : agenda_t)
    (expanded_set : list Z) : option (result (option (list Z))) :=
  match fuel with
  | O => None
  | S fuel' =>
      match agenda with
      | [] => Some (Ok None)
      | _ :: _ =>
          match find_min agenda 0 None 0 with
          | Raise e => Some (Raise e)
          | Ok min_index =>
              match nth_error agenda min_index with
              | None => Some (Raise IndexError)
              | Some path =>
                  let agenda1 := remove_nth min_index agenda in
                  match last_vertex (fst path) with
                  | Raise e => Some (Raise e)
                  | Ok terminal_vertex =>
                      if set_mem terminal_vertex expanded_set then
                        search_loop fuel' agenda1 expanded_set
                      else if Z.eqb terminal_vertex goal then
                        Some (Ok (Some (fst path)))
                      else
                        let expanded1 :=
                          set_add terminal_vertex expanded_set in
                        match neighbors terminal_vertex with
                        | Raise e => Some (Raise e)
                        | Ok ns =>
                            match expand terminal_vertex path expanded1
                                    ns agenda1 with
                            | Raise e => Some (Raise e)
                            | Ok agenda2 =>
                                search_loop fuel' agenda2 expanded1
                            end
                        end
                  end
              end
          end
      end
  end.
End Engine.

Definition uniform_cost_search (fuel : nat) (start goal : Z)
    (neighbors : Z -> result (list Z))
    (cost : Z -> Z -> result (option Q))
    (aux_structures : structure) (heuristic : bool)
    : option (result (option (list Z))) :=
  search_loop goal neighbors cost aux_structures heuristic fuel
    [([start], 0%Q)] [].

(** The [neighbors] closure shared by the three callers. *)
Definition aux_neighbors (aux : structure) (node_id : Z)
    : result (list Z) :=
  match dict_get Z.eqb node_id (entries aux) with
  | Some e => Ok (map fst (connected e))
  | None => Raise KeyError
  end.

(** The [cost] closure of [find_short_path] and [find_short_path_nodes]. *)
Definition short_cost (aux : structure) (node_id_1 node_id_2 : Z)
    : result (option Q) :=
  loc1 <- get_lat_lon node_id_1 aux ;;
  loc2 <- get_lat_lon node_id_2 aux ;;
  match loc1, loc2 with
  | Some a, Some b => Ok (Some (great_circle_distance a b))
  | _, _ => Ok None
  end.

(** The least magnitude of an integer that has no float: the conversion
    rounds to nearest, and from [2^1024 - 2^970] on the result would exceed
    the largest float. *)
Definition float_int_limit : Z := 2 ^ 1024 - 2 ^ 970.

(** [x / speed_limit] for a float [x].  An integer divisor is first
    converted to a float, which raises [OverflowError] when it is too large
    in magnitude; a zero divisor raises [ZeroDivisionError]. *)
Definition div_speed (x : Q) (speed_limit : pyval) : result Q :=
  match speed_limit with
  | VInt z =>
      if Z.leb float_int_limit (Z.abs z) then Raise OverflowError
      else if Z.eqb z 0 then Raise ZeroDivisionError
      else Ok (x / inject_Z z)%Q
  | VStr _ => Raise TypeError
  end.

(** The [cost] closure of [find_fast_path]. *)
Definition fast_cost (aux : structure) (node_id_1 node_id_2 : Z)
    : result (option Q) :=
  loc1 <- get_lat_lon node_id_1 aux ;;
  loc2 <- get_lat_lon node_id_2 aux ;;
  speed_limit <-
    match dict_get Z.eqb node_id_1 (entries aux) with
    | Some e =>
        match dict_get Z.eqb node_id_2 (connected e) with
        | Some s => Ok s
        | None => Raise KeyError
        end
    | None => Raise KeyError
    end ;;
  match loc1, loc2 with
  | Some a, Some b =>
      t <- div_speed (great_circle_distance a b) speed_limit ;;
      Ok (Some t)
  | _, _ => Ok None
  end.

Definition find_short_path_nodes (fuel : nat) (aux : structure)
    (node1 node2 : Z) : option (result (option (list Z))) :=
  if Z.eqb node1 node2 then Some (Ok (Some [node1]))
  else
    uniform_cost_search fuel node1 node2 (aux_neighbors aux)
      (short_cost aux) aux true.

(** The scan over ['locations']; the state is [(min_dist, min_node_id)].
    The loop runs over the keys [l] and reads [aux['locations'][l]]; in a
    dictionary that is the value stored with [l], so the model runs over
    the items. *)
Definition nearest_step (l0 : loc) (acc : option Q * option Z)
    (kv : loc * Z) : option Q * option Z :=
  let dist := great_circle_distance l0 (fst kv) in
  match fst acc with
  | None => (Some dist, Some (snd kv))
  | Some min_dist =>
      if Qltb dist min_dist then (Some dist, Some (snd kv)) else acc
  end.

Definition get_nearest_node_id (l0 : loc) (aux : structure) : option Z :=
  snd (fold_left (nearest_step l0) (locations aux) (None, None)).

(** [(aux[n]['lat'], aux[n]['lon'])] *)
Definition coord_of (aux : structure) (n : Z) : result loc :=
  match dict_get Z.eqb n (entries aux) with
  | Some e =>
      match lat e, lon e with
      | Some la, Some lo => Ok (la, lo)
      | _, _ => Raise KeyError
      end
  | None => Raise KeyError
  end.

Fixpoint coords_of (aux : structure) (ns : list Z) : result (list loc) :=
  match ns with
  | [] => Ok []
  | n :: rest =>
      c <- coord_of aux n ;;
      cs <- coords_of aux rest ;;
      Ok (c :: cs)
  end.

Definition convert_nodes_path_to_loc_path (nodes_path : option (list Z))
    (aux : structure) : result (option (list loc)) :=
  match nodes_path with
  | Some (n :: rest) => cs <- coords_of aux (n :: rest) ;; Ok (Some cs)
  | _ => Ok None
  end.

(** The common shape of the two path assemblers. *)
Definition find_path (cost : structure -> Z -> Z -> result (option Q))
    (heuristic : bool) (fuel : nat) (aux : structure) (loc1 loc2 : loc)
    : option (result (option (list loc))) :=
  let n1 := get_nearest_node_id loc1 aux in
  let n2 := get_nearest_node_id loc2 aux in
  if negb (id_truthy n1) || negb (id_truthy n2) then Some (Ok None)
  else
    match n1, n2 with
    | Some a, Some b =>
        if Z.eqb a b then
          Some (c <- coord_of aux a ;; Ok (Some [c]))
        else
          match uniform_cost_search fuel a b (aux_neighbors aux)
                  (cost aux) aux heuristic with
          | None => None
          | Some (Raise e) => Some (Raise e)
          | Some (Ok nodes_path) =>
              Some (convert_nodes_path_to_loc_path nodes_path aux)
          end
    | _, _ => Some (Ok None)
    end.

Definition find_short_path : nat -> structure -> loc -> loc
    -> option (result (option (list loc))) :=
  find_path short_cost true.

Definition find_fast_path : nat -> structure -> loc -> loc
    -> option (result (option (list loc))) :=
  find_path fast_cost false.

End Search.

(** ** Vocabulary of the statements *)

(** The weight stored for the directed edge [u -> v], if any. *)
Definition edge_weight (es : list (Z * entry)) (u v : Z) : option pyval :=
  match dict_get Z.eqb u es with
  | Some e => dict_get Z.eqb v (connected e)
  | None => None
  end.

(** [a] is immediately followed by [b] in [l]. *)
Definition adjacent (a b : Z) (l : list Z) : Prop :=
  exists l1 l2, l = l1 ++ a :: b :: l2.

(** The directed pairs a way writes: its consecutive pairs, and their
    reversals unless it is one-way. *)
Definition records (w : way) (a b : Z) : Prop :=
  adjacent a b (way_nodes w) \/
  (is_oneway w = false /\ adjacent b a (way_nodes w)).

(** The pairs [(prev, node)] met by one loop over [nds]. *)
Fixpoint steps (prev : option Z) (nds : list Z) : list (Z * Z) :=
  match nds with
  | [] => []
  | n :: rest =>
      match prev with
      | Some p => (p, n) :: steps (Some n) rest
      | None => steps (Some n) rest
      end
  end.

(** Does a loop over the pairs [ps] write the edge [u -> v]?  A pair whose
    first component is falsy writes nothing. *)
Definition hits (u v : Z) (ps : list (Z * Z)) : bool :=
  existsb (fun ab => Z.eqb (fst ab) u && Z.eqb (snd ab) v
                     && negb (Z.eqb (fst ab) 0)) ps.

(** All the pairs one accepted way runs over. *)
Definition way_steps (w : way) : list (Z * Z) :=
  steps None (way_nodes w) ++
  (if is_oneway w then [] else steps None (rev (way_nodes w))).

(** Every key and every adjacency target of [es] satisfies [P]. *)
Definition ids_within (P : Z -> Prop) (es : list (Z * entry)) : Prop :=
  forall k e, In (k, e) es ->
    P k /\ forall t s, In (t, s) (connected e) -> P t.


(** Every stored adjacency item [u -> v] of [es] satisfies [R]. *)
Definition pairs_within (R : Z -> Z -> Prop) (es : list (Z * entry)) : Prop :=
  forall u e v s, In (u, e) es -> In (v, s) (connected e) -> R u v.

Section Graph.
Variable great_circle_distance : loc -> loc -> Q.
Variable goal : Z.
Variable neighbors : Z -> result (list Z).
Variable cost : Z -> Z -> result (option Q).
Variable aux_structures : structure.
Variable heuristic : bool.

(** The heuristic term [h] that [priority] adds at a vertex; [0] when the
    search runs without heuristic. *)
Definition hval (n : Z) : result Q :=
  if heuristic then
    a <- get_lat_lon n aux_structures ;;
    b <- get_lat_lon goal aux_structures ;;
    gcd_call great_circle_distance a b
  else Ok 0%Q.

(** [v] is a neighbour of [u] and the cost function knows a cost for
    [u -> v]. *)
Definition arc (u v : Z) (w : Q) : Prop :=
  exists ns, neighbors u = Ok ns /\ In v ns /\ cost u v = Ok (Some w).

(** An arc the search follows: its cost is truthy. *)
Definition edge (u v : Z) (w : Q) : Prop :=
  arc u v w /\ Qtruthy w = true.

(** [route E s p x c]: [p] is a node sequence from [s] to [x] along [E],
    with the accumulated cost [c] the search computes for it. *)
Inductive route (E : Z -> Z -> Q -> Prop) (s : Z)
    : list Z -> Z -> Q -> Prop :=
| route_start : route E s [s] s 0%Q
| route_step (p : list Z) (u : Z) (c : Q) (v : Z) (w : Q) :
    route E s p u c -> E u v w -> route E s (p ++ [v]) v (c + w)%Q.

(** The heuristic never drops by more than the cost of an edge. *)
Definition consistent : Prop :=
  forall u v w hv, edge u v w -> hval v = Ok hv ->
    exists hu, hval u = Ok hu /\ (hu <= w + hv)%Q.

(** The loop invariant of the search from [start]: agenda entries are
    routes with their cost; an expanded vertex was expanded at a cost [G]
    that no route to it beats; every edge out of an expanded vertex leads
    to an expanded vertex or has an agenda entry at least as good. *)
Definition search_inv (start : Z) (agenda : agenda_t)
    (expanded_set : list Z) : Prop :=
  exists G : Z -> Q,
    (forall q g, In (q, g) agenda -> exists t, route edge start q t g) /\
    (forall u p c, In u expanded_set -> route edge start p u c ->
                   (G u <= c)%Q) /\
    (forall u v w, In u expanded_set -> edge u v w ->
       In v expanded_set \/
       exists q g, In (q, g) agenda /\ route edge start q v g /\
                   (g <= G u + w)%Q) /\
    (In start expanded_set \/
     exists q g, In (q, g) agenda /\ route edge start q start g /\
                 (g <= 0)%Q).

(** The out-degree the search sees at a vertex. *)
Definition degree (u : Z) : nat :=
  match neighbors u with
  | Ok ns => List.length ns
  | Raise _ => O
  end.

(** Work left for the vertices of [V] that are not yet expanded. *)
Fixpoint pending (V : list Z) (expanded_set : list Z) : nat :=
  match V with
  | [] => O
  | u :: rest =>
      ((if set_mem u expanded_set then O else S (degree u))
       + pending rest expanded_set)%nat
  end.
End Graph.

(** The last vertex of every agenda entry is a vertex of [V]. *)
Definition agenda_within (V : list Z) (agenda : agenda_t) : Prop :=
  forall q g, In (q, g) agenda -> exists t, last_vertex q = Ok t /\ In t V.

(** ** get_node_by_id *)

(** [nodes] is what [read_osm_data] yields for the dataset's node file.  The
    loop returns the first record with the id; a loop that ends without
    [return] yields [None]. *)
Fixpoint get_node_by_id (nid : Z) (nodes : list node) : option node :=
  match nodes with
  | [] => None
  | n :: rest =>
      if Z.eqb (node_id n) nid then Some n else get_node_by_id nid rest
  end.

(** ** Vocabulary of the further properties *)

(** The last record of the node stream with a given id. *)
Fixpoint last_record (x : Z) (nodes : list node) : option node :=
  match nodes with
  | [] => None
  | n :: rest =>
      match last_record x rest with
      | Some m => Some m
      | None => if Z.eqb (node_id n) x then Some n else None
      end
  end.

(** [x] occurs in an accepted way of the stream. *)
Definition on_accepted_way (ways : list way) (x : Z) : Prop :=
  exists w, In w ways /\ accepted w = true /\ In x (way_nodes w).

(** Some accepted way writes the directed pair [u -> v]. *)
Definition written (ways : list way) (u v : Z) : Prop :=
  u <> 0 /\ exists w, In w ways /\ accepted w = true /\ records w u v.

(** Every node an accepted way mentions has a record in the node stream. *)
Definition complete_data (nodes : list node) (ways : list way) : Prop :=
  forall x, on_accepted_way ways x -> exists n, In n nodes /\ node_id n = x.

(** No two keys of an association list are equal under [eqb]. *)
Fixpoint distinct_keys {K V : Type} (eqb : K -> K -> bool)
    (d : list (K * V)) : Prop :=
  match d with
  | [] => True
  | (k, _) :: rest =>
      (forall k' v', In (k', v') rest -> eqb k k' = false) /\
      distinct_keys eqb rest
  end.

(** Every stored adjacency item [u -> v] with weight [s] satisfies [R]. *)
Definition items_within (R : Z -> Z -> pyval -> Prop)
    (es : list (Z * entry)) : Prop :=
  forall u e v s, In (u, e) es -> In (v, s) (connected e) -> R u v s.

(** Agenda entries are routes from [start] without repeated vertex, all of
    whose vertices but the last are expanded. *)
Definition agenda_sound (neighbors : Z -> result (list Z))
    (cost : Z -> Z -> result (option Q)) (start : Z) (agenda : agenda_t)
    (expanded_set : list Z) : Prop :=
  forall q g, In (q, g) agenda ->
    (exists t, route (edge neighbors cost) start q t g) /\
    NoDup q /\
    (forall x, In x (removelast q) -> In x expanded_set).

(** Every edge out of an expanded vertex leads to an expanded vertex or to
    the last vertex of an agenda entry; so does the start; the goal is not
    expanded. *)
Definition frontier_inv (neighbors : Z -> result (list Z))
    (cost : Z -> Z -> result (option Q)) (start goal : Z)
    (agenda : agenda_t) (expanded_set : list Z) : Prop :=
  (forall u v w, In u expanded_set -> edge neighbors cost u v w ->
     In v expanded_set \/
     exists q g, In (q, g) agenda /\ last_vertex q = Ok v) /\
  (In start expanded_set \/
   exists q g, In (q, g) agenda /\ last_vertex q = Ok start) /\
  ~ In goal expanded_set.

(** An association list of entries that is a dictionary of dictionaries: no
    key occurs twice, in it or in any adjacency mapping. *)
Definition well_keyed (es : list (Z * entry)) : Prop :=
  distinct_keys Z.eqb es /\
  forall u e, In (u, e) es -> distinct_keys Z.eqb (connected e).

(** Entries as the way pass leaves them: no coordinates, and at least one
    neighbour. *)
Definition bare_entries (es : list (Z * entry)) : Prop :=
  forall u e, In (u, e) es ->
    lat e = None /\ lon e = None /\ connected e <> [].

(** Every key and every neighbour of the structure has coordinates. *)
Definition coords_complete (aux : structure) : Prop :=
  forall u e, In (u, e) (entries aux) ->
    (exists c, get_lat_lon u aux = Ok (Some c)) /\
    forall v s, In (v, s) (connected e) ->
      exists c, get_lat_lon v aux = Ok (Some c).

(** [locs] are the coordinates, in order, of a node path [p] without
    repetition that leads from the node nearest to [loc1] to the node
    nearest to [loc2], each step going to a neighbour. *)
Definition path_answer (great_circle_distance : loc -> loc -> Q)
    (aux : structure) (loc1 loc2 : loc) (locs : list loc) : Prop :=
  exists a b p,
    get_nearest_node_id great_circle_distance loc1 aux = Some a /\
    get_nearest_node_id great_circle_distance loc2 aux = Some b /\
    a <> 0 /\ b <> 0 /\
    (exists r, p = a :: r) /\ last_vertex p = Ok b /\ NoDup p /\
    (forall x y, adjacent x y p ->
       exists e, dict_get Z.eqb x (entries aux) = Some e /\
                 In y (map fst (connected e))) /\
    Forall2 (fun m c => get_lat_lon m aux = Ok (Some c)) p locs.

(** Loop iterations that suffice for any search on [aux]: one for each key
    and one for each adjacency item, and two more. *)
Definition search_budget (aux : structure) : nat :=
  2 + pending (aux_neighbors aux) (map fst (entries aux)) [].

(** ** Sample inputs *)

Module Sample.

Definition residential : tagmap := [("highway"%string, VStr "residential")].

(** A two-way residential street through three nodes. *)
Definition main_street : way := mkWay 100 [1; 2; 3] residential.

(** A one-way primary road. *)
Definition one_way_road : way :=
  mkWay 101 [3; 4]
    [("highway"%string, VStr "primary"); ("oneway"%string, VStr "yes")].

(** A way of a class outside the allow-list. *)
Definition footpath : way :=
  mkWay 102 [5; 6] [("highway"%string, VStr "footway")].

(** Two ways of the same class over the same pair of nodes, with different
    explicit speed limits. *)
Definition lane_10 : way :=
  mkWay 103 [1; 2]
    [("highway"%string, VStr "residential");
     ("maxspeed_mph"%string, VInt 10)].

Definition lane_20 : way :=
  mkWay 104 [1; 2]
    [("highway"%string, VStr "residential");
     ("maxspeed_mph"%string, VInt 20)].

Definition town_ways : list way := [main_street; one_way_road; footpath].

Definition town_nodes : list node :=
  [ mkNode 1 0 0 []; mkNode 2 1 0 []; mkNode 3 2 0 [];
    mkNode 4 3 0 []; mkNode 5 4 0 []; mkNode 6 5 0 [] ].

(** The structure [build_auxiliary_structures] returns for the town. *)
Definition town : structure :=
  mkStructure
    [ (1, mkEntry (Some 0%Q) (Some 0%Q) (Some []) [(2, VInt 25)]);
      (2, mkEntry (Some 1%Q) (Some 0%Q) (Some [])
            [(3, VInt 25); (1, VInt 25)]);
      (3, mkEntry (Some 2%Q) (Some 0%Q) (Some [])
            [(2, VInt 25); (4, VInt 35)]);
      (4, mkEntry (Some 3%Q) (Some 0%Q) (Some []) []) ]
    [ ((0%Q, 0%Q), 1); ((1%Q, 0%Q), 2); ((2%Q, 0%Q), 3);
      ((3%Q, 0%Q), 4) ].

(** The structure built from the two lanes and no node record. *)
Definition lanes : structure :=
  mkStructure
    [ (1, mkEntry None None None [(2, VInt 20)]);
      (2, mkEntry None None None [(1, VInt 20)]) ]
    [].

(** A stand-in for the distance primitive: the distance along the
    coordinate axes.  For points on one meridian it is the great-circle
    distance measured in degrees of arc. *)
Definition line_distance (a b : loc) : Q :=
  (Qabs (fst a - fst b) + Qabs (snd a - snd b))%Q.

(** Five nodes on one meridian, joined by one-way roads:
    [1 -> 3], [1 -> 2], [2 -> 3] and [3 -> 4 -> 5]. *)
Definition one_way (i : Z) (nds : list Z) (mph : Z) : way :=
  mkWay i nds
    [("highway"%string, VStr "primary"); ("oneway"%string, VStr "yes");
     ("maxspeed_mph"%string, VInt mph)].

Definition detour_ways : list way :=
  [ one_way 201 [1; 3] 1; one_way 202 [1; 2] 6; one_way 203 [2; 3] 9;
    one_way 204 [3; 4; 5] 1 ].

Definition detour_nodes : list node :=
  [ mkNode 1 4 0 []; mkNode 2 10 0 []; mkNode 3 1 0 [];
    mkNode 4 (-4) 0 []; mkNode 5 0 0 [] ].

Definition detour : structure :=
  mkStructure
    [ (1, mkEntry (Some 4%Q) (Some 0%Q) (Some [])
            [(3, VInt 1); (2, VInt 6)]);
      (2, mkEntry (Some 10%Q) (Some 0%Q) (Some []) [(3, VInt 9)]);
      (3, mkEntry (Some 1%Q) (Some 0%Q) (Some []) [(4, VInt 1)]);
      (4, mkEntry (Some (-4)%Q) (Some 0%Q) (Some []) [(5, VInt 1)]);
      (5, mkEntry (Some 0%Q) (Some 0%Q) (Some []) []) ]
    [ ((4%Q, 0%Q), 1); ((10%Q, 0%Q), 2); ((1%Q, 0%Q), 3);
      (((-4)%Q, 0%Q), 4); ((0%Q, 0%Q), 5) ].

(** The cost of the cheapest way from each node of [detour] to node [5],
    in travel time. *)
Definition detour_time_left (n : Z) : Q :=
  if Z.eqb n 1 then 11 else if Z.eqb n 2 then 10
  else if Z.eqb n 3 then 9 else if Z.eqb n 4 then 4 else 0.

(** [main_street] with no record for its middle node [2]. *)
Definition gap_nodes : list node := [mkNode 1 0 0 []; mkNode 3 2 0 []].

Definition gap : structure :=
  mkStructure
    [ (1, mkEntry (Some 0%Q) (Some 0%Q) (Some []) [(2, VInt 25)]);
      (2, mkEntry None None None [(3, VInt 25); (1, VInt 25)]);
      (3, mkEntry (Some 2%Q) (Some 0%Q) (Some []) [(2, VInt 25)]) ]
    [ ((0%Q, 0%Q), 1); ((2%Q, 0%Q), 3) ].

(** A street, and a one-way road into a node [4] that has no record. *)
Definition sink_ways : list way :=
  [ mkWay 300 [1; 2; 3] residential;
    mkWay 301 [1; 4]
      [("highway"%string, VStr "primary"); ("oneway"%string, VStr "yes")] ].

Definition sink_nodes : list node :=
  [mkNode 1 0 0 []; mkNode 2 1 0 []; mkNode 3 2 0 []].

Definition sink : structure :=
  mkStructure
    [ (1, mkEntry (Some 0%Q) (Some 0%Q) (Some [])
            [(2, VInt 25); (4, VInt 35)]);
      (2, mkEntry (Some 1%Q) (Some 0%Q) (Some [])
            [(3, VInt 25); (1, VInt 25)]);
      (3, mkEntry (Some 2%Q) (Some 0%Q) (Some []) [(2, VInt 25)]) ]
    [ ((0%Q, 0%Q), 1); ((1%Q, 0%Q), 2); ((2%Q, 0%Q), 3) ].

(** A street whose nodes [2] and [3] have the same coordinates. *)
Definition twin_way : way := mkWay 400 [1; 2; 3; 4] residential.

Definition twin_nodes : list node :=
  [mkNode 1 0 0 []; mkNode 2 1 0 []; mkNode 3 1 0 []; mkNode 4 2 0 []].

Definition twins : structure :=
  mkStructure
    [ (1, mkEntry (Some 0%Q) (Some 0%Q) (Some []) [(2, VInt 25)]);
      (2, mkEntry (Some 1%Q) (Some 0%Q) (Some [])
            [(3, VInt 25); (1, VInt 25)]);
      (3, mkEntry (Some 1%Q) (Some 0%Q) (Some [])
            [(4, VInt 25); (2, VInt 25)]);
      (4, mkEntry (Some 2%Q) (Some 0%Q) (Some []) [(3, VInt 25)]) ]
    [ ((0%Q, 0%Q), 1); ((1%Q, 0%Q), 3); ((2%Q, 0%Q), 4) ].

(** A street that starts at a node with id [0]. *)
Definition zero_way : way := mkWay 500 [0; 1; 2] residential.

Definition zero_nodes : list node :=
  [mkNode 0 0 0 []; mkNode 1 1 0 []; mkNode 2 2 0 []].

Definition zero_town : structure :=
  mkStructure
    [ (1, mkEntry (Some 1%Q) (Some 0%Q) (Some [])
            [(2, VInt 25); (0, VInt 25)]);
      (2, mkEntry (Some 2%Q) (Some 0%Q) (Some []) [(1, VInt 25)]);
      (0, mkEntry (Some 0%Q) (Some 0%Q) (Some []) []) ]
    [ ((0%Q, 0%Q), 0); ((1%Q, 0%Q), 1); ((2%Q, 0%Q), 2) ].

End Sample.

(** ** Tactics for the sample graphs *)

Ltac node_cases u :=
  repeat match goal with
         | H : context [Z.eqb u ?k] |- _ =>
             destruct (Z.eqb_spec u k) as [->|?]
         end.

Ltac choose_case :=
  first [ solve [repeat split; reflexivity]
        | left; solve [repeat split; reflexivity]
        | right; choose_case ].

(** * Properties *)

(** ** Dictionaries *)

Lemma dict_get_set_same {V : Type} (k : Z) (v : V) (d : list (Z * V)) :
  dict_get Z.eqb k (dict_set Z.eqb k v d) = Some v.
Proof.
  induction d as [|[k' v'] d IH]; simpl.
  - now rewrite Z.eqb_refl.
  - destruct (Z.eqb k k') eqn:E; simpl; rewrite E; auto.
Qed.

Lemma dict_get_set_other {V : Type} (k k0 : Z) (v : V) (d : list (Z * V)) :
  k <> k0 ->
  dict_get Z.eqb k (dict_set Z.eqb k0 v d) = dict_get Z.eqb k d.
Proof.
  intros Hne.
  induction d as [|[k' v'] d IH]; simpl.
  - destruct (Z.eqb k k0) eqn:E; auto. apply Z.eqb_eq in E; contradiction.
  - destruct (Z.eqb k0 k') eqn:E0; simpl.
    + apply Z.eqb_eq in E0; subst k'.
      destruct (Z.eqb k k0) eqn:E; auto. apply Z.eqb_eq in E; contradiction.
    + destruct (Z.eqb k k'); auto.
Qed.

Lemma dict_get_In {V : Type} (k : Z) (v : V) (d : list (Z * V)) :
  dict_get Z.eqb k d = Some v -> In (k, v) d.
Proof.
  induction d as [|[k' v'] d IH]; simpl; [discriminate|].
  destruct (Z.eqb k k') eqn:E.
  - intros [= ->]. apply Z.eqb_eq in E; subst; auto.
  - auto.
Qed.

Lemma In_dict_get {V : Type} (k : Z) (v : V) (d : list (Z * V)) :
  In (k, v) d -> exists v', dict_get Z.eqb k d = Some v'.
Proof.
  induction d as [|[k' v'] d IH]; simpl; [tauto|].
  intros [[= -> ->]|H].
  - rewrite Z.eqb_refl; eauto.
  - destruct (Z.eqb k k'); eauto.
Qed.

(** Whatever the key test, an item of an updated dictionary is an old item
    or carries the new value. *)
Lemma In_dict_set {K V : Type} (eqb : K -> K -> bool)
    (k k0 : K) (v v0 : V) (d : list (K * V)) :
  In (k, v) (dict_set eqb k0 v0 d) ->
  In (k, v) d \/ (v = v0 /\ (k = k0 \/ eqb k0 k = true)).
Proof.
  induction d as [|[k' v'] d IH]; simpl.
  - intros [[= <- <-]|[]]; auto.
  - destruct (eqb k0 k') eqn:E; simpl.
    + intros [[= <- <-]|H]; auto.
    + intros [H|H]; auto. destruct (IH H) as [H'|H']; auto.
Qed.

Lemma In_dict_set_Z {V : Type} (k k0 : Z) (v v0 : V) (d : list (Z * V)) :
  In (k, v) (dict_set Z.eqb k0 v0 d) ->
  In (k, v) d \/ (v = v0 /\ k = k0).
Proof.
  intros H. apply In_dict_set in H as [H|[-> [->|E]]]; auto.
  apply Z.eqb_eq in E; auto.
Qed.

Lemma set_mem_In (x : Z) (s : list Z) : set_mem x s = true <-> In x s.
Proof.
  unfold set_mem. rewrite existsb_exists. split.
  - intros [y [Hy E]]. apply Z.eqb_eq in E; subst; auto.
  - intros H. exists x. split; auto. apply Z.eqb_refl.
Qed.

Lemma In_set_add (x y : Z) (s : list Z) :
  In y (set_add x s) <-> y = x \/ In y s.
Proof.
  unfold set_add. destruct (set_mem x s) eqn:E.
  - apply set_mem_In in E. split; auto. intros [->|H]; auto.
  - rewrite in_app_iff. simpl. intuition.
Qed.

(** ** The graph builder *)

Lemma steps_Some_adjacent (p a b : Z) (l : list Z) :
  In (a, b) (steps (Some p) l) <-> adjacent a b (p :: l).
Proof.
  revert p. induction l as [|n l IH]; intros p; simpl.
  - split; [tauto|]. intros [l1 [l2 H]].
    destruct l1 as [|x [|y l1]]; simpl in H; discriminate.
  - rewrite IH. split.
    + intros [[= <- <-]|[l1 [l2 H]]].
      * exists [], l. reflexivity.
      * exists (p :: l1), l2. simpl. now rewrite H.
    + intros [l1 [l2 H]]. destruct l1 as [|x l1]; simpl in H.
      * injection H as -> -> _. auto.
      * injection H as _ H. right. exists l1, l2. exact H.
Qed.

Lemma steps_None_adjacent (a b : Z) (l : list Z) :
  In (a, b) (steps None l) <-> adjacent a b l.
Proof.
  destruct l as [|n l]; simpl.
  - split; [tauto|]. intros [l1 [l2 H]]. destruct l1; discriminate.
  - apply steps_Some_adjacent.
Qed.

Lemma adjacent_rev (a b : Z) (l : list Z) :
  adjacent a b (rev l) <-> adjacent b a l.
Proof.
  assert (forall x y l, adjacent x y l -> adjacent y x (rev l)) as H.
  { intros x y l0 [l1 [l2 ->]]. exists (rev l2), (rev l1).
    rewrite rev_app_distr. simpl. now rewrite <- !app_assoc. }
  split; intros H0.
  - apply H in H0. now rewrite rev_involutive in H0.
  - now apply H.
Qed.

Lemma adjacent_In (a b : Z) (l : list Z) :
  adjacent a b l -> In a l /\ In b l.
Proof.
  intros [l1 [l2 ->]]. rewrite !in_app_iff. simpl. auto.
Qed.

Lemma records_In (w : way) (a b : Z) :
  records w a b -> In a (way_nodes w) /\ In b (way_nodes w).
Proof.
  intros [H|[_ H]]; apply adjacent_In in H; tauto.
Qed.

Lemma edge_weight_add_edge (p n : Z) (s : pyval) (es : list (Z * entry))
    (u v : Z) :
  edge_weight (add_edge p n s es) u v =
  if Z.eqb u p && Z.eqb v n then Some s else edge_weight es u v.
Proof.
  unfold edge_weight, add_edge.
  destruct (Z.eqb u p) eqn:Eu; simpl.
  - apply Z.eqb_eq in Eu; subst u.
    destruct (dict_get Z.eqb p es) as [e|] eqn:Ep;
      rewrite dict_get_set_same; simpl.
    + destruct (Z.eqb v n) eqn:Ev.
      * apply Z.eqb_eq in Ev; subst. apply dict_get_set_same.
      * apply dict_get_set_other. intros ->. now rewrite Z.eqb_refl in Ev.
    + destruct (Z.eqb v n); reflexivity.
  - assert (u <> p) as Hne by (intros ->; now rewrite Z.eqb_refl in Eu).
    destruct (dict_get Z.eqb p es); now rewrite dict_get_set_other.
Qed.

Lemma hits_spec (u v : Z) (ps : list (Z * Z)) :
  hits u v ps = true <-> In (u, v) ps /\ u <> 0.
Proof.
  unfold hits. rewrite existsb_exists. split.
  - intros [[a b] [Hin H]]. simpl in H.
    apply andb_true_iff in H as [H H0]. apply andb_true_iff in H as [Ha Hb].
    apply Z.eqb_eq in Ha, Hb. subst. split; auto.
    intros ->. discriminate.
  - intros [Hin Hne]. exists (u, v). split; auto. simpl.
    rewrite !Z.eqb_refl. simpl. apply negb_true_iff. now apply Z.eqb_neq.
Qed.

Lemma hits_app (u v : Z) (ps qs : list (Z * Z)) :
  hits u v (ps ++ qs) = hits u v ps || hits u v qs.
Proof. apply existsb_app. Qed.

Lemma edge_weight_walk (s : pyval) (prev : option Z) (nds : list Z)
    (st : list (Z * entry) * list Z) (u v : Z) :
  edge_weight (fst (walk s prev nds st)) u v =
  if hits u v (steps prev nds) then Some s else edge_weight (fst st) u v.
Proof.
  revert prev st. induction nds as [|n nds IH]; intros prev st; simpl.
  - reflexivity.
  - rewrite IH. simpl fst. destruct prev as [p|]; simpl.
    + unfold hits at 2. simpl. fold (hits u v (steps (Some n) nds)).
      destruct (hits u v (steps (Some n) nds)).
      * now rewrite orb_true_r.
      * rewrite orb_false_r. destruct (Z.eqb p 0) eqn:E0; simpl.
        -- now rewrite andb_false_r.
        -- rewrite andb_true_r. rewrite edge_weight_add_edge.
           now rewrite (Z.eqb_sym u p), (Z.eqb_sym v n).
    + reflexivity.
Qed.

Lemma connected_nodes_walk (s : pyval) (prev : option Z) (nds : list Z)
    (st : list (Z * entry) * list Z) (x : Z) :
  In x (snd (walk s prev nds st)) <-> In x nds \/ In x (snd st).
Proof.
  revert prev st. induction nds as [|n nds IH]; intros prev st; simpl.
  - tauto.
  - rewrite IH. simpl. rewrite In_set_add. intuition.
Qed.

Lemma way_steps_records (w : way) (a b : Z) :
  In (a, b) (way_steps w) <-> records w a b.
Proof.
  unfold way_steps, records. rewrite in_app_iff, steps_None_adjacent.
  destruct (is_oneway w).
  - simpl. intuition discriminate.
  - rewrite steps_None_adjacent, adjacent_rev. intuition.
Qed.

Lemma hits_way_steps (w : way) (a b : Z) :
  hits a b (way_steps w) = true <-> records w a b /\ a <> 0.
Proof. now rewrite hits_spec, way_steps_records. Qed.

Lemma in_allowed_default (v : pyval) :
  in_allowed v = true -> exists z, default_speed v = Ok (VInt z).
Proof.
  destruct v as [s|z]; simpl; [|discriminate].
  rewrite !orb_true_iff, !String.eqb_eq.
  intros H. unfold default_speed.
  repeat (destruct H as [->|H]; [eexists; reflexivity|]).
  discriminate.
Qed.

Lemma resolve_speed_limit_accepted (w : way) :
  accepted w = true -> exists s, resolve_speed_limit w = Ok s.
Proof.
  unfold accepted, resolve_speed_limit.
  destruct (dict_get String.eqb "maxspeed_mph"%string (way_tags w)); eauto.
  destruct (dict_get String.eqb "highway"%string (way_tags w));
    [|discriminate].
  intros H. apply in_allowed_default in H as [z ->]. eauto.
Qed.

(** What processing one accepted way does to every edge. *)
Lemma process_way_accepted (w : way) (s : pyval)
    (st : list (Z * entry) * list Z) :
  accepted w = true -> resolve_speed_limit w = Ok s ->
  exists st', process_way w st = Ok st' /\
    (forall u v, edge_weight (fst st') u v =
       if hits u v (way_steps w) then Some s else edge_weight (fst st) u v) /\
    (forall x, In x (snd st') <-> In x (way_nodes w) \/ In x (snd st)).
Proof.
  intros Ha Hs. unfold process_way. rewrite Ha, Hs. simpl.
  unfold way_steps. destruct (is_oneway w); simpl; eexists; split;
    try reflexivity; split; intros.
  - now rewrite edge_weight_walk, app_nil_r.
  - now rewrite connected_nodes_walk.
  - rewrite !edge_weight_walk, hits_app.
    destruct (hits u v (steps None (rev (way_nodes w))));
      [now rewrite orb_true_r | now rewrite orb_false_r].
  - rewrite !connected_nodes_walk, <- in_rev. tauto.
Qed.

Lemma process_way_rejected (w : way) (st : list (Z * entry) * list Z) :
  accepted w = false -> process_way w st = Ok st.
Proof. intros H. unfold process_way. now rewrite H. Qed.

Lemma process_way_total (w : way) (st : list (Z * entry) * list Z) :
  exists st', process_way w st = Ok st'.
Proof.
  destruct (accepted w) eqn:Ha.
  - destruct (resolve_speed_limit_accepted w Ha) as [s Hs].
    destruct (process_way_accepted w s st Ha Hs) as [st' [H _]]. eauto.
  - rewrite process_way_rejected; eauto.
Qed.

Lemma process_ways_total (ws : list way) (st : list (Z * entry) * list Z) :
  exists st', process_ways ws st = Ok st'.
Proof.
  revert st. induction ws as [|w ws IH]; intros st; simpl; eauto.
  destruct (process_way_total w st) as [st1 ->]. simpl. apply IH.
Qed.

Lemma process_ways_app (ws1 ws2 : list way) (st : list (Z * entry) * list Z) :
  process_ways (ws1 ++ ws2) st =
  (st1 <- process_ways ws1 st ;; process_ways ws2 st1).
Proof.
  revert st. induction ws1 as [|w ws1 IH]; intros st; simpl; auto.
  destruct (process_way w st); simpl; auto.
Qed.

Lemma process_ways_unchanged (ws : list way) (u v : Z) :
  (forall w, In w ws -> accepted w = true -> hits u v (way_steps w) = false) ->
  forall st st', process_ways ws st = Ok st' ->
  edge_weight (fst st') u v = edge_weight (fst st) u v.
Proof.
  induction ws as [|w ws IH]; intros Hno st st'; simpl.
  - now intros [= ->].
  - destruct (process_way w st) as [st1|] eqn:E1; simpl; [|discriminate].
    intros H. rewrite (IH (fun w' Hw' => Hno w' (or_intror Hw')) _ _ H).
    destruct (accepted w) eqn:Ha.
    + destruct (resolve_speed_limit_accepted w Ha) as [s Hs].
      destruct (process_way_accepted w s st Ha Hs) as [st2 [E2 [He _]]].
      rewrite E1 in E2. injection E2 as <-.
      rewrite He, (Hno w (or_introl eq_refl) Ha). reflexivity.
    + rewrite process_way_rejected in E1 by assumption.
      now injection E1 as <-.
Qed.

Lemma process_ways_origin (ws : list way) (u v : Z) (s : pyval) :
  forall st st', process_ways ws st = Ok st' ->
  edge_weight (fst st') u v = Some s ->
  edge_weight (fst st) u v = Some s \/
  exists w, In w ws /\ accepted w = true /\
            hits u v (way_steps w) = true /\ resolve_speed_limit w = Ok s.
Proof.
  induction ws as [|w ws IH]; intros st st'; simpl.
  - intros [= ->]. auto.
  - destruct (process_way w st) as [st1|] eqn:E1; simpl; [|discriminate].
    intros H Hs. destruct (IH _ _ H Hs) as [H1|[w' [Hin H']]].
    + destruct (accepted w) eqn:Ha.
      * destruct (resolve_speed_limit_accepted w Ha) as [s0 Hs0].
        destruct (process_way_accepted w s0 st Ha Hs0) as [st2 [E2 [He _]]].
        rewrite E1 in E2. injection E2 as <-.
        rewrite He in H1. destruct (hits u v (way_steps w)) eqn:Hh; auto.
        injection H1 as ->. right. exists w. auto.
      * rewrite process_way_rejected in E1 by assumption.
        injection E1 as <-. auto.
    + right. exists w'. auto.
Qed.

Lemma process_ways_monotone (ws : list way) (u v : Z) :
  forall st st', process_ways ws st = Ok st' ->
  edge_weight (fst st) u v <> None -> edge_weight (fst st') u v <> None.
Proof.
  induction ws as [|w ws IH]; intros st st'; simpl.
  - now intros [= ->].
  - destruct (process_way w st) as [st1|] eqn:E1; simpl; [|discriminate].
    intros H H0. apply (IH _ _ H).
    destruct (accepted w) eqn:Ha.
    + destruct (resolve_speed_limit_accepted w Ha) as [s0 Hs0].
      destruct (process_way_accepted w s0 st Ha Hs0) as [st2 [E2 [He _]]].
      rewrite E1 in E2. injection E2 as <-.
      rewrite He. destruct (hits u v (way_steps w)); [discriminate|auto].
    + rewrite process_way_rejected in E1 by assumption.
      now injection E1 as <-.
Qed.

Lemma process_ways_nodes (ws : list way) (x : Z) :
  forall st st', process_ways ws st = Ok st' ->
  (In x (snd st') <->
   In x (snd st) \/
   exists w, In w ws /\ accepted w = true /\ In x (way_nodes w)).
Proof.
  induction ws as [|w ws IH]; intros st st'; simpl.
  - intros [= ->]. split; auto. intros [H|[w [[] _]]]; auto.
  - destruct (process_way w st) as [st1|] eqn:E1; simpl; [|discriminate].
    intros H. rewrite (IH _ _ H).
    destruct (accepted w) eqn:Ha.
    + destruct (resolve_speed_limit_accepted w Ha) as [s0 Hs0].
      destruct (process_way_accepted w s0 st Ha Hs0) as [st2 [E2 [_ Hn]]].
      rewrite E1 in E2. injection E2 as <-. rewrite Hn.
      split.
      * intros [[H1|H1]|[w' [Hin H']]]; eauto 6.
      * intros [H1|[w' [[<-|Hin] [Ha' Hx]]]]; eauto 6.
    + rewrite process_way_rejected in E1 by assumption.
      injection E1 as <-. split.
      * intros [H1|[w' [Hin H']]]; eauto 6.
      * intros [H1|[w' [[<-|Hin] [Ha' Hx]]]]; eauto 6. congruence.
Qed.

Lemma ids_within_add_edge (P : Z -> Prop) (p n : Z) (s : pyval)
    (es : list (Z * entry)) :
  P p -> P n -> ids_within P es -> ids_within P (add_edge p n s es).
Proof.
  intros Hp Hn H k e Hin. unfold add_edge in Hin.
  destruct (dict_get Z.eqb p es) as [e0|] eqn:E.
  - apply In_dict_set_Z in Hin as [Hin|[-> ->]]; [now apply H|].
    split; auto. simpl. intros t s0 Ht.
    apply In_dict_set_Z in Ht as [Ht|[_ ->]]; auto.
    apply dict_get_In in E. now apply (H _ _ E) in Ht.
  - apply In_dict_set_Z in Hin as [Hin|[-> ->]]; [now apply H|].
    split; auto. simpl. intros t s0 [[= <- _]|[]]. auto.
Qed.

Lemma ids_within_walk (P : Z -> Prop) (s : pyval) (nds : list Z) :
  (forall x, In x nds -> P x) ->
  forall prev st,
    (forall p, prev = Some p -> P p) ->
    ids_within P (fst st) ->
    ids_within P (fst (walk s prev nds st)).
Proof.
  induction nds as [|n nds IH]; intros Hall prev st Hprev Hst; simpl; auto.
  apply IH.
  - intros x Hx. apply Hall. now right.
  - intros p [= <-]. apply Hall. now left.
  - simpl. destruct prev as [p|]; auto.
    destruct (id_truthy (Some p)); auto.
    apply ids_within_add_edge; auto. apply Hall. now left.
Qed.

Lemma ids_within_process_ways (P : Z -> Prop) (ws : list way) :
  (forall w x, In w ws -> accepted w = true -> In x (way_nodes w) -> P x) ->
  forall st st', process_ways ws st = Ok st' ->
  ids_within P (fst st) -> ids_within P (fst st').
Proof.
  induction ws as [|w ws IH]; intros Hall st st'; simpl.
  - now intros [= ->].
  - destruct (process_way w st) as [st1|] eqn:E1; simpl; [|discriminate].
    intros H Hst. apply (IH (fun w' x Hw' => Hall w' x (or_intror Hw')) _ _ H).
    unfold process_way in E1. destruct (accepted w) eqn:Ha.
    + destruct (resolve_speed_limit w) as [s|]; simpl in E1; [|discriminate].
      assert (forall x, In x (way_nodes w) -> P x) as Hw
        by (intros x Hx; apply (Hall w x); [now left | exact Ha | exact Hx]).
      destruct (is_oneway w); simpl in E1; injection E1 as <-.
      * apply ids_within_walk; auto. discriminate.
      * apply ids_within_walk; try discriminate.
        -- intros x Hx. apply Hw. now apply in_rev.
        -- apply ids_within_walk; auto. discriminate.
    + now injection E1 as <-.
Qed.

Lemma process_ways_filter (ws : list way) (st : list (Z * entry) * list Z) :
  process_ways (filter accepted ws) st = process_ways ws st.
Proof.
  revert st. induction ws as [|w ws IH]; intros st; simpl; auto.
  destruct (accepted w) eqn:Ha; simpl.
  - destruct (process_way w st); simpl; auto.
  - rewrite process_way_rejected by assumption. simpl. apply IH.
Qed.

Lemma accepted_spec (w : way) :
  accepted w = true <->
  exists c, dict_get String.eqb "highway"%string (way_tags w) = Some (VStr c)
            /\ In c ALLOWED_HIGHWAY_TYPES.
Proof.
  unfold accepted.
  destruct (dict_get String.eqb "highway"%string (way_tags w)) as [[c|z]|].
  - unfold in_allowed. rewrite existsb_exists. split.
    + intros [x [Hx E]]. apply String.eqb_eq in E; subst. eauto.
    + intros [c' [[= <-] Hc]]. exists c. split; auto. apply String.eqb_refl.
  - simpl. split; [discriminate|]. intros [c [[=] _]].
  - split; [discriminate|]. intros [c [[=] _]].
Qed.

(** The node pass leaves every adjacency mapping as the way pass made it. *)
Lemma process_node_edge (cn : list Z) (s : structure) (n : node) (u v : Z) :
  edge_weight (entries (process_node cn s n)) u v =
  edge_weight (entries s) u v.
Proof.
  unfold process_node. destruct (set_mem (node_id n) cn); auto.
  simpl. unfold edge_weight.
  destruct (Z.eq_dec u (node_id n)) as [->|Hne].
  - destruct (dict_get Z.eqb (node_id n) (entries s));
      now rewrite dict_get_set_same.
  - destruct (dict_get Z.eqb (node_id n) (entries s));
      now rewrite dict_get_set_other.
Qed.

Lemma node_pass_edge (cn : list Z) (nodes : list node) (s : structure)
    (u v : Z) :
  edge_weight (entries (fold_left (process_node cn) nodes s)) u v =
  edge_weight (entries s) u v.
Proof.
  revert s. induction nodes as [|n nodes IH]; intros s; simpl; auto.
  now rewrite IH, process_node_edge.
Qed.

Lemma node_pass_ids (P : Z -> Prop) (cn : list Z) (nodes : list node) :
  (forall x, In x cn -> P x) ->
  forall s, ids_within P (entries s) ->
            (forall l i, In (l, i) (locations s) -> P i) ->
  let g := fold_left (process_node cn) nodes s in
  ids_within P (entries g) /\ (forall l i, In (l, i) (locations g) -> P i).
Proof.
  intros Hcn. induction nodes as [|n nodes IH]; intros s He Hl; simpl; auto.
  apply IH; unfold process_node;
    destruct (set_mem (node_id n) cn) eqn:Hm; auto; simpl;
    apply set_mem_In, Hcn in Hm.
  - intros k e Hin.
    destruct (dict_get Z.eqb (node_id n) (entries s)) as [e0|] eqn:E;
      apply In_dict_set_Z in Hin as [Hin|[-> ->]]; try (now apply He);
      split; auto; simpl; [|tauto].
    apply dict_get_In in E. apply (He _ _ E).
  - intros l i Hin. apply In_dict_set in Hin as [Hin|[-> _]]; eauto.
Qed.

Lemma build_inv (nodes : list node) (ways : list way) (g : structure) :
  build_auxiliary_structures nodes ways = Ok g ->
  exists st, process_ways ways ([], []) = Ok st /\
    g = fold_left (process_node (snd st)) nodes (mkStructure (fst st) []).
Proof.
  unfold build_auxiliary_structures.
  destruct (process_ways ways ([], [])) as [st|]; simpl; [|discriminate].
  intros [= <-]. eauto.
Qed.

(** Graph construction never raises. *)
Lemma build_total (nodes : list node) (ways : list way) :
  exists g, build_auxiliary_structures nodes ways = Ok g.
Proof.
  unfold build_auxiliary_structures.
  destruct (process_ways_total ways ([], [])) as [st ->]. simpl. eauto.
Qed.

(** The edges of the built graph are those the way pass wrote. *)
Lemma build_edge_weight (nodes : list node) (ways : list way)
    (g : structure) :
  build_auxiliary_structures nodes ways = Ok g ->
  exists st, process_ways ways ([], []) = Ok st /\
    forall u v, edge_weight (entries g) u v = edge_weight (fst st) u v.
Proof.
  intros H. apply build_inv in H as [st [Hst ->]]. exists st. split; auto.
  intros u v. now rewrite node_pass_edge.
Qed.

Lemma pairs_within_add_edge (R : Z -> Z -> Prop) (p n : Z) (s : pyval)
    (es : list (Z * entry)) :
  R p n -> pairs_within R es -> pairs_within R (add_edge p n s es).
Proof.
  intros Hpn H u e v s0 Hin Hv. unfold add_edge in Hin.
  destruct (dict_get Z.eqb p es) as [e0|] eqn:E;
    apply In_dict_set_Z in Hin as [Hin|[-> ->]]; eauto; simpl in Hv.
  - apply In_dict_set_Z in Hv as [Hv|[_ ->]]; auto.
    apply dict_get_In in E. eauto.
  - destruct Hv as [[= <- _]|[]]. auto.
Qed.

Lemma pairs_within_walk (R : Z -> Z -> Prop) (s : pyval) (nds : list Z) :
  forall prev st,
    (forall a b, In (a, b) (steps prev nds) -> a <> 0 -> R a b) ->
    pairs_within R (fst st) ->
    pairs_within R (fst (walk s prev nds st)).
Proof.
  induction nds as [|n nds IH]; intros prev st Hall Hst; simpl; auto.
  apply IH.
  - intros a b Hab. apply Hall. simpl. destruct prev; simpl; auto.
  - simpl. destruct prev as [p|]; auto.
    destruct (id_truthy (Some p)) eqn:Ht; auto.
    apply pairs_within_add_edge; auto. apply Hall; simpl; auto.
    intros ->. discriminate.
Qed.

Lemma pairs_within_process_ways (R : Z -> Z -> Prop) (ws : list way) :
  (forall w a b, In w ws -> accepted w = true -> records w a b -> a <> 0 ->
                 R a b) ->
  forall st st', process_ways ws st = Ok st' ->
  pairs_within R (fst st) -> pairs_within R (fst st').
Proof.
  induction ws as [|w ws IH]; intros Hall st st'; simpl.
  - now intros [= ->].
  - destruct (process_way w st) as [st1|] eqn:E1; simpl; [|discriminate].
    intros H Hst.
    apply (IH (fun w' a b Hw' => Hall w' a b (or_intror Hw')) _ _ H).
    unfold process_way in E1. destruct (accepted w) eqn:Ha.
    + destruct (resolve_speed_limit w) as [s|]; simpl in E1; [|discriminate].
      assert (forall a b, records w a b -> a <> 0 -> R a b) as Hw
        by (intros a b Hr; apply (Hall w a b); [now left|exact Ha|exact Hr]).
      destruct (is_oneway w) eqn:Ho; simpl in E1; injection E1 as <-.
      * apply pairs_within_walk; auto.
        intros a b Hab. apply Hw. left. now apply steps_None_adjacent.
      * apply pairs_within_walk.
        -- intros a b Hab. apply Hw. right. split; auto.
           apply steps_None_adjacent in Hab. now apply adjacent_rev.
        -- apply pairs_within_walk; auto.
           intros a b Hab. apply Hw. left. now apply steps_None_adjacent.
    + now injection E1 as <-.
Qed.

Lemma node_pass_pairs (R : Z -> Z -> Prop) (cn : list Z) (nodes : list node) :
  forall s, pairs_within R (entries s) ->
  pairs_within R (entries (fold_left (process_node cn) nodes s)).
Proof.
  induction nodes as [|n nodes IH]; intros s Hs; simpl; auto.
  apply IH. unfold process_node.
  destruct (set_mem (node_id n) cn); auto. simpl.
  intros u e v s0 Hin Hv.
  destruct (dict_get Z.eqb (node_id n) (entries s)) as [e0|] eqn:E;
    apply In_dict_set_Z in Hin as [Hin|[-> ->]]; eauto; simpl in Hv.
  - apply dict_get_In in E. eauto.
  - destruct Hv.
Qed.

(** ** Speed limits, directions and the allow-list *)

Lemma process_ways_recorded (ws1 ws2 : list way) (w : way)
    (st st' : list (Z * entry) * list Z) (s : pyval) (a b : Z) :
  process_ways (ws1 ++ w :: ws2) st = Ok st' ->
  accepted w = true -> resolve_speed_limit w = Ok s ->
  records w a b -> a <> 0 ->
  edge_weight (fst st') a b <> None /\
  ((forall w', In w' ws2 -> accepted w' = true -> ~ records w' a b) ->
   edge_weight (fst st') a b = Some s).
Proof.
  intros H Ha Hs Hr Hne. rewrite process_ways_app in H.
  destruct (process_ways ws1 st) as [st1|]; simpl in H; [|discriminate].
  destruct (process_way_accepted w s st1 Ha Hs) as [st2 [E2 [He _]]].
  rewrite E2 in H. simpl in H.
  assert (edge_weight (fst st2) a b = Some s) as H2.
  { rewrite He. now rewrite (proj2 (hits_way_steps w a b) (conj Hr Hne)). }
  split.
  - apply (process_ways_monotone _ _ _ _ _ H). now rewrite H2.
  - intros Hlater. rewrite <- H2. apply (process_ways_unchanged ws2); auto.
    intros w' Hin Ha'. destruct (hits a b (way_steps w')) eqn:Hh; auto.
    apply hits_way_steps in Hh as [Hr' _]. now destruct (Hlater w' Hin Ha').
Qed.

Lemma process_way_oneway_only_forward (w : way)
    (st : list (Z * entry) * list Z) :
  accepted w = true -> is_oneway w = true ->
  exists st', process_way w st = Ok st' /\
    forall u v, ~ adjacent u v (way_nodes w) ->
      edge_weight (fst st') u v = edge_weight (fst st) u v.
Proof.
  intros Ha Ho. destruct (resolve_speed_limit_accepted w Ha) as [s Hs].
  destruct (process_way_accepted w s st Ha Hs) as [st' [E [He _]]].
  exists st'. split; auto. intros u v Hn. rewrite He.
  destruct (hits u v (way_steps w)) eqn:Hh; auto.
  apply hits_way_steps in Hh as [[Hr|[Hr _]] _]; [contradiction|congruence].
Qed.

(** C7.  The speed limit of an accepted way is its [maxspeed_mph] tag when it
    has one, and otherwise the default of its class (motorway 60, trunk 45,
    primary 35, secondary 30, tertiary 25, unclassified 25, residential 25,
    living_street 10, tertiary_link 25, the other link classes 30); it is
    the weight of every edge the way writes. *)
Theorem resolved_speed_limit_is_edge_weight (w : way) :
  accepted w = true ->
  exists s, resolve_speed_limit w = Ok s /\
    (forall v, dict_get String.eqb "maxspeed_mph"%string (way_tags w) = Some v
               -> s = v) /\
    (dict_get String.eqb "maxspeed_mph"%string (way_tags w) = None ->
     exists c, dict_get String.eqb "highway"%string (way_tags w)
                 = Some (VStr c) /\
       In (c, s)
          [ ("motorway", VInt 60); ("trunk", VInt 45); ("primary", VInt 35);
            ("secondary", VInt 30); ("tertiary", VInt 25);
            ("unclassified", VInt 25); ("residential", VInt 25);
            ("living_street", VInt 10); ("tertiary_link", VInt 25);
            ("motorway_link", VInt 30); ("trunk_link", VInt 30);
            ("primary_link", VInt 30); ("secondary_link", VInt 30)
          ]%string) /\
    (forall st, exists st', process_way w st = Ok st' /\
       (forall a b, records w a b -> a <> 0 ->
                    edge_weight (fst st') a b = Some s) /\
       (forall a b, edge_weight (fst st') a b <> edge_weight (fst st) a b ->
                    edge_weight (fst st') a b = Some s)).
Proof.
  intros Ha. destruct (resolve_speed_limit_accepted w Ha) as [s Hs].
  exists s. split; auto. repeat split.
  - intros v Hv. unfold resolve_speed_limit in Hs. rewrite Hv in Hs.
    now injection Hs.
  - intros Hnone. apply accepted_spec in Ha as [c [Hc Hin]]. exists c.
    split; auto. unfold resolve_speed_limit in Hs. rewrite Hnone, Hc in Hs.
    simpl in Hin. unfold default_speed in Hs.
    repeat (destruct Hin as [<-|Hin];
            [injection Hs as <-; simpl; tauto|]).
    destruct Hin.
  - intros st. destruct (process_way_accepted w s st Ha Hs) as [st' [E [He _]]].
    exists st'. repeat split; auto.
    + intros a b Hr Hne. rewrite He.
      now rewrite (proj2 (hits_way_steps w a b) (conj Hr Hne)).
    + intros a b. rewrite He. destruct (hits a b (way_steps w)); congruence.
Qed.

Lemma resolved_speed_limit_witness :
  exists s, resolve_speed_limit Sample.lane_20 = Ok s /\ s = VInt 20.
Proof.
  destruct (resolved_speed_limit_is_edge_weight Sample.lane_20 eq_refl)
    as [s [Hs [Htag _]]].
  exists s. split; [exact Hs|]. apply Htag. reflexivity.
Defined.

Lemma build_town :
  build_auxiliary_structures Sample.town_nodes Sample.town_ways
  = Ok Sample.town.
Proof. reflexivity. Qed.

Lemma build_lanes :
  build_auxiliary_structures [] [Sample.lane_10; Sample.lane_20]
  = Ok Sample.lanes.
Proof. reflexivity. Qed.

(** C5, as the code has it.  Take an accepted way [w] of the way stream and
    a consecutive pair [(a, b)] of its node sequence, the source of each
    edge being an id other than [0].  The built graph has the edge [a -> b],
    and, unless [w] is tagged one-way [yes], the edge [b -> a]; the weight of
    each is the resolved speed limit of an accepted way that writes that
    directed pair, and it is the speed limit of [w] itself when no accepted
    way later in the stream writes the pair.  A way tagged one-way [yes]
    changes no edge other than its forward ones. *)
Theorem way_edges_last_write_wins (nodes : list node) (ws1 ws2 : list way)
    (w : way) (g : structure) (s : pyval) :
  build_auxiliary_structures nodes (ws1 ++ w :: ws2) = Ok g ->
  accepted w = true ->
  resolve_speed_limit w = Ok s ->
  (forall a b, adjacent a b (way_nodes w) ->
     (a <> 0 ->
      (exists w' s', In w' (ws1 ++ w :: ws2) /\ accepted w' = true /\
         records w' a b /\ resolve_speed_limit w' = Ok s' /\
         edge_weight (entries g) a b = Some s') /\
      ((forall w', In w' ws2 -> accepted w' = true -> ~ records w' a b) ->
       edge_weight (entries g) a b = Some s)) /\
     (is_oneway w = false -> b <> 0 ->
      (exists w' s', In w' (ws1 ++ w :: ws2) /\ accepted w' = true /\
         records w' b a /\ resolve_speed_limit w' = Ok s' /\
         edge_weight (entries g) b a = Some s') /\
      ((forall w', In w' ws2 -> accepted w' = true -> ~ records w' b a) ->
       edge_weight (entries g) b a = Some s))) /\
  (is_oneway w = true ->
   forall st, exists st', process_way w st = Ok st' /\
     forall u v, ~ adjacent u v (way_nodes w) ->
       edge_weight (fst st') u v = edge_weight (fst st) u v).
Proof.
  intros Hb Ha Hs.
  destruct (build_edge_weight _ _ _ Hb) as [st [Hst Hg]].
  assert (forall x y, records w x y -> x <> 0 ->
    (exists w' s', In w' (ws1 ++ w :: ws2) /\ accepted w' = true /\
       records w' x y /\ resolve_speed_limit w' = Ok s' /\
       edge_weight (entries g) x y = Some s') /\
    ((forall w', In w' ws2 -> accepted w' = true -> ~ records w' x y) ->
     edge_weight (entries g) x y = Some s)) as Hrec.
  { intros x y Hr Hne.
    destruct (process_ways_recorded _ _ _ _ _ _ x y Hst Ha Hs Hr Hne)
      as [Hex Hlast].
    rewrite Hg. split; auto.
    destruct (edge_weight (fst st) x y) as [s'|] eqn:E; [|congruence].
    destruct (process_ways_origin _ x y s' _ _ Hst E)
      as [H0|[w' [Hin [Ha' [Hh Hs']]]]].
    - discriminate.
    - apply hits_way_steps in Hh as [Hr' _]. exists w', s'. auto. }
  split.
  - intros a b Hadj. split.
    + intros Hne. apply Hrec; auto. now left.
    + intros Ho Hne. apply Hrec; auto. right. auto.
  - intros Ho st0. now apply process_way_oneway_only_forward.
Qed.

Lemma way_edges_last_write_wins_witness :
  edge_weight (entries Sample.town) 1 2 = Some (VInt 25) /\
  edge_weight (entries Sample.town) 2 1 = Some (VInt 25).
Proof.
  destruct (way_edges_last_write_wins Sample.town_nodes []
              [Sample.one_way_road; Sample.footpath] Sample.main_street
              Sample.town (VInt 25) eq_refl eq_refl eq_refl) as [H _].
  assert (forall a b w', In w' [Sample.one_way_road; Sample.footpath] ->
            accepted w' = true -> (a = 1 \/ a = 2) -> ~ records w' a b)
    as Hlater.
  { intros a b w' [<-|[<-|[]]] Ha Hab; [|discriminate].
    intros [Hr|[Ho _]]; [|discriminate].
    apply steps_None_adjacent in Hr. simpl in Hr.
    destruct Hr as [[= <- _]|[]]. destruct Hab; discriminate. }
  destruct (H 1 2) as [Hf Hr].
  - exists [], [3]. reflexivity.
  - destruct Hf as [_ Hf]; [discriminate|].
    destruct Hr as [_ Hr]; [reflexivity|discriminate|].
    split; [apply Hf|apply Hr]; intros w' Hin Ha; apply Hlater; auto.
Defined.

(** C5 as stated fails: of two accepted two-way ways over the same pair of
    nodes, the earlier one does not keep its speed limit on the edge. *)
Lemma way_weight_overwritten :
  accepted Sample.lane_10 = true /\
  is_oneway Sample.lane_10 = false /\
  adjacent 1 2 (way_nodes Sample.lane_10) /\
  resolve_speed_limit Sample.lane_10 = Ok (VInt 10) /\
  build_auxiliary_structures [] [Sample.lane_10; Sample.lane_20]
    = Ok Sample.lanes /\
  edge_weight (entries Sample.lanes) 1 2 = Some (VInt 20) /\
  edge_weight (entries Sample.lanes) 1 2 <> Some (VInt 10) /\
  edge_weight (entries Sample.lanes) 2 1 <> Some (VInt 10).
Proof.
  repeat split; try reflexivity; try discriminate.
  exists [], []. reflexivity.
Qed.

(** C6.  Every edge of the built graph is written by a way whose [highway]
    tag is in the allow-list; a way whose tag is missing or outside the list
    changes nothing, so the graph is the one built from the accepted ways
    alone; a node id that no accepted way mentions is no key of the graph,
    no adjacency target and no value of the coordinate index. *)
Theorem rejected_ways_leave_no_trace (nodes : list node) (ways : list way)
    (g : structure) :
  build_auxiliary_structures nodes ways = Ok g ->
  (forall u e v s, In (u, e) (entries g) -> In (v, s) (connected e) ->
     exists w c, In w ways /\
       dict_get String.eqb "highway"%string (way_tags w) = Some (VStr c) /\
       In c ALLOWED_HIGHWAY_TYPES /\ records w u v /\ u <> 0) /\
  (forall w st,
     (forall c, dict_get String.eqb "highway"%string (way_tags w)
                  = Some (VStr c) -> ~ In c ALLOWED_HIGHWAY_TYPES) ->
     process_way w st = Ok st) /\
  build_auxiliary_structures nodes (filter accepted ways) = Ok g /\
  (forall n,
     (forall w, In w ways -> accepted w = true -> ~ In n (way_nodes w)) ->
     (forall e, ~ In (n, e) (entries g)) /\
     (forall u e s, In (u, e) (entries g) -> ~ In (n, s) (connected e)) /\
     (forall l, ~ In (l, n) (locations g))).
Proof.
  intros Hb.
  set (P := fun x => exists w, In w ways /\ accepted w = true
                               /\ In x (way_nodes w)).
  assert (ids_within P (entries g) /\
          forall l i, In (l, i) (locations g) -> P i) as [Hids Hloc].
  { destruct (build_inv _ _ _ Hb) as [st [Hst ->]].
    apply node_pass_ids; simpl.
    - intros x Hx. apply (process_ways_nodes ways x _ _ Hst) in Hx.
      destruct Hx as [[]|Hx]. exact Hx.
    - apply (ids_within_process_ways P ways) with (st := ([], [])); auto.
      + intros w x Hin Ha Hx. exists w. auto.
      + intros k e [].
    - intros l i []. }
  repeat split.
  - intros u e v s Hin Hv.
    destruct (build_inv _ _ _ Hb) as [st [Hst Hg]]. subst g.
    revert u e v s Hin Hv. apply node_pass_pairs. simpl.
    apply (pairs_within_process_ways _ ways) with (st := ([], [])); auto.
    + intros w a b Hin Ha Hr Hne. apply accepted_spec in Ha as [c [Hc Hal]].
      exists w, c. auto 6.
    + intros u e v s [].
  - intros w st Hno. apply process_way_rejected.
    destruct (accepted w) eqn:Ha; auto.
    apply accepted_spec in Ha as [c [Hc Hal]]. destruct (Hno c Hc Hal).
  - unfold build_auxiliary_structures in *.
    now rewrite process_ways_filter.
  - intros e Hin. destruct (Hids _ _ Hin) as [[w [Hw [Ha Hx]]] _].
    apply (H w); auto.
  - intros u e s Hin Ht. destruct (Hids _ _ Hin) as [_ Ht'].
    destruct (Ht' _ _ Ht) as [w [Hw [Ha Hx]]]. apply (H w); auto.
  - intros l Hin. destruct (Hloc _ _ Hin) as [w [Hw [Ha Hx]]].
    apply (H w); auto.
Qed.

Lemma rejected_ways_leave_no_trace_witness :
  (forall e, ~ In (5, e) (entries Sample.town)) /\
  (forall l, ~ In (l, 6) (locations Sample.town)) /\
  build_auxiliary_structures Sample.town_nodes
    [Sample.main_street; Sample.one_way_road] = Ok Sample.town.
Proof.
  destruct (rejected_ways_leave_no_trace Sample.town_nodes Sample.town_ways
              Sample.town eq_refl) as [_ [_ [Hf Hn]]].
  assert (forall n, n = 5 \/ n = 6 ->
            forall w, In w Sample.town_ways -> accepted w = true ->
                      ~ In n (way_nodes w)) as Hout.
  { intros n Hn' w [<-|[<-|[<-|[]]]] Ha; try discriminate;
      simpl; intros H; decompose [or] H; decompose [or] Hn'; subst;
      try discriminate; auto. }
  split; [|split].
  - apply (Hn 5). apply Hout. auto.
  - apply (Hn 6). apply Hout. auto.
  - exact Hf.
Defined.

(** ** The search engine *)

Lemma Qltb_lt (a b : Q) : Qltb a b = true <-> (a < b)%Q.
Proof.
  unfold Qltb. rewrite Qlt_alt. destruct (a ?= b)%Q; split; congruence.
Qed.

Lemma Qltb_ge (a b : Q) : Qltb a b = false <-> (b <= a)%Q.
Proof.
  rewrite <- not_true_iff_false, Qltb_lt. split.
  - apply Qnot_lt_le.
  - apply Qle_not_lt.
Qed.

Lemma Qtruthy_spec (q : Q) : Qtruthy q = true <-> ~ (q == 0)%Q.
Proof.
  unfold Qtruthy. rewrite negb_true_iff, <- not_true_iff_false, Qeq_bool_iff.
  tauto.
Qed.

Lemma last_vertex_snoc (p : list Z) (x : Z) : last_vertex (p ++ [x]) = Ok x.
Proof.
  induction p as [|y p IH]; simpl; auto.
  destruct (p ++ [x]) eqn:E; auto. destruct p; discriminate.
Qed.

Lemma remove_nth_In {A : Type} (i : nat) (l : list A) (x : A) :
  In x (remove_nth i l) -> In x l.
Proof.
  revert i. induction l as [|y l IH]; intros [|i]; simpl; auto.
  intros [H|H]; eauto.
Qed.

Lemma In_remove_nth {A : Type} (i : nat) (l : list A) (x y : A) :
  nth_error l i = Some y -> In x l -> x = y \/ In x (remove_nth i l).
Proof.
  revert i. induction l as [|z l IH]; intros [|i]; simpl; try tauto.
  - intros [= ->] [H|H]; auto.
  - intros Hn [H|H]; auto. destruct (IH _ Hn H); auto.
Qed.

Lemma remove_nth_length {A : Type} (i : nat) (l : list A) (y : A) :
  nth_error l i = Some y -> S (List.length (remove_nth i l)) = List.length l.
Proof.
  revert i. induction l as [|z l IH]; intros [|i]; simpl; try discriminate.
  - reflexivity.
  - intros H. now rewrite (IH _ H).
Qed.

Section Scan.
Variable great_circle_distance : loc -> loc -> Q.
Variable goal : Z.
Variable aux_structures : structure.
Variable heuristic : bool.

Local Abbreviation priority :=
  (priority great_circle_distance goal aux_structures heuristic).
Local Abbreviation find_min :=
  (find_min great_circle_distance goal aux_structures heuristic).
Local Abbreviation hval :=
  (hval great_circle_distance goal aux_structures heuristic).

(** The priority of an entry is its cost plus the heuristic term of its
    last vertex. *)
Lemma priority_hval (p : list Z) (g : Q) (t : Z) (f : Q) :
  last_vertex p = Ok t -> priority (p, g) = Ok f ->
  exists h, hval t = Ok h /\ (f == g + h)%Q.
Proof.
  intros Ht. unfold priority, hval. simpl. rewrite Ht. simpl.
  destruct heuristic.
  - destruct (get_lat_lon t aux_structures) as [a|]; simpl;
      [|discriminate].
    destruct (get_lat_lon goal aux_structures) as [b|]; simpl;
      [|discriminate].
    destruct (gcd_call great_circle_distance a b) as [h|]; simpl;
      [|discriminate].
    intros [= <-]. exists h. split; [reflexivity|apply Qeq_refl].
  - intros [= <-]. exists 0%Q. split; [reflexivity|]. now rewrite Qplus_0_r.
Qed.

Lemma priority_defined (p : list Z) (g : Q) (t : Z) (h : Q) :
  last_vertex p = Ok t -> hval t = Ok h -> exists f, priority (p, g) = Ok f.
Proof.
  intros Ht. unfold priority, hval. simpl. rewrite Ht. simpl.
  destruct heuristic; [|eauto].
  destruct (get_lat_lon t aux_structures) as [a|]; simpl; [|discriminate].
  destruct (get_lat_lon goal aux_structures) as [b|]; simpl;
    [|discriminate].
  destruct (gcd_call great_circle_distance a b) as [h'|]; simpl;
    [eauto|discriminate].
Qed.

(** The scan returns the position of an entry of least priority, and every
    entry had a priority. *)
Lemma find_min_spec (agenda : agenda_t) :
  forall index min_cost min_index i,
    find_min agenda index min_cost min_index = Ok i ->
    (forall e, In e agenda -> exists f, priority e = Ok f) /\
    ((i = min_index /\ (min_cost = None -> agenda = []) /\
      forall m e f, min_cost = Some m -> In e agenda ->
                    priority e = Ok f -> (m <= f)%Q) \/
     (exists k e f, i = (index + k)%nat /\ nth_error agenda k = Some e /\
        priority e = Ok f /\
        (forall m, min_cost = Some m -> (f < m)%Q) /\
        forall e' f', In e' agenda -> priority e' = Ok f' -> (f <= f')%Q)).
Proof.
  induction agenda as [|e0 agenda IH]; intros index mc mi i; simpl.
  - intros [= <-]. split; [tauto|]. left. repeat split; tauto.
  - destruct (priority e0) as [f0|] eqn:Ef0; simpl; [|discriminate].
    assert (forall i',
      find_min agenda (S index) (Some f0) index = Ok i' ->
      (forall m, mc = Some m -> (f0 < m)%Q) ->
      (forall e, e0 = e \/ In e agenda -> exists f, priority e = Ok f) /\
      exists k e f, i' = (index + k)%nat /\
        nth_error (e0 :: agenda) k = Some e /\ priority e = Ok f /\
        (forall m, mc = Some m -> (f < m)%Q) /\
        forall e' f', e0 = e' \/ In e' agenda -> priority e' = Ok f' ->
                      (f <= f')%Q) as Htake.
    { intros i' H Hlt. apply IH in H as [Hall H]. split.
      - intros e [<-|He]; eauto.
      - destruct H as [[-> [_ Hmin]]|[k [e [f [-> [Hk [Hf [Hm Hmin]]]]]]]].
        + exists O, e0, f0. rewrite Nat.add_0_r. repeat split; auto.
          intros e' f' [<-|He'] Hf'.
          * rewrite Ef0 in Hf'. injection Hf' as <-. apply Qle_refl.
          * eapply Hmin; eauto.
        + exists (S k), e, f. rewrite Nat.add_succ_r. repeat split; auto.
          * intros m Hm'. apply Qlt_trans with f0; auto.
          * intros e' f' [<-|He'] Hf'.
            -- rewrite Ef0 in Hf'. injection Hf' as <-.
               apply Qlt_le_weak. auto.
            -- eapply Hmin; eauto. }
    destruct mc as [m|].
    + destruct (Qltb f0 m) eqn:Elt.
      * intros H. apply Qltb_lt in Elt.
        destruct (Htake i H) as [Hall Hex].
        { intros m' [= <-]. exact Elt. }
        split; auto.
      * intros H. apply Qltb_ge in Elt. apply IH in H as [Hall H]. split.
        { intros e [<-|He]; eauto. }
        destruct H as [[-> [_ Hmin]]|[k [e [f [-> [Hk [Hf [Hm Hmin]]]]]]]].
        -- left. repeat split; [discriminate|].
           intros m' e' f' [= <-] [<-|He'] Hf'.
           ++ rewrite Ef0 in Hf'. now injection Hf' as <-.
           ++ eapply Hmin; eauto.
        -- right. exists (S k), e, f. rewrite Nat.add_succ_r.
           repeat split; auto.
           intros e' f' [<-|He'] Hf'.
           ++ rewrite Ef0 in Hf'. injection Hf' as <-.
              apply Qlt_le_weak, Qlt_le_trans with m; auto.
           ++ eapply Hmin; eauto.
    + intros H. destruct (Htake i H) as [Hall Hex]; [discriminate|].
      split; auto.
Qed.

End Scan.

Section Expansion.
Variable cost : Z -> Z -> result (option Q).

Local Abbreviation expand := (expand cost).

(** What one expansion appends to the agenda. *)
Lemma expand_spec (t : Z) (path : list Z * Q) (exp : list Z) (ns : list Z) :
  forall agenda agenda',
    expand t path exp ns agenda = Ok agenda' ->
    exists pushed, agenda' = agenda ++ pushed /\
      (List.length pushed <= List.length ns)%nat /\
      (forall e, In e pushed ->
         exists n q, In n ns /\ set_mem n exp = false /\
           cost t n = Ok (Some q) /\ Qtruthy q = true /\
           e = (fst path ++ [n], (snd path + q)%Q)) /\
      (forall n q, In n ns -> set_mem n exp = false ->
         cost t n = Ok (Some q) -> Qtruthy q = true ->
         In (fst path ++ [n], (snd path + q)%Q) pushed).
Proof.
  induction ns as [|n ns IH]; intros agenda agenda'; simpl.
  - intros [= <-]. exists []. rewrite app_nil_r.
    repeat split; simpl; auto; intros; contradiction.
  - destruct (set_mem n exp) eqn:Em.
    + intros H. apply IH in H as [pushed [-> [Hlen [Hin Hall]]]].
      exists pushed. repeat split; auto.
      * intros e He. destruct (Hin e He) as [n' [q H']].
        exists n', q. intuition.
      * intros n' q [<-|Hn'] Hm Hc Hq; [congruence|eauto].
    + destruct (cost t n) as [c|] eqn:Ec; simpl; [|discriminate].
      assert (forall agenda1,
        expand t path exp ns agenda1 = Ok agenda' ->
        (agenda1 = agenda /\
         (forall q, c = Some q -> Qtruthy q = false)) ->
        exists pushed, agenda' = agenda ++ pushed /\
          (List.length pushed <= S (List.length ns))%nat /\
          (forall e, In e pushed ->
             exists n0 q, (n = n0 \/ In n0 ns) /\ set_mem n0 exp = false /\
               cost t n0 = Ok (Some q) /\ Qtruthy q = true /\
               e = (fst path ++ [n0], (snd path + q)%Q)) /\
          (forall n0 q, n = n0 \/ In n0 ns -> set_mem n0 exp = false ->
             cost t n0 = Ok (Some q) -> Qtruthy q = true ->
             In (fst path ++ [n0], (snd path + q)%Q) pushed)) as Hskip.
      { intros agenda1 H [-> Hc].
        apply IH in H as [pushed [-> [Hlen [Hin Hall]]]].
        exists pushed. repeat split; auto.
        - intros e He. destruct (Hin e He) as [n' [q H']].
          exists n', q. intuition.
        - intros n' q [<-|Hn'] Hm Hc' Hq; [|eauto].
          rewrite Ec in Hc'. injection Hc' as ->.
          rewrite (Hc q eq_refl) in Hq. discriminate. }
      destruct c as [q|].
      * destruct (Qtruthy q) eqn:Eq.
        -- intros H. apply IH in H as [pushed [-> [Hlen [Hin Hall]]]].
           exists ((fst path ++ [n], (snd path + q)%Q) :: pushed).
           rewrite <- app_assoc. simpl. repeat split; auto.
           ++ lia.
           ++ intros e [<-|He].
              ** exists n, q. auto 6.
              ** destruct (Hin e He) as [n' [q' H']].
                 exists n', q'. intuition.
           ++ intros n' q' [<-|Hn'] Hm Hc' Hq; [|eauto].
              rewrite Ec in Hc'. injection Hc' as ->. auto.
        -- intros H. apply (Hskip agenda H). split; auto.
           intros q' [= <-]. exact Eq.
      * intros H. apply (Hskip agenda H). split; auto. discriminate.
Qed.

Lemma expand_total (t : Z) (path : list Z * Q) (exp : list Z)
    (ns : list Z) :
  (forall n, In n ns -> exists c, cost t n = Ok c) ->
  forall agenda, exists agenda', expand t path exp ns agenda = Ok agenda'.
Proof.
  induction ns as [|n ns IH]; intros Hc agenda; simpl; eauto.
  assert (forall n0, In n0 ns -> exists c, cost t n0 = Ok c) as Hc'
    by (intros n0 Hn0; apply Hc; now right).
  destruct (set_mem n exp); auto.
  destruct (Hc n (or_introl eq_refl)) as [c ->]. simpl.
  destruct c as [q|]; auto. destruct (Qtruthy q); auto.
Qed.

End Expansion.

Lemma route_last (E : Z -> Z -> Q -> Prop) (s : Z) (p : list Z) (x : Z)
    (c : Q) :
  route E s p x c -> last_vertex p = Ok x.
Proof. intros [|]; [reflexivity|apply last_vertex_snoc]. Qed.

(** ** Optimality of the returned path *)

Section Optimality.
Variable great_circle_distance : loc -> loc -> Q.
Variable start goal : Z.
Variable neighbors : Z -> result (list Z).
Variable cost : Z -> Z -> result (option Q).
Variable aux_structures : structure.
Variable heuristic : bool.

Local Abbreviation priority :=
  (priority great_circle_distance goal aux_structures heuristic).
Local Abbreviation find_min :=
  (find_min great_circle_distance goal aux_structures heuristic).
Local Abbreviation hval :=
  (hval great_circle_distance goal aux_structures heuristic).
Local Abbreviation search_loop :=
  (search_loop great_circle_distance goal neighbors cost aux_structures
     heuristic).
Local Abbreviation edge := (edge neighbors cost).
Local Abbreviation run := (route edge start).
Local Abbreviation search_inv := (search_inv neighbors cost start).

Hypothesis Hcons :
  consistent great_circle_distance goal neighbors cost aux_structures
    heuristic.

(** A route ends at an expanded vertex, or some agenda entry with an
    unexpanded last vertex is at least as promising. *)
Lemma route_dominated (agenda : agenda_t) (expanded_set : list Z)
    (p : list Z) (x : Z) (c : Q) :
  search_inv agenda expanded_set ->
  run p x c ->
  In x expanded_set \/
  exists q g y, In (q, g) agenda /\ run q y g /\ ~ In y expanded_set /\
    forall hx, hval x = Ok hx ->
      exists hy, hval y = Ok hy /\ (g + hy <= c + hx)%Q.
Proof.
  intros [G [I1 [I2 [I3 I4]]]] Hr.
  induction Hr as [|p u c v w Hr IH He].
  - destruct (in_dec Z.eq_dec start expanded_set) as [Hin|Hout]; auto.
    destruct I4 as [Hin|[q [g [Hq [Hrq Hg]]]]]; [contradiction|].
    right. exists q, g, start. repeat split; auto.
    intros hx Hx. exists hx. split; auto. lra.
  - destruct (in_dec Z.eq_dec v expanded_set) as [Hin|Hout]; auto.
    right. destruct IH as [Hu|[q [g [y [Hq [Hrq [Hy Hdom]]]]]]].
    + destruct (I3 u v w Hu He) as [Hv|[q [g [Hq [Hrq Hg]]]]];
        [contradiction|].
      exists q, g, v. repeat split; auto.
      intros hx Hx. exists hx. split; auto.
      pose proof (I2 u p c Hu Hr). lra.
    + exists q, g, y. repeat split; auto.
      intros hv Hv. destruct (Hcons u v w hv He Hv) as [hu [Hu Hle]].
      destruct (Hdom hu Hu) as [hy [Hhy Hle']].
      exists hy. split; auto. lra.
Qed.

(** The entry the scan selects is a cheapest route to its last vertex,
    when that vertex is not yet expanded. *)
Lemma selected_is_cheapest (agenda : agenda_t) (expanded_set : list Z)
    (i : nat) (q0 : list Z) (g0 : Q) (t : Z) :
  search_inv agenda expanded_set ->
  find_min agenda 0 None 0 = Ok i ->
  nth_error agenda i = Some (q0, g0) ->
  last_vertex q0 = Ok t ->
  ~ In t expanded_set ->
  forall p c, run p t c -> (g0 <= c)%Q.
Proof.
  intros Hinv Hmin Hnth Ht Hout p c Hr.
  destruct (find_min_spec _ _ _ _ _ _ _ _ _ Hmin) as [Hall Hsel].
  assert (exists f0, priority (q0, g0) = Ok f0 /\
            forall e f, In e agenda -> priority e = Ok f -> (f0 <= f)%Q)
    as [f0 [Hf0 Hleast]].
  { destruct Hsel as [[-> [Hnil _]]|[k [e [f [-> [Hk [Hf [_ Hle]]]]]]]].
    - rewrite (Hnil eq_refl) in Hnth. discriminate.
    - simpl in Hnth. rewrite Hnth in Hk. injection Hk as <-. eauto. }
  destruct (priority_hval _ _ _ _ _ _ _ _ Ht Hf0) as [ht [Hht Ef0]].
  destruct (route_dominated _ _ _ _ _ Hinv Hr)
    as [Hin|[q [g [y [Hq [Hrq [Hy Hdom]]]]]]]; [contradiction|].
  destruct (Hdom ht Hht) as [hy [Hhy Hle]].
  destruct (Hall _ Hq) as [f Hf].
  destruct (priority_hval _ _ _ _ _ _ _ _ (route_last _ _ _ _ _ Hrq) Hf)
    as [hy' [Hhy' Ef]].
  rewrite Hhy in Hhy'. injection Hhy' as <-.
  pose proof (Hleast _ _ Hq Hf). lra.
Qed.

(** Dropping an entry whose last vertex is expanded keeps the invariant. *)
Lemma search_inv_discard (agenda : agenda_t) (expanded_set : list Z)
    (i : nat) (q0 : list Z) (g0 : Q) (t : Z) :
  search_inv agenda expanded_set ->
  nth_error agenda i = Some (q0, g0) ->
  last_vertex q0 = Ok t ->
  In t expanded_set ->
  search_inv (remove_nth i agenda) expanded_set.
Proof.
  intros [G [I1 [I2 [I3 I4]]]] Hnth Ht Hin. exists G. repeat split; auto.
  - intros q g Hq. apply I1. eapply remove_nth_In; eauto.
  - intros u v w Hu He.
    destruct (I3 u v w Hu He) as [Hv|[q [g [Hq [Hrq Hg]]]]]; auto.
    destruct (In_remove_nth _ _ _ _ Hnth Hq) as [[= -> ->]|Hq'].
    + left. apply route_last in Hrq. congruence.
    + right. eauto.
  - destruct I4 as [Hs|[q [g [Hq [Hrq Hg]]]]]; auto.
    destruct (In_remove_nth _ _ _ _ Hnth Hq) as [[= -> ->]|Hq'].
    + left. apply route_last in Hrq. congruence.
    + right. eauto.
Qed.

(** Expanding the selected vertex keeps the invariant. *)
Lemma search_inv_expand (agenda agenda2 : agenda_t)
    (expanded_set : list Z) (i : nat) (q0 : list Z) (g0 : Q) (t : Z)
    (ns : list Z) :
  search_inv agenda expanded_set ->
  find_min agenda 0 None 0 = Ok i ->
  nth_error agenda i = Some (q0, g0) ->
  last_vertex q0 = Ok t ->
  ~ In t expanded_set ->
  neighbors t = Ok ns ->
  expand cost t (q0, g0) (set_add t expanded_set) ns (remove_nth i agenda)
    = Ok agenda2 ->
  search_inv agenda2 (set_add t expanded_set).
Proof.
  intros Hinv Hmin Hnth Ht Hout Hns Hexp.
  pose proof (selected_is_cheapest _ _ _ _ _ _ Hinv Hmin Hnth Ht Hout)
    as Hbest.
  destruct Hinv as [G [I1 [I2 [I3 I4]]]].
  apply expand_spec in Hexp as [pushed [-> [_ [Hfrom Hto]]]].
  simpl in Hfrom, Hto.
  assert (run q0 t g0) as Hr0.
  { destruct (I1 q0 g0 (nth_error_In _ _ Hnth)) as [t' Hr].
    pose proof (route_last _ _ _ _ _ Hr). congruence. }
  exists (fun u => if Z.eqb u t then g0 else G u).
  repeat split.
  - intros q g Hq. apply in_app_iff in Hq as [Hq|Hq].
    + apply I1. eapply remove_nth_In; eauto.
    + destruct (Hfrom _ Hq) as [n [w [Hn [Hm [Hc [Hw [= -> ->]]]]]]].
      exists n. apply route_step with (u := t); auto.
      split; auto. exists ns. auto.
  - intros u p c Hu Hr. apply In_set_add in Hu as [->|Hu].
    + rewrite Z.eqb_refl. eauto.
    + destruct (Z.eqb u t) eqn:E; [|eauto].
      apply Z.eqb_eq in E. subst. contradiction.
  - intros u v w Hu He.
    destruct (in_dec Z.eq_dec v (set_add t expanded_set)) as [Hv|Hv]; auto.
    right. apply In_set_add in Hu as [->|Hu].
    + rewrite Z.eqb_refl. destruct He as [[ns' [Hns' [Hv' Hc]]] Hw].
      rewrite Hns in Hns'. injection Hns' as <-.
      exists (q0 ++ [v]), (g0 + w)%Q. repeat split.
      * apply in_app_iff. right. apply Hto; auto.
        rewrite <- not_true_iff_false, set_mem_In. exact Hv.
      * apply route_step with (u := t); auto.
        split; auto. exists ns. auto.
      * apply Qle_refl.
    + destruct (Z.eqb u t) eqn:E.
      { apply Z.eqb_eq in E. subst. contradiction. }
      destruct (I3 u v w Hu He) as [Hv'|[q [g [Hq [Hrq Hg]]]]].
      { destruct Hv. apply In_set_add. auto. }
      destruct (In_remove_nth _ _ _ _ Hnth Hq) as [[= -> ->]|Hq'].
      * destruct Hv. apply In_set_add. left.
        apply route_last in Hrq. congruence.
      * exists q, g. repeat split; auto. apply in_app_iff. auto.
  - destruct (in_dec Z.eq_dec start (set_add t expanded_set)) as [Hv|Hv];
      auto.
    right. destruct I4 as [Hs|[q [g [Hq [Hrq Hg]]]]].
    { destruct Hv. apply In_set_add. auto. }
    destruct (In_remove_nth _ _ _ _ Hnth Hq) as [[= -> ->]|Hq'].
    + destruct Hv. apply In_set_add. left.
      apply route_last in Hrq. congruence.
    + exists q, g. repeat split; auto. apply in_app_iff. auto.
Qed.

(** A path the loop returns is a route to the goal that no route to the
    goal beats. *)
Lemma search_loop_optimal (fuel : nat) :
  forall agenda expanded_set p,
    search_inv agenda expanded_set ->
    search_loop fuel agenda expanded_set = Some (Ok (Some p)) ->
    exists g, run p goal g /\
      forall p' c, run p' goal c -> (g <= c)%Q.
Proof.
  induction fuel as [|fuel IH]; intros agenda expanded_set p Hinv; simpl;
    [discriminate|].
  destruct agenda as [|e0 agenda0] eqn:Eag; [discriminate|].
  rewrite <- Eag in *. clear Eag e0 agenda0.
  destruct (find_min agenda 0 None 0) as [i|] eqn:Hmin; [|discriminate].
  destruct (nth_error agenda i) as [[q0 g0]|] eqn:Hnth; [|discriminate].
  simpl. destruct (last_vertex q0) as [t|] eqn:Ht; [|discriminate].
  destruct (set_mem t expanded_set) eqn:Hm.
  - apply IH. apply set_mem_In in Hm.
    eapply search_inv_discard; eauto.
  - assert (~ In t expanded_set) as Hout
      by (rewrite <- set_mem_In; congruence).
    destruct (Z.eqb t goal) eqn:Hg.
    + apply Z.eqb_eq in Hg. subst t. intros [= <-]. exists g0. split.
      * destruct Hinv as [G [I1 _]].
        destruct (I1 q0 g0 (nth_error_In _ _ Hnth)) as [t' Hr].
        pose proof (route_last _ _ _ _ _ Hr). congruence.
      * eapply selected_is_cheapest; eauto.
    + destruct (neighbors t) as [ns|] eqn:Hns; [|discriminate].
      destruct (expand cost t (q0, g0) (set_add t expanded_set) ns
                  (remove_nth i agenda)) as [agenda2|] eqn:Hexp;
        [|discriminate].
      apply IH. eapply search_inv_expand; eauto.
Qed.

Lemma search_inv_init : search_inv [([start], 0%Q)] [].
Proof.
  exists (fun _ => 0%Q). repeat split.
  - intros q g [[= <- <-]|[]]. exists start. constructor.
  - intros u p c [].
  - intros u v w [].
  - right. exists [start], 0%Q. repeat split; simpl; auto.
    + constructor.
    + apply Qle_refl.
Qed.

Lemma uniform_cost_search_optimal (fuel : nat) (p : list Z) :
  uniform_cost_search great_circle_distance fuel start goal neighbors cost
    aux_structures heuristic = Some (Ok (Some p)) ->
  exists g, run p goal g /\ forall p' c, run p' goal c -> (g <= c)%Q.
Proof. apply search_loop_optimal, search_inv_init. Qed.
End Optimality.

(** ** Routes *)

Lemma route_nonempty (E : Z -> Z -> Q -> Prop) (s : Z) (p : list Z) (x : Z)
    (c : Q) :
  route E s p x c -> p <> [].
Proof.
  intros [|p0 u c0 v w Hr He] Hnil; [discriminate|].
  destruct p0; discriminate.
Qed.

Lemma route_mono (E E' : Z -> Z -> Q -> Prop) (s : Z) (p : list Z) (x : Z)
    (c : Q) :
  (forall u v w, E u v w -> E' u v w) -> route E s p x c -> route E' s p x c.
Proof.
  intros H Hr. induction Hr; [constructor|].
  eapply route_step; eauto.
Qed.

(** A node sequence has one accumulated cost. *)
Lemma route_unique (E : Z -> Z -> Q -> Prop) (s : Z) :
  (forall u v w w', E u v w -> E u v w' -> w = w') ->
  forall p x c, route E s p x c ->
  forall x' c', route E s p x' c' -> x = x' /\ c = c'.
Proof.
  intros Hfun.
  assert (forall p x c, route E s p x c ->
          forall p' x' c', route E s p' x' c' -> p = p' ->
                           x = x' /\ c = c') as H.
  { intros p x c Hr.
    induction Hr as [|p u c v w Hr IH He];
      intros p' x' c' [|p0 u0 c0 v0 w0 Hr0 He0] Hp; auto.
    - destruct p0 as [|y [|z p0]]; try discriminate.
      now apply route_nonempty in Hr0.
    - destruct p as [|y [|z p]]; try discriminate.
      now apply route_nonempty in Hr.
    - apply app_inj_tail in Hp as [-> ->].
      destruct (IH _ _ _ Hr0 eq_refl) as [-> ->].
      now rewrite (Hfun _ _ _ _ He He0). }
  intros p x c Hr x' c' Hr'. exact (H _ _ _ Hr _ _ _ Hr' eq_refl).
Qed.

Lemma arc_functional (neighbors : Z -> result (list Z))
    (cost : Z -> Z -> result (option Q)) (u v : Z) (w w' : Q) :
  arc neighbors cost u v w -> arc neighbors cost u v w' -> w = w'.
Proof. intros [_ [_ [_ H]]] [_ [_ [_ H']]]. congruence. Qed.

(** ** Consistency of the heuristic *)

(** Without heuristic, consistency is non-negativity of the costs. *)
Lemma consistent_without_heuristic
    (great_circle_distance : loc -> loc -> Q) (goal : Z)
    (neighbors : Z -> result (list Z)) (cost : Z -> Z -> result (option Q))
    (aux : structure) :
  (forall u v w, arc neighbors cost u v w -> (0 <= w)%Q) ->
  consistent great_circle_distance goal neighbors cost aux false.
Proof.
  intros Hpos u v w hv [Ha _]. unfold hval. intros [= <-].
  exists 0%Q. split; auto. pose proof (Hpos _ _ _ Ha). lra.
Qed.

(** With great-circle costs, the triangle inequality makes the great-circle
    heuristic consistent. *)
Lemma short_cost_consistent (great_circle_distance : loc -> loc -> Q)
    (goal : Z) (aux : structure) :
  (forall a b c, (great_circle_distance a c
                  <= great_circle_distance a b + great_circle_distance b c)%Q)
  ->
  consistent great_circle_distance goal (aux_neighbors aux)
    (short_cost great_circle_distance aux) aux true.
Proof.
  intros Htri u v w hv [[ns [_ [_ Hc]]] _]. unfold hval, short_cost in *.
  destruct (get_lat_lon u aux) as [[a|]|]; simpl in *; try discriminate.
  - destruct (get_lat_lon v aux) as [[b|]|]; simpl in *; try discriminate.
    injection Hc as <-.
    destruct (get_lat_lon goal aux) as [[c|]|]; simpl; try discriminate.
    intros [= <-]. eexists. split; [reflexivity|apply Htri].
  - destruct (get_lat_lon v aux) as [[b|]|]; simpl in *; discriminate.
Qed.



(** ** Claims about optimality *)



(** ** A graph on which the heuristic misleads the search *)

Lemma build_detour :
  build_auxiliary_structures Sample.detour_nodes Sample.detour_ways
  = Ok Sample.detour.
Proof. reflexivity. Qed.

(** The arcs of [detour] under the time cost of [find_fast_path]. *)
Lemma detour_time_arcs (u v : Z) (w : Q) :
  arc (aux_neighbors Sample.detour)
      (fast_cost Sample.line_distance Sample.detour) u v w ->
  (u = 1 /\ v = 3 /\ (w == 3)%Q) \/ (u = 1 /\ v = 2 /\ (w == 1)%Q) \/
  (u = 2 /\ v = 3 /\ (w == 1)%Q) \/ (u = 3 /\ v = 4 /\ (w == 5)%Q) \/
  (u = 4 /\ v = 5 /\ (w == 4)%Q).
Proof.
  intros [ns [Hns [Hv Hc]]].
  unfold aux_neighbors in Hns. simpl in Hns.
  node_cases u; try discriminate; injection Hns as <-; simpl in Hv;
    decompose [or] Hv; try contradiction; subst v;
    vm_compute in Hc; injection Hc as <-; choose_case.
Qed.

(** The arcs of [detour] under the distance cost of [find_short_path]. *)
Lemma detour_distance_arcs (u v : Z) (w : Q) :
  arc (aux_neighbors Sample.detour)
      (short_cost Sample.line_distance Sample.detour) u v w ->
  (u = 1 /\ v = 3 /\ (w == 3)%Q) \/ (u = 1 /\ v = 2 /\ (w == 6)%Q) \/
  (u = 2 /\ v = 3 /\ (w == 9)%Q) \/ (u = 3 /\ v = 4 /\ (w == 5)%Q) \/
  (u = 4 /\ v = 5 /\ (w == 4)%Q).
Proof.
  intros [ns [Hns [Hv Hc]]].
  unfold aux_neighbors in Hns. simpl in Hns.
  node_cases u; try discriminate; injection Hns as <-; simpl in Hv;
    decompose [or] Hv; try contradiction; subst v;
    vm_compute in Hc; injection Hc as <-; choose_case.
Qed.

Lemma detour_time_positive (u v : Z) (w : Q) :
  arc (aux_neighbors Sample.detour)
      (fast_cost Sample.line_distance Sample.detour) u v w -> (0 < w)%Q.
Proof.
  intros H. apply detour_time_arcs in H.
  decompose [and or] H; lra.
Qed.

Lemma detour_distance_positive (u v : Z) (w : Q) :
  arc (aux_neighbors Sample.detour)
      (short_cost Sample.line_distance Sample.detour) u v w -> (0 < w)%Q.
Proof.
  intros H. apply detour_distance_arcs in H.
  decompose [and or] H; lra.
Qed.

Lemma line_distance_triangle (a b c : loc) :
  (Sample.line_distance a c
   <= Sample.line_distance a b + Sample.line_distance b c)%Q.
Proof.
  unfold Sample.line_distance.
  assert (forall x y z : Q, (Qabs (x - z) <= Qabs (x - y) + Qabs (y - z))%Q)
    as H.
  { intros x y z.
    setoid_replace (x - z)%Q with ((x - y) + (y - z))%Q by ring.
    apply Qabs_triangle. }
  pose proof (H (fst a) (fst b) (fst c)).
  pose proof (H (snd a) (snd b) (snd c)). lra.
Qed.

(** Every route of [detour] costs at least the drop of the time left. *)
Lemma detour_time_left_route (n : Z) (p : list Z) (x : Z) (c : Q) :
  route (arc (aux_neighbors Sample.detour)
           (fast_cost Sample.line_distance Sample.detour)) n p x c ->
  (Sample.detour_time_left n <= c + Sample.detour_time_left x)%Q.
Proof.
  intros Hr. induction Hr as [|p u c v w Hr IH Ha]; [lra|].
  apply detour_time_arcs in Ha.
  decompose [and or] Ha; subst u v;
    unfold Sample.detour_time_left in *; simpl in *; lra.
Qed.

(** On [detour], the heuristic never exceeds the time left to node [5]. *)
Lemma detour_heuristic_admissible (n : Z) (p : list Z) (c hn : Q) :
  route (arc (aux_neighbors Sample.detour)
           (fast_cost Sample.line_distance Sample.detour)) n p 5 c ->
  hval Sample.line_distance 5 Sample.detour true n = Ok hn ->
  (hn <= c)%Q.
Proof.
  intros Hr Hh. apply detour_time_left_route in Hr.
  assert (hn <= Sample.detour_time_left n)%Q as Hle.
  { unfold hval, get_lat_lon in Hh. simpl in Hh.
    node_cases n; try discriminate;
      vm_compute in Hh; injection Hh as <-; vm_compute; discriminate. }
  change (Sample.detour_time_left 5) with 0%Q in Hr. lra.
Qed.

Lemma detour_route_via_3 :
  exists g,
    route (arc (aux_neighbors Sample.detour)
             (fast_cost Sample.line_distance Sample.detour))
      1 [1; 3; 4; 5] 5 g /\ (g == 12)%Q.
Proof.
  eexists. split.
  - change [1; 3; 4; 5] with ((([1] ++ [3]) ++ [4]) ++ [5]).
    eapply route_step; [eapply route_step; [eapply route_step;
      [apply route_start|]|]|];
      (eexists; split;
       [reflexivity | split; [simpl; tauto | vm_compute; reflexivity]]).
  - reflexivity.
Qed.

Lemma detour_route_via_2 :
  exists g,
    route (arc (aux_neighbors Sample.detour)
             (fast_cost Sample.line_distance Sample.detour))
      1 [1; 2; 3; 4; 5] 5 g /\ (g == 11)%Q.
Proof.
  eexists. split.
  - change [1; 2; 3; 4; 5] with (((([1] ++ [2]) ++ [3]) ++ [4]) ++ [5]).
    eapply route_step; [eapply route_step; [eapply route_step;
      [eapply route_step; [apply route_start|]|]|]|];
      (eexists; split;
       [reflexivity | split; [simpl; tauto | vm_compute; reflexivity]]).
  - reflexivity.
Qed.





(** ** Termination *)

Section Termination.
Variable great_circle_distance : loc -> loc -> Q.
Variable goal : Z.
Variable neighbors : Z -> result (list Z).
Variable cost : Z -> Z -> result (option Q).
Variable aux_structures : structure.
Variable heuristic : bool.

Local Abbreviation priority :=
  (priority great_circle_distance goal aux_structures heuristic).
Local Abbreviation find_min :=
  (find_min great_circle_distance goal aux_structures heuristic).
Local Abbreviation hval :=
  (hval great_circle_distance goal aux_structures heuristic).
Local Abbreviation search_loop :=
  (search_loop great_circle_distance goal neighbors cost aux_structures
     heuristic).
Local Abbreviation pending := (pending neighbors).

Lemma find_min_total (agenda : agenda_t) :
  (forall e, In e agenda -> exists f, priority e = Ok f) ->
  forall index min_cost min_index,
    exists i, find_min agenda index min_cost min_index = Ok i.
Proof.
  induction agenda as [|e agenda IH]; intros Hp index mc mi; simpl; eauto.
  destruct (Hp e (or_introl eq_refl)) as [f ->]. simpl.
  assert (forall e', In e' agenda -> exists f', priority e' = Ok f') as Hp'
    by (intros e' He'; apply Hp; now right).
  destruct mc as [m|]; [destruct (Qltb f m)|]; apply IH; auto.
Qed.

(** The scan of a non-empty agenda selects one of its entries. *)
Lemma find_min_selects (agenda : agenda_t) (i : nat) :
  agenda <> [] -> find_min agenda 0 None 0 = Ok i ->
  exists e, nth_error agenda i = Some e.
Proof.
  intros Hne H. apply find_min_spec in H as [_ H].
  destruct H as [[_ [Hnil _]]|[k [e [f [-> [Hk _]]]]]].
  - destruct Hne. auto.
  - exists e. exact Hk.
Qed.

Lemma search_loop_more_fuel (fuel : nat) :
  forall agenda expanded_set r,
    search_loop fuel agenda expanded_set = Some r ->
    forall fuel', (fuel <= fuel')%nat ->
      search_loop fuel' agenda expanded_set = Some r.
Proof.
  induction fuel as [|fuel IH]; intros agenda expanded_set r; simpl;
    [discriminate|].
  intros H [|fuel'] Hle; [lia|]. simpl.
  destruct agenda as [|e0 agenda0]; auto.
  destruct (find_min (e0 :: agenda0) 0 None 0) as [i|]; auto.
  destruct (nth_error (e0 :: agenda0) i) as [path|]; auto.
  destruct (last_vertex (fst path)) as [t|]; auto.
  destruct (set_mem t expanded_set).
  - apply IH; auto. lia.
  - destruct (Z.eqb t goal); auto.
    destruct (neighbors t) as [ns|]; auto.
    destruct (expand cost t path (set_add t expanded_set) ns
                (remove_nth i (e0 :: agenda0))); auto.
    apply IH; auto. lia.
Qed.

Lemma pending_set_add_le (V : list Z) (t : Z) (expanded_set : list Z) :
  (pending V (set_add t expanded_set) <= pending V expanded_set)%nat.
Proof.
  induction V as [|u V IH]; simpl; auto.
  destruct (set_mem u expanded_set) eqn:E.
  - assert (set_mem u (set_add t expanded_set) = true) as ->.
    { apply set_mem_In, In_set_add. right. now apply set_mem_In. }
    simpl. exact IH.
  - destruct (set_mem u (set_add t expanded_set)); lia.
Qed.

(** Expanding a vertex of [V] pays for itself and for its out-edges. *)
Lemma pending_set_add (V : list Z) (t : Z) (expanded_set : list Z) :
  In t V -> set_mem t expanded_set = false ->
  (pending V (set_add t expanded_set) + S (degree neighbors t)
   <= pending V expanded_set)%nat.
Proof.
  induction V as [|u V IH]; simpl; [tauto|].
  intros [->|Hin] Hm.
  - rewrite Hm.
    assert (set_mem t (set_add t expanded_set) = true) as ->
      by (apply set_mem_In, In_set_add; auto).
    pose proof (pending_set_add_le V t expanded_set). lia.
  - specialize (IH Hin Hm).
    destruct (set_mem u expanded_set) eqn:E.
    + assert (set_mem u (set_add t expanded_set) = true) as ->.
      { apply set_mem_In, In_set_add. right. now apply set_mem_In. }
      lia.
    + destruct (set_mem u (set_add t expanded_set)); lia.
Qed.

Variable V : list Z.
Hypothesis Hclosed :
  forall u ns, In u V -> neighbors u = Ok ns -> forall v, In v ns -> In v V.

Lemma agenda_within_expand (agenda agenda2 : agenda_t) (i : nat)
    (q0 : list Z) (g0 : Q) (t : Z) (ns exp : list Z) :
  agenda_within V agenda -> In t V -> neighbors t = Ok ns ->
  expand cost t (q0, g0) exp ns (remove_nth i agenda) = Ok agenda2 ->
  agenda_within V agenda2 /\
  (List.length agenda2
   <= List.length (remove_nth i agenda) + List.length ns)%nat.
Proof.
  intros Hag HtV Hns Hexp.
  apply expand_spec in Hexp as [pushed [-> [Hpush [Hfrom _]]]].
  split; [|rewrite length_app; lia].
  intros q g Hq. apply in_app_iff in Hq as [Hq|Hq].
  - apply (Hag q g). eapply remove_nth_In; eauto.
  - destruct (Hfrom _ Hq) as [n [w [Hn [_ [_ [_ [= -> ->]]]]]]].
    exists n. split; [apply last_vertex_snoc|]. eapply Hclosed; eauto.
Qed.

(** With more fuel than agenda entries plus pending work, the loop ends:
    it raises, or it returns [None] or a path to the goal. *)
Lemma search_loop_terminates (fuel : nat) :
  forall agenda expanded_set,
    agenda_within V agenda ->
    (List.length agenda + pending V expanded_set < fuel)%nat ->
    exists r, search_loop fuel agenda expanded_set = Some r /\
              forall p, r = Ok (Some p) -> last_vertex p = Ok goal.
Proof.
  induction fuel as [|fuel IH]; intros agenda expanded_set Hag Hlt;
    [lia|].
  simpl. destruct agenda as [|e0 agenda0] eqn:Eag.
  { exists (Ok None). split; auto. discriminate. }
  rewrite <- Eag in *.
  assert (agenda <> []) as Hne by (rewrite Eag; discriminate).
  clear Eag e0 agenda0.
  destruct (find_min agenda 0 None 0) as [i|e] eqn:Hi;
    [|exists (Raise e); split; [auto|discriminate]].
  destruct (find_min_selects agenda i Hne Hi) as [[q0 g0] Hnth].
  rewrite Hnth. simpl.
  pose proof (remove_nth_length _ _ _ Hnth) as Hlen.
  destruct (Hag q0 g0 (nth_error_In _ _ Hnth)) as [t [Ht HtV]].
  rewrite Ht.
  destruct (set_mem t expanded_set) eqn:Hm.
  - apply IH; [|lia].
    intros q g Hq. apply (Hag q g). eapply remove_nth_In; eauto.
  - destruct (Z.eqb t goal) eqn:Hg.
    + apply Z.eqb_eq in Hg. subst t. exists (Ok (Some q0)). split; auto.
      now intros p [= <-].
    + destruct (neighbors t) as [ns|e] eqn:Hns;
        [|exists (Raise e); split; [auto|discriminate]].
      destruct (expand cost t (q0, g0) (set_add t expanded_set) ns
                  (remove_nth i agenda)) as [agenda2|e] eqn:Hexp;
        [|exists (Raise e); split; [auto|discriminate]].
      destruct (agenda_within_expand _ _ _ _ _ _ _ _ Hag HtV Hns Hexp)
        as [Hag2 Hlen2].
      pose proof (pending_set_add V t expanded_set HtV Hm) as Hpend.
      unfold degree in Hpend. rewrite Hns in Hpend.
      apply IH; auto. lia.
Qed.

Hypothesis Hneighbors : forall u, In u V -> exists ns, neighbors u = Ok ns.
Hypothesis Hcost :
  forall u ns v, In u V -> neighbors u = Ok ns -> In v ns ->
                 exists c, cost u v = Ok c.
Hypothesis Hhval : forall u, In u V -> exists h, hval u = Ok h.

(** When the neighbour, cost and heuristic computations succeed on [V],
    the loop does not raise. *)
Lemma search_loop_no_raise (fuel : nat) :
  forall agenda expanded_set r,
    agenda_within V agenda ->
    search_loop fuel agenda expanded_set = Some r ->
    exists o, r = Ok o.
Proof.
  induction fuel as [|fuel IH]; intros agenda expanded_set r Hag;
    [discriminate|].
  simpl. destruct agenda as [|e0 agenda0] eqn:Eag.
  { intros [= <-]. eauto. }
  rewrite <- Eag in *.
  assert (agenda <> []) as Hne by (rewrite Eag; discriminate).
  clear Eag e0 agenda0.
  destruct (find_min_total agenda) with (index := O)
    (min_cost := @None Q) (min_index := O) as [i Hi].
  { intros [q g] He. destruct (Hag q g He) as [t [Ht HtV]].
    destruct (Hhval t HtV) as [h Hh].
    eapply priority_defined; eauto. }
  rewrite Hi.
  destruct (find_min_selects agenda i Hne Hi) as [[q0 g0] Hnth].
  rewrite Hnth. simpl.
  destruct (Hag q0 g0 (nth_error_In _ _ Hnth)) as [t [Ht HtV]].
  rewrite Ht.
  destruct (set_mem t expanded_set) eqn:Hm.
  - apply IH.
    intros q g Hq. apply (Hag q g). eapply remove_nth_In; eauto.
  - destruct (Z.eqb t goal) eqn:Hg.
    + intros [= <-]. eauto.
    + destruct (Hneighbors t HtV) as [ns Hns]. rewrite Hns.
      destruct (expand_total cost t (q0, g0) (set_add t expanded_set) ns)
        with (agenda := remove_nth i agenda) as [agenda2 Hexp].
      { intros n Hn. eapply Hcost; eauto. }
      rewrite Hexp. apply IH.
      eapply agenda_within_expand; eauto.
Qed.
End Termination.


(** * Further properties *)

(** ** What the search returns *)

Lemma last_vertex_removelast (q : list Z) (t : Z) :
  last_vertex q = Ok t -> q = removelast q ++ [t].
Proof.
  induction q as [|x q IH]; simpl; [discriminate|].
  destruct q as [|y q].
  - now intros [= ->].
  - intros H.
    change (removelast (x :: y :: q)) with (x :: removelast (y :: q)).
    rewrite <- app_comm_cons. f_equal. apply IH. exact H.
Qed.

Lemma route_head (E : Z -> Z -> Q -> Prop) (s : Z) (p : list Z) (x : Z)
    (c : Q) :
  route E s p x c -> exists r, p = s :: r.
Proof.
  intros Hr. induction Hr as [|p u c v w Hr [r ->] He]; [now exists []|].
  now exists (r ++ [v]).
Qed.

Lemma adjacent_snoc (a b x : Z) (p : list Z) :
  adjacent a b (p ++ [x]) ->
  adjacent a b p \/ (last_vertex p = Ok a /\ b = x).
Proof.
  intros [l1 [l2 H]].
  destruct l2 as [|y l2].
  - right. assert (p ++ [x] = (l1 ++ [a]) ++ [b]) as H'
      by (rewrite H, <- app_assoc; reflexivity).
    apply app_inj_tail in H' as [-> ->].
    split; auto. apply last_vertex_snoc.
  - left. destruct (@exists_last _ (y :: l2)) as [l2' [z E]];
      [discriminate|].
    rewrite E in H.
    assert (p ++ [x] = (l1 ++ a :: b :: l2') ++ [z]) as H'
      by (rewrite H, <- app_assoc; reflexivity).
    apply app_inj_tail in H' as [-> _].
    now exists l1, l2'.
Qed.

(** Every step of a route is an edge. *)
Lemma route_adjacent (E : Z -> Z -> Q -> Prop) (s : Z) (p : list Z) (x : Z)
    (c : Q) :
  route E s p x c -> forall a b, adjacent a b p -> exists w, E a b w.
Proof.
  intros Hr. induction Hr as [|p u c v w Hr IH He]; intros a b Hab.
  - destruct Hab as [[|y [|z l1]] [l2 H]]; discriminate.
  - apply adjacent_snoc in Hab as [Hab|[Hl ->]]; [eauto|].
    rewrite (route_last _ _ _ _ _ Hr) in Hl. injection Hl as <-. eauto.
Qed.

Section Soundness.
Variable great_circle_distance : loc -> loc -> Q.
Variable start goal : Z.
Variable neighbors : Z -> result (list Z).
Variable cost : Z -> Z -> result (option Q).
Variable aux_structures : structure.
Variable heuristic : bool.

Local Abbreviation search_loop :=
  (search_loop great_circle_distance goal neighbors cost aux_structures
     heuristic).
Local Abbreviation sound := (agenda_sound neighbors cost start).

Lemma agenda_sound_discard (agenda : agenda_t) (expanded_set : list Z)
    (i : nat) :
  sound agenda expanded_set -> sound (remove_nth i agenda) expanded_set.
Proof.
  intros H q g Hq. apply (H q g). eapply remove_nth_In; eauto.
Qed.

Lemma agenda_sound_expand (agenda agenda2 : agenda_t)
    (expanded_set : list Z) (i : nat) (q0 : list Z) (g0 : Q) (t : Z)
    (ns : list Z) :
  sound agenda expanded_set ->
  nth_error agenda i = Some (q0, g0) ->
  last_vertex q0 = Ok t ->
  neighbors t = Ok ns ->
  expand cost t (q0, g0) (set_add t expanded_set) ns (remove_nth i agenda)
    = Ok agenda2 ->
  sound agenda2 (set_add t expanded_set).
Proof.
  intros Hs Hnth Ht Hns Hexp.
  apply expand_spec in Hexp as [pushed [-> [_ [Hfrom _]]]].
  simpl in Hfrom.
  destruct (Hs q0 g0 (nth_error_In _ _ Hnth)) as [[t' Hr0] [Hnd0 Hin0]].
  assert (t' = t) as ->
    by (pose proof (route_last _ _ _ _ _ Hr0); congruence).
  assert (forall x, In x q0 -> In x (set_add t expanded_set)) as Hq0.
  { intros x Hx. rewrite (last_vertex_removelast _ _ Ht) in Hx.
    apply In_set_add. apply in_app_iff in Hx as [Hx|[<-|[]]]; auto. }
  intros q g Hq. apply in_app_iff in Hq as [Hq|Hq].
  - destruct (Hs q g (remove_nth_In _ _ _ Hq)) as [Hr [Hnd Hin]].
    repeat split; auto. intros x Hx. apply In_set_add. auto.
  - destruct (Hfrom _ Hq) as [n [w [Hn [Hm [Hc [Hw [= -> ->]]]]]]].
    assert (~ In n (set_add t expanded_set)) as Hout
      by (rewrite <- set_mem_In; congruence).
    repeat split.
    + exists n. apply route_step with (u := t); auto.
      split; auto. exists ns. auto.
    + apply NoDup_app; auto.
      * constructor; [tauto|constructor].
      * intros x Hx [<-|[]]. auto.
    + rewrite removelast_last. exact Hq0.
Qed.

(** A path the loop returns is one of its routes, without repetition. *)
Lemma search_loop_sound (fuel : nat) :
  forall agenda expanded_set p,
    sound agenda expanded_set ->
    search_loop fuel agenda expanded_set = Some (Ok (Some p)) ->
    (exists g, route (edge neighbors cost) start p goal g) /\ NoDup p.
Proof.
  induction fuel as [|fuel IH]; intros agenda expanded_set p Hs; simpl;
    [discriminate|].
  destruct agenda as [|e0 agenda0] eqn:Eag; [discriminate|].
  rewrite <- Eag in *. clear Eag e0 agenda0.
  destruct (find_min great_circle_distance goal aux_structures heuristic
              agenda 0 None 0) as [i|]; [|discriminate].
  destruct (nth_error agenda i) as [[q0 g0]|] eqn:Hnth; [|discriminate].
  simpl. destruct (last_vertex q0) as [t|] eqn:Ht; [|discriminate].
  destruct (set_mem t expanded_set).
  - apply IH. now apply agenda_sound_discard.
  - destruct (Z.eqb t goal) eqn:Hg.
    + apply Z.eqb_eq in Hg. subst t. intros [= <-].
      destruct (Hs q0 g0 (nth_error_In _ _ Hnth)) as [[t' Hr] [Hnd _]].
      pose proof (route_last _ _ _ _ _ Hr).
      assert (t' = goal) as -> by congruence. eauto.
    + destruct (neighbors t) as [ns|] eqn:Hns; [|discriminate].
      destruct (expand cost t (q0, g0) (set_add t expanded_set) ns
                  (remove_nth i agenda)) as [agenda2|] eqn:Hexp;
        [|discriminate].
      apply IH. eapply agenda_sound_expand; eauto.
Qed.

Lemma agenda_sound_init : sound [([start], 0%Q)] [].
Proof.
  intros q g [[= <- <-]|[]]. repeat split.
  - exists start. constructor.
  - constructor; [tauto|constructor].
  - intros x [].
Qed.
End Soundness.

(** X1.  A path returned by the search begins at [start], ends at [goal],
    repeats no vertex, and each of its steps goes to a neighbour of the
    vertex before it at a cost that the cost function computes and that is
    not zero.  Nothing is assumed about the costs or the heuristic. *)
Theorem returned_path_is_simple_route
    (great_circle_distance : loc -> loc -> Q) (fuel : nat) (start goal : Z)
    (neighbors : Z -> result (list Z)) (cost : Z -> Z -> result (option Q))
    (aux : structure) (heuristic : bool) (p : list Z) :
  uniform_cost_search great_circle_distance fuel start goal neighbors cost
    aux heuristic = Some (Ok (Some p)) ->
  (exists r, p = start :: r) /\
  last_vertex p = Ok goal /\
  NoDup p /\
  (forall a b, adjacent a b p ->
     exists ns w, neighbors a = Ok ns /\ In b ns /\
                  cost a b = Ok (Some w) /\ ~ (w == 0)%Q).
Proof.
  intros H.
  apply search_loop_sound with (start := start) in H as [[g Hr] Hnd];
    [|apply agenda_sound_init].
  repeat split; auto.
  - eapply route_head; eauto.
  - eapply route_last; eauto.
  - intros a b Hab.
    destruct (route_adjacent _ _ _ _ _ Hr a b Hab)
      as [w [[ns [Hns [Hb Hc]]] Hw]].
    exists ns, w. repeat split; auto. now apply Qtruthy_spec.
Qed.

Lemma returned_path_is_simple_route_witness :
  NoDup [1; 2; 3; 4; 5] /\
  exists ns w,
    aux_neighbors Sample.detour 2 = Ok ns /\ In 3 ns /\
    fast_cost Sample.line_distance Sample.detour 2 3 = Ok (Some w) /\
    ~ (w == 0)%Q.
Proof.
  destruct (returned_path_is_simple_route Sample.line_distance 20 1 5
              (aux_neighbors Sample.detour)
              (fast_cost Sample.line_distance Sample.detour)
              Sample.detour false [1; 2; 3; 4; 5] eq_refl)
    as [_ [_ [Hnd Hstep]]].
  split; [exact Hnd|]. apply Hstep. exists [1], [4; 5]. reflexivity.
Defined.

Section Reachability.
Variable great_circle_distance : loc -> loc -> Q.
Variable start goal : Z.
Variable neighbors : Z -> result (list Z).
Variable cost : Z -> Z -> result (option Q).
Variable aux_structures : structure.
Variable heuristic : bool.

Local Abbreviation search_loop :=
  (search_loop great_circle_distance goal neighbors cost aux_structures
     heuristic).
Local Abbreviation frontier := (frontier_inv neighbors cost start goal).

(** Once the agenda is empty, everything reachable has been expanded. *)
Lemma frontier_empty_reach (expanded_set : list Z) (p : list Z) (x : Z)
    (c : Q) :
  frontier [] expanded_set ->
  route (edge neighbors cost) start p x c -> In x expanded_set.
Proof.
  intros [I3 [I4 _]] Hr. induction Hr as [|p u c v w Hr IH He].
  - destruct I4 as [H|[q [g [[] _]]]]. exact H.
  - destruct (I3 u v w IH He) as [H|[q [g [[] _]]]]. exact H.
Qed.

Lemma frontier_discard (agenda : agenda_t) (expanded_set : list Z)
    (i : nat) (q0 : list Z) (g0 : Q) (t : Z) :
  frontier agenda expanded_set ->
  nth_error agenda i = Some (q0, g0) ->
  last_vertex q0 = Ok t ->
  In t expanded_set ->
  frontier (remove_nth i agenda) expanded_set.
Proof.
  intros [I3 [I4 I5]] Hnth Ht Hin. repeat split; auto.
  - intros u v w Hu He.
    destruct (I3 u v w Hu He) as [Hv|[q [g [Hq Hl]]]]; auto.
    destruct (In_remove_nth _ _ _ _ Hnth Hq) as [[= -> ->]|Hq'].
    + left. congruence.
    + right. eauto.
  - destruct I4 as [Hs|[q [g [Hq Hl]]]]; auto.
    destruct (In_remove_nth _ _ _ _ Hnth Hq) as [[= -> ->]|Hq'].
    + left. congruence.
    + right. eauto.
Qed.

Lemma frontier_expand (agenda agenda2 : agenda_t) (expanded_set : list Z)
    (i : nat) (q0 : list Z) (g0 : Q) (t : Z) (ns : list Z) :
  frontier agenda expanded_set ->
  nth_error agenda i = Some (q0, g0) ->
  last_vertex q0 = Ok t ->
  t <> goal ->
  neighbors t = Ok ns ->
  expand cost t (q0, g0) (set_add t expanded_set) ns (remove_nth i agenda)
    = Ok agenda2 ->
  frontier agenda2 (set_add t expanded_set).
Proof.
  intros [I3 [I4 I5]] Hnth Ht Hg Hns Hexp.
  apply expand_spec in Hexp as [pushed [-> [_ [_ Hto]]]]. simpl in Hto.
  assert (forall v q g, In (q, g) agenda -> last_vertex q = Ok v ->
            In v (set_add t expanded_set) \/
            exists q' g', In (q', g') (remove_nth i agenda ++ pushed) /\
                          last_vertex q' = Ok v) as Hkeep.
  { intros v q g Hq Hl.
    destruct (In_remove_nth _ _ _ _ Hnth Hq) as [[= -> ->]|Hq'].
    - left. apply In_set_add. left. congruence.
    - right. exists q, g. split; auto. apply in_app_iff. auto. }
  repeat split.
  - intros u v w Hu He.
    destruct (in_dec Z.eq_dec v (set_add t expanded_set)) as [Hv|Hv]; auto.
    apply In_set_add in Hu as [->|Hu].
    + right. destruct He as [[ns' [Hns' [Hv' Hc]]] Hw].
      rewrite Hns in Hns'. injection Hns' as <-.
      exists (q0 ++ [v]), (g0 + w)%Q. split; [|apply last_vertex_snoc].
      apply in_app_iff. right. apply Hto; auto.
      rewrite <- not_true_iff_false, set_mem_In. exact Hv.
    + destruct (I3 u v w Hu He) as [Hv'|[q [g [Hq Hl]]]]; eauto.
      left. apply In_set_add. auto.
  - destruct I4 as [Hs|[q [g [Hq Hl]]]]; eauto.
    left. apply In_set_add. auto.
  - intros Hin. apply In_set_add in Hin as [Hin|Hin]; auto.
Qed.

(** If the loop answers [None], no route leads to the goal. *)
Lemma search_loop_not_found (fuel : nat) :
  forall agenda expanded_set,
    frontier agenda expanded_set ->
    search_loop fuel agenda expanded_set = Some (Ok None) ->
    forall p c, ~ route (edge neighbors cost) start p goal c.
Proof.
  induction fuel as [|fuel IH]; intros agenda expanded_set Hf; simpl;
    [discriminate|].
  destruct agenda as [|e0 agenda0] eqn:Eag.
  { intros _ p c Hr. destruct Hf as [I3 [I4 I5]]. apply I5.
    eapply frontier_empty_reach; eauto. repeat split; auto. }
  rewrite <- Eag in *. clear Eag e0 agenda0.
  destruct (find_min great_circle_distance goal aux_structures heuristic
              agenda 0 None 0) as [i|]; [|discriminate].
  destruct (nth_error agenda i) as [[q0 g0]|] eqn:Hnth; [|discriminate].
  simpl. destruct (last_vertex q0) as [t|] eqn:Ht; [|discriminate].
  destruct (set_mem t expanded_set) eqn:Hm.
  - apply IH. apply set_mem_In in Hm. eapply frontier_discard; eauto.
  - destruct (Z.eqb t goal) eqn:Hg; [discriminate|].
    apply Z.eqb_neq in Hg.
    destruct (neighbors t) as [ns|] eqn:Hns; [|discriminate].
    destruct (expand cost t (q0, g0) (set_add t expanded_set) ns
                (remove_nth i agenda)) as [agenda2|] eqn:Hexp;
      [|discriminate].
    apply IH. eapply frontier_expand; eauto.
Qed.

Lemma frontier_init : frontier [([start], 0%Q)] [].
Proof.
  repeat split.
  - intros u v w [].
  - right. exists [start], 0%Q. split; simpl; auto.
  - intros [].
Qed.
End Reachability.

(** X2.  The search answers not-found only when the goal cannot be reached:
    if it returns [None], no sequence of vertices leads from [start] to
    [goal] along neighbours whose cost is computable and not zero. *)
Theorem not_found_means_unreachable
    (great_circle_distance : loc -> loc -> Q) (fuel : nat) (start goal : Z)
    (neighbors : Z -> result (list Z)) (cost : Z -> Z -> result (option Q))
    (aux : structure) (heuristic : bool) :
  uniform_cost_search great_circle_distance fuel start goal neighbors cost
    aux heuristic = Some (Ok None) ->
  ~ exists p c, route (edge neighbors cost) start p goal c.
Proof.
  intros H [p [c Hr]].
  eapply search_loop_not_found in H; eauto.
  apply frontier_init.
Qed.

Lemma not_found_means_unreachable_witness :
  uniform_cost_search Sample.line_distance 20 5 1
    (aux_neighbors Sample.detour)
    (fast_cost Sample.line_distance Sample.detour) Sample.detour false
  = Some (Ok None) /\
  ~ exists p c,
      route (edge (aux_neighbors Sample.detour)
               (fast_cost Sample.line_distance Sample.detour)) 5 p 1 c.
Proof.
  split; [reflexivity|].
  apply (not_found_means_unreachable Sample.line_distance 20 5 1
           (aux_neighbors Sample.detour)
           (fast_cost Sample.line_distance Sample.detour)
           Sample.detour false).
  reflexivity.
Defined.

(** X3.  When start and goal are the same vertex the search returns the
    one-vertex path on its first iteration, without asking for neighbours or
    costs; with the heuristic it first computes the heuristic of that vertex
    and raises what that computation raises. *)
Theorem search_from_goal
    (great_circle_distance : loc -> loc -> Q) (fuel : nat) (s : Z)
    (neighbors : Z -> result (list Z)) (cost : Z -> Z -> result (option Q))
    (aux : structure) (heuristic : bool) :
  uniform_cost_search great_circle_distance (S fuel) s s neighbors cost aux
    heuristic =
  match hval great_circle_distance s aux heuristic s with
  | Ok _ => Some (Ok (Some [s]))
  | Raise e => Some (Raise e)
  end.
Proof.
  unfold uniform_cost_search, hval. simpl. unfold priority. simpl.
  destruct heuristic; simpl.
  - destruct (get_lat_lon s aux) as [a|]; simpl; auto.
    destruct (gcd_call great_circle_distance a a); simpl; auto.
    now rewrite Z.eqb_refl.
  - now rewrite Z.eqb_refl.
Qed.


(** ** Missing coordinates, zero costs and node id 0 *)

Lemma build_gap :
  build_auxiliary_structures Sample.gap_nodes [Sample.main_street]
  = Ok Sample.gap.
Proof. reflexivity. Qed.

Lemma build_sink :
  build_auxiliary_structures Sample.sink_nodes Sample.sink_ways
  = Ok Sample.sink.
Proof. reflexivity. Qed.

Lemma build_twins :
  build_auxiliary_structures Sample.twin_nodes [Sample.twin_way]
  = Ok Sample.twins.
Proof. reflexivity. Qed.

Lemma build_zero_town :
  build_auxiliary_structures Sample.zero_nodes [Sample.zero_way]
  = Ok Sample.zero_town.
Proof. reflexivity. Qed.

(** A node without any entry has no coordinate, and both cost functions
    then report that no cost is available. *)
Lemma get_lat_lon_absent (aux : structure) (v : Z) :
  dict_get Z.eqb v (entries aux) = None -> get_lat_lon v aux = Ok None.
Proof. intros H. unfold get_lat_lon. now rewrite H. Qed.

Lemma short_cost_absent_neighbor (great_circle_distance : loc -> loc -> Q)
    (aux : structure) (u v : Z) (a : option loc) :
  get_lat_lon u aux = Ok a ->
  dict_get Z.eqb v (entries aux) = None ->
  short_cost great_circle_distance aux u v = Ok None.
Proof.
  intros Hu Hv. unfold short_cost, get_lat_lon in *. rewrite Hu, Hv. simpl.
  now destruct a.
Qed.

(** A node that has an entry without coordinates makes [get_lat_lon], and
    with it both cost functions, raise. *)
Lemma get_lat_lon_entry_without_lat (aux : structure) (v : Z) (e : entry) :
  dict_get Z.eqb v (entries aux) = Some e -> lat e = None ->
  get_lat_lon v aux = Raise KeyError.
Proof. intros H Hl. unfold get_lat_lon. now rewrite H, Hl. Qed.

Lemma cost_neighbor_without_lat (great_circle_distance : loc -> loc -> Q)
    (aux : structure) (u v : Z) (a : option loc) (e : entry) :
  get_lat_lon u aux = Ok a ->
  dict_get Z.eqb v (entries aux) = Some e -> lat e = None ->
  short_cost great_circle_distance aux u v = Raise KeyError /\
  fast_cost great_circle_distance aux u v = Raise KeyError.
Proof.
  intros Hu Hv Hl. unfold short_cost, fast_cost.
  rewrite Hu, (get_lat_lon_entry_without_lat _ _ _ Hv Hl). auto.
Qed.

(** C2 at a failing input.  [main_street] runs through nodes 1, 2, 3 and the
    node stream has no record for node 2.  Construction succeeds, but node 2
    has an entry (its adjacency) without coordinates, and every search that
    asks for the cost of the edge into it raises [KeyError]. *)
Theorem missing_coordinate_raises :
  build_auxiliary_structures Sample.gap_nodes [Sample.main_street]
    = Ok Sample.gap /\
  (forall great_circle_distance,
     short_cost great_circle_distance Sample.gap 1 2 = Raise KeyError /\
     fast_cost great_circle_distance Sample.gap 1 2 = Raise KeyError) /\
  (forall great_circle_distance fuel,
     find_short_path_nodes great_circle_distance (S fuel) Sample.gap 1 3
     = Some (Raise KeyError)) /\
  (forall fuel,
     find_short_path Sample.line_distance (S fuel) Sample.gap
       (0, 0)%Q (2, 0)%Q = Some (Raise KeyError)) /\
  (forall fuel,
     find_fast_path Sample.line_distance (S fuel) Sample.gap
       (0, 0)%Q (2, 0)%Q = Some (Raise KeyError)).
Proof.
  split; [reflexivity|]. split; [intros gcd; split; reflexivity|].
  split; [intros gcd fuel; reflexivity|].
  split; intros fuel; reflexivity.
Qed.

(** The neighbouring case the code does handle: node 4 is the end of a
    one-way road and has no record, hence no entry at all; its edge is
    skipped and the query is answered. *)
Lemma missing_sink_is_skipped :
  build_auxiliary_structures Sample.sink_nodes Sample.sink_ways
    = Ok Sample.sink /\
  edge_weight (entries Sample.sink) 1 4 = Some (VInt 35) /\
  short_cost Sample.line_distance Sample.sink 1 4 = Ok None /\
  fast_cost Sample.line_distance Sample.sink 1 4 = Ok None /\
  find_short_path Sample.line_distance 10 Sample.sink (0, 0)%Q (2, 0)%Q
    = Some (Ok (Some [(0, 0); (1, 0); (2, 0)]%Q)) /\
  find_fast_path Sample.line_distance 10 Sample.sink (0, 0)%Q (2, 0)%Q
    = Some (Ok (Some [(0, 0); (1, 0); (2, 0)]%Q)).
Proof. repeat split; reflexivity. Qed.

(** C3 at a failing input.  Nodes 2 and 3 of [twins] have the same
    coordinates, so the edge between them has the computable cost 0.  The
    expansion of node 2 drops neighbour 3 although it is not expanded, and
    the query from node 1 to node 4 finds no path along the street. *)
Theorem zero_cost_neighbor_skipped :
  short_cost Sample.line_distance Sample.twins 2 3 = Ok (Some 0%Q) /\
  set_mem 3 [1; 2] = false /\
  expand (short_cost Sample.line_distance Sample.twins) 2 ([1; 2], 1%Q)
    [1; 2] [3; 1] [] = Ok [] /\
  (forall fuel,
     find_short_path Sample.line_distance (3 + fuel) Sample.twins
       (0, 0)%Q (2, 0)%Q = Some (Ok None)) /\
  (forall fuel,
     find_fast_path Sample.line_distance (3 + fuel) Sample.twins
       (0, 0)%Q (2, 0)%Q = Some (Ok None)).
Proof. repeat split; intros; reflexivity. Qed.

(** What the expansion pushes, in general: a neighbour is pushed exactly
    when it is not expanded and its cost is neither [None] nor zero. *)
Lemma expand_pushes_truthy_costs (cost : Z -> Z -> result (option Q))
    (t : Z) (path : list Z * Q) (exp ns : list Z) (agenda agenda' : agenda_t)
    (n : Z) :
  expand cost t path exp ns agenda = Ok agenda' ->
  In n ns -> set_mem n exp = false ->
  (forall q, cost t n = Ok (Some q) -> Qtruthy q = true ->
     In (fst path ++ [n], (snd path + q)%Q) agenda') /\
  (forall q, cost t n = Ok (Some q) -> (q == 0)%Q ->
     forall e, In e agenda' -> fst e = fst path ++ [n] -> In e agenda) /\
  (cost t n = Ok None ->
     forall e, In e agenda' -> fst e = fst path ++ [n] -> In e agenda).
Proof.
  intros H Hn Hm.
  apply expand_spec in H as [pushed [-> [_ [Hfrom Hto]]]].
  assert (forall e, In e (agenda ++ pushed) -> fst e = fst path ++ [n] ->
            In e agenda \/ exists q, cost t n = Ok (Some q) /\
                                     Qtruthy q = true) as Hcase.
  { intros e He Hfst. apply in_app_iff in He as [He|He]; auto.
    right. destruct (Hfrom e He) as [n' [q [_ [_ [Hc [Hq ->]]]]]].
    simpl in Hfst. apply app_inj_tail in Hfst as [_ ->]. eauto. }
  repeat split.
  - intros q Hc Hq. apply in_app_iff. right. eauto.
  - intros q Hc H0 e He Hfst.
    destruct (Hcase e He Hfst) as [|[q' [Hc' Hq']]]; auto.
    rewrite Hc in Hc'. injection Hc' as <-.
    apply Qtruthy_spec in Hq'. contradiction.
  - intros Hc e He Hfst.
    destruct (Hcase e He Hfst) as [|[q' [Hc' Hq']]]; auto. congruence.
Qed.

(** ** The path assemblers *)

Lemma nearest_fold_some (great_circle_distance : loc -> loc -> Q)
    (l0 : loc) (ls : list (loc * Z)) (d : Q) (z : Z) :
  exists d' z',
    fold_left (nearest_step great_circle_distance l0) ls (Some d, Some z)
    = (Some d', Some z').
Proof.
  revert d z. induction ls as [|kv ls IH]; intros d z; simpl; eauto.
  unfold nearest_step at 2. simpl.
  destruct (Qltb (great_circle_distance l0 (fst kv)) d); apply IH.
Qed.

(** X20.  The nearest-node scan answers [None] exactly when the coordinate
    index is empty, whatever the query point and the distances are. *)
Lemma get_nearest_node_id_none (great_circle_distance : loc -> loc -> Q)
    (l0 : loc) (aux : structure) :
  get_nearest_node_id great_circle_distance l0 aux = None <->
  locations aux = [].
Proof.
  unfold get_nearest_node_id. destruct (locations aux) as [|kv ls]; simpl.
  - tauto.
  - unfold nearest_step at 2. simpl.
    destruct (nearest_fold_some great_circle_distance l0 ls
                (great_circle_distance l0 (fst kv)) (snd kv))
      as [d' [z' ->]].
    simpl. split; discriminate.
Qed.

(** The three outcomes of a path assembler, for resolved ids other than 0. *)
Lemma find_path_cases (great_circle_distance : loc -> loc -> Q)
    (cost : structure -> Z -> Z -> result (option Q)) (heuristic : bool)
    (fuel : nat) (aux : structure) (loc1 loc2 : loc) :
  let n1 := get_nearest_node_id great_circle_distance loc1 aux in
  let n2 := get_nearest_node_id great_circle_distance loc2 aux in
  let found := find_path great_circle_distance cost heuristic fuel aux
                 loc1 loc2 in
  (n1 = None \/ n2 = None -> found = Some (Ok None)) /\
  (forall a, n1 = Some a -> n2 = Some a -> a <> 0 ->
     found = Some (c <- coord_of aux a ;; Ok (Some [c]))) /\
  (forall a b, n1 = Some a -> n2 = Some b -> a <> 0 -> b <> 0 -> a <> b ->
     found =
     match uniform_cost_search great_circle_distance fuel a b
             (aux_neighbors aux) (cost aux) aux heuristic with
     | None => None
     | Some (Raise e) => Some (Raise e)
     | Some (Ok nodes_path) =>
         Some (convert_nodes_path_to_loc_path nodes_path aux)
     end).
Proof.
  intros n1 n2 found. subst found. unfold find_path. fold n1. fold n2.
  repeat split.
  - intros [->| ->]; simpl; auto. now rewrite orb_true_r.
  - intros a -> -> Ha. simpl.
    apply Z.eqb_neq in Ha. rewrite Ha. simpl. now rewrite Z.eqb_refl.
  - intros a b -> -> Ha Hb Hab. simpl.
    apply Z.eqb_neq in Ha, Hb, Hab. now rewrite Ha, Hb, Hab.
Qed.

(** A resolved id 0 is taken for an unresolved coordinate. *)
Lemma find_path_zero_id (great_circle_distance : loc -> loc -> Q)
    (cost : structure -> Z -> Z -> result (option Q)) (heuristic : bool)
    (fuel : nat) (aux : structure) (loc1 loc2 : loc) :
  get_nearest_node_id great_circle_distance loc1 aux = Some 0 \/
  get_nearest_node_id great_circle_distance loc2 aux = Some 0 ->
  find_path great_circle_distance cost heuristic fuel aux loc1 loc2
  = Some (Ok None).
Proof.
  unfold find_path. intros [-> | ->]; simpl; auto. now rewrite orb_true_r.
Qed.

(** The way pass writes no edge out of node 0. *)
Lemma build_no_edge_from_zero (nodes : list node) (ways : list way)
    (g : structure) :
  build_auxiliary_structures nodes ways = Ok g ->
  pairs_within (fun u _ => u <> 0) (entries g).
Proof.
  intros Hb. destruct (build_inv _ _ _ Hb) as [st [Hst ->]].
  apply node_pass_pairs. simpl.
  apply (pairs_within_process_ways _ ways) with (st := ([], [])); auto.
  intros u e v s [].
Qed.

(** C4 at a failing input.  In [zero_town] the coordinate [(0, 0)] resolves
    to node 0 and [(2, 0)] to node 2.  A query from [(0, 0)] to [(0, 0)]
    answers not-found, not the single point of node 0; a query from [(2, 0)]
    to [(0, 0)] answers not-found without running the search (no fuel is
    used), although the search would return the path 2, 1, 0. *)
Theorem zero_id_query_not_found :
  get_nearest_node_id Sample.line_distance (0, 0)%Q Sample.zero_town
    = Some 0 /\
  get_nearest_node_id Sample.line_distance (2, 0)%Q Sample.zero_town
    = Some 2 /\
  coord_of Sample.zero_town 0 = Ok (0, 0)%Q /\
  (forall fuel,
     find_short_path Sample.line_distance fuel Sample.zero_town
       (0, 0)%Q (0, 0)%Q = Some (Ok None) /\
     find_fast_path Sample.line_distance fuel Sample.zero_town
       (0, 0)%Q (0, 0)%Q = Some (Ok None)) /\
  (forall fuel,
     find_short_path Sample.line_distance fuel Sample.zero_town
       (2, 0)%Q (0, 0)%Q = Some (Ok None) /\
     find_fast_path Sample.line_distance fuel Sample.zero_town
       (2, 0)%Q (0, 0)%Q = Some (Ok None)) /\
  uniform_cost_search Sample.line_distance 10 2 0
    (aux_neighbors Sample.zero_town)
    (short_cost Sample.line_distance Sample.zero_town) Sample.zero_town true
  = Some (Ok (Some [2; 1; 0])) /\
  uniform_cost_search Sample.line_distance 10 2 0
    (aux_neighbors Sample.zero_town)
    (fast_cost Sample.line_distance Sample.zero_town) Sample.zero_town false
  = Some (Ok (Some [2; 1; 0])).
Proof.
  repeat split; try reflexivity;
    apply find_path_zero_id; right; reflexivity.
Qed.

(** C10.  A coordinate that resolves to node id 0 makes both path
    assemblers answer not-found, whatever the fuel, hence without running
    the search; and no built graph has an edge out of node 0.  Both happen
    in [zero_town], a graph with three indexed nodes, one of them node 0:
    the street 0, 1, 2 is two-way, yet only the edge 1 -> 0 exists. *)
Theorem zero_id_is_falsy :
  (forall great_circle_distance fuel aux loc1 loc2,
     get_nearest_node_id great_circle_distance loc1 aux = Some 0 \/
     get_nearest_node_id great_circle_distance loc2 aux = Some 0 ->
     find_short_path great_circle_distance fuel aux loc1 loc2
       = Some (Ok None) /\
     find_fast_path great_circle_distance fuel aux loc1 loc2
       = Some (Ok None)) /\
  (forall nodes ways g,
     build_auxiliary_structures nodes ways = Ok g ->
     (forall v, edge_weight (entries g) 0 v = None) /\
     (forall e, In (0, e) (entries g) -> connected e = [])) /\
  (build_auxiliary_structures Sample.zero_nodes [Sample.zero_way]
     = Ok Sample.zero_town /\
   In 0 (map snd (locations Sample.zero_town)) /\
   get_nearest_node_id Sample.line_distance (0, 0)%Q Sample.zero_town
     = Some 0 /\
   accepted Sample.zero_way = true /\
   is_oneway Sample.zero_way = false /\
   adjacent 0 1 (way_nodes Sample.zero_way) /\
   edge_weight (entries Sample.zero_town) 0 1 = None /\
   edge_weight (entries Sample.zero_town) 1 0 = Some (VInt 25)).
Proof.
  split; [|split].
  - intros gcd fuel aux loc1 loc2 H.
    split; apply find_path_zero_id; exact H.
  - intros nodes ways g Hb.
    pose proof (build_no_edge_from_zero _ _ _ Hb) as Hz.
    assert (forall e, In (0, e) (entries g) -> connected e = []) as He.
    { intros e Hin. destruct (connected e) as [|[v s] r] eqn:E; auto.
      destruct (Hz 0 e v s Hin); auto. rewrite E. now left. }
    split; auto. intros v. unfold edge_weight.
    destruct (dict_get Z.eqb 0 (entries g)) as [e|] eqn:E; auto.
    apply dict_get_In in E. now rewrite (He e E).
  - repeat split; try reflexivity.
    + simpl. auto.
    + exists [], [2]. reflexivity.
Qed.

Lemma zero_id_is_falsy_witness :
  find_short_path Sample.line_distance 0 Sample.zero_town (2, 0)%Q (0, 0)%Q
    = Some (Ok None) /\
  find_fast_path Sample.line_distance 0 Sample.zero_town (2, 0)%Q (0, 0)%Q
    = Some (Ok None) /\
  edge_weight (entries Sample.zero_town) 0 1 = None.
Proof.
  destruct zero_id_is_falsy as [Hq [Hb _]].
  destruct (Hq Sample.line_distance O Sample.zero_town (2, 0)%Q (0, 0)%Q)
    as [Hs Hf]; [right; reflexivity|].
  destruct (Hb Sample.zero_nodes [Sample.zero_way] Sample.zero_town eq_refl)
    as [He _].
  repeat split; auto.
Defined.

(** ** The nearest-node scan and the conversion of paths *)

Lemma nearest_fold_spec (great_circle_distance : loc -> loc -> Q)
    (l0 : loc) (ls : list (loc * Z)) :
  forall d z d' z',
    fold_left (nearest_step great_circle_distance l0) ls (Some d, Some z)
    = (Some d', Some z') ->
    (d' = d /\ z' = z /\
     forall kv, In kv ls -> (d <= great_circle_distance l0 (fst kv))%Q) \/
    (exists rest1 l rest2,
       ls = rest1 ++ (l, z') :: rest2 /\
       d' = great_circle_distance l0 l /\ (d' < d)%Q /\
       (forall kv, In kv rest1 ->
                   (d' < great_circle_distance l0 (fst kv))%Q) /\
       (forall kv, In kv rest2 ->
                   (d' <= great_circle_distance l0 (fst kv))%Q)).
Proof.
  induction ls as [|[l n] ls IH]; intros d z d' z'; simpl.
  - intros [= <- <-]. left. repeat split; auto. intros kv [].
  - unfold nearest_step at 2. simpl.
    destruct (Qltb (great_circle_distance l0 l) d) eqn:E.
    + apply Qltb_lt in E. intros H.
      destruct (IH _ _ _ _ H)
        as [[-> [-> Hall]]|[r1 [l' [r2 [-> [-> [Hlt [H1 H2]]]]]]]].
      * right. exists [], l, ls. repeat split; auto. intros kv [].
      * right. exists ((l, n) :: r1), l', r2. repeat split; auto.
        -- lra.
        -- intros kv [<-|Hkv]; simpl; auto.
    + apply Qltb_ge in E. intros H.
      destruct (IH _ _ _ _ H)
        as [[-> [-> Hall]]|[r1 [l' [r2 [-> [-> [Hlt [H1 H2]]]]]]]].
      * left. repeat split; auto. intros kv [<-|Hkv]; simpl; auto.
      * right. exists ((l, n) :: r1), l', r2. repeat split; auto.
        intros kv [<-|Hkv]; simpl; auto. lra.
Qed.

(** X4.  The nearest-node scan returns the id stored with the first
    coordinate of least distance to the query: every coordinate before it in
    the index is strictly farther, none after it is nearer. *)
Theorem get_nearest_node_id_first_minimum
    (great_circle_distance : loc -> loc -> Q) (l0 : loc) (aux : structure)
    (n : Z) :
  get_nearest_node_id great_circle_distance l0 aux = Some n ->
  exists rest1 l rest2,
    locations aux = rest1 ++ (l, n) :: rest2 /\
    (forall kv, In kv rest1 ->
       (great_circle_distance l0 l < great_circle_distance l0 (fst kv))%Q) /\
    (forall kv, In kv rest2 ->
       (great_circle_distance l0 l <= great_circle_distance l0 (fst kv))%Q).
Proof.
  unfold get_nearest_node_id.
  destruct (locations aux) as [|[l z] ls]; simpl; [discriminate|].
  unfold nearest_step at 2. simpl.
  destruct (nearest_fold_some great_circle_distance l0 ls
              (great_circle_distance l0 l) z) as [d' [z' E]].
  rewrite E. simpl. intros [= ->].
  destruct (nearest_fold_spec _ _ _ _ _ _ _ E)
    as [[-> [-> Hall]]|[r1 [l' [r2 [-> [-> [Hlt [H1 H2]]]]]]]].
  - exists [], l, ls. repeat split; auto. intros kv [].
  - exists ((l, z) :: r1), l', r2. repeat split; auto.
    intros kv [<-|Hkv]; simpl; auto.
Qed.

Lemma get_nearest_node_id_first_minimum_witness :
  exists rest1 l rest2,
    locations Sample.town = rest1 ++ (l, 3) :: rest2 /\
    (forall kv, In kv rest1 ->
       (Sample.line_distance (2, 1)%Q l
        < Sample.line_distance (2, 1)%Q (fst kv))%Q) /\
    (forall kv, In kv rest2 ->
       (Sample.line_distance (2, 1)%Q l
        <= Sample.line_distance (2, 1)%Q (fst kv))%Q).
Proof.
  apply (get_nearest_node_id_first_minimum Sample.line_distance (2, 1)%Q
           Sample.town 3).
  reflexivity.
Defined.

Lemma coord_of_get_lat_lon (aux : structure) (n : Z) (c : loc) :
  coord_of aux n = Ok c <-> get_lat_lon n aux = Ok (Some c).
Proof.
  unfold coord_of, get_lat_lon.
  destruct (dict_get Z.eqb n (entries aux)) as [e|].
  - destruct (lat e), (lon e); split; intros H; try discriminate;
      injection H as <-; reflexivity.
  - split; discriminate.
Qed.

Lemma coord_of_raises (aux : structure) (n : Z) (e : exn) :
  coord_of aux n = Raise e -> e = KeyError.
Proof.
  unfold coord_of. destruct (dict_get Z.eqb n (entries aux)) as [x|].
  - destruct (lat x), (lon x); intros H; try discriminate;
      now injection H.
  - intros H. now injection H.
Qed.

Lemma coords_of_spec (aux : structure) (ns : list Z) (cs : list loc) :
  coords_of aux ns = Ok cs <->
  Forall2 (fun n c => get_lat_lon n aux = Ok (Some c)) ns cs.
Proof.
  revert cs. induction ns as [|n ns IH]; intros cs; simpl.
  - split.
    + intros [= <-]. constructor.
    + intros H. inversion H. reflexivity.
  - destruct (coord_of aux n) as [c|] eqn:Ec; simpl.
    + destruct (coords_of aux ns) as [cs'|] eqn:Ecs; simpl.
      * split.
        -- intros [= <-]. constructor; [now apply coord_of_get_lat_lon|].
           now apply IH.
        -- intros H. inversion H as [|n' c' ns' cs'' Hc Hcs]; subst.
           apply coord_of_get_lat_lon in Hc. rewrite Ec in Hc.
           injection Hc as <-. apply IH in Hcs. now injection Hcs as <-.
      * split; [discriminate|].
        intros H. inversion H as [|n' c' ns' cs'' Hc Hcs]; subst.
        apply IH in Hcs. discriminate.
    + split; [discriminate|].
      intros H. inversion H as [|n' c' ns' cs'' Hc Hcs]; subst.
      apply coord_of_get_lat_lon in Hc. rewrite Ec in Hc. discriminate.
Qed.

Lemma coords_of_raises (aux : structure) (ns : list Z) (e : exn) :
  coords_of aux ns = Raise e ->
  e = KeyError /\ exists n, In n ns /\ coord_of aux n = Raise KeyError.
Proof.
  induction ns as [|n ns IH]; simpl; [discriminate|].
  destruct (coord_of aux n) as [c|e'] eqn:Ec; simpl.
  - destruct (coords_of aux ns) as [cs'|e'']; simpl; [discriminate|].
    intros [= <-]. destruct (IH eq_refl) as [-> [m [Hm Hr]]]. eauto.
  - intros [= <-]. pose proof (coord_of_raises _ _ _ Ec) as ->. eauto.
Qed.

(** X5.  The conversion of a node path answers [None] for [None] and for
    the empty path.  For a non-empty path it returns the coordinates of the
    nodes in order, one per node, exactly when every node has coordinates;
    otherwise it raises [KeyError], and some node of the path has no entry
    or an entry without coordinates. *)
Theorem convert_nodes_path_to_loc_path_spec (aux : structure) :
  convert_nodes_path_to_loc_path None aux = Ok None /\
  convert_nodes_path_to_loc_path (Some []) aux = Ok None /\
  (forall n rest r,
     convert_nodes_path_to_loc_path (Some (n :: rest)) aux = Ok r <->
     exists locs, r = Some locs /\
       Forall2 (fun m c => get_lat_lon m aux = Ok (Some c)) (n :: rest) locs)
  /\
  (forall p e,
     convert_nodes_path_to_loc_path (Some p) aux = Raise e ->
     e = KeyError /\
     exists m, In m p /\ forall c, get_lat_lon m aux <> Ok (Some c)).
Proof.
  repeat split.
  - unfold convert_nodes_path_to_loc_path.
    destruct (coords_of aux (n :: rest)) as [cs|] eqn:E; simpl;
      [|discriminate].
    intros [= <-]. exists cs. split; auto. now apply coords_of_spec.
  - intros [locs [-> H]]. apply coords_of_spec in H.
    unfold convert_nodes_path_to_loc_path. now rewrite H.
  - destruct p as [|n rest]; [discriminate|].
    unfold convert_nodes_path_to_loc_path in H.
    destruct (coords_of aux (n :: rest)) as [cs|e'] eqn:E; simpl in H;
      [discriminate|].
    injection H as <-. now destruct (coords_of_raises _ _ _ E).
  - destruct p as [|n rest]; [discriminate|].
    unfold convert_nodes_path_to_loc_path in H.
    destruct (coords_of aux (n :: rest)) as [cs|e'] eqn:E; simpl in H;
      [discriminate|].
    destruct (coords_of_raises _ _ _ E) as [_ [m [Hm Hr]]].
    exists m. split; auto. intros c Hc.
    apply coord_of_get_lat_lon in Hc. congruence.
Qed.

(** ** The built structure as a dictionary *)

Lemma dict_set_keys {K V : Type} (eqb : K -> K -> bool) (k k0 : K)
    (v v0 : V) (d : list (K * V)) :
  In (k, v) (dict_set eqb k0 v0 d) -> k = k0 \/ exists v', In (k, v') d.
Proof.
  induction d as [|[k' v'] d IH]; simpl.
  - intros [[= <- <-]|[]]. auto.
  - destruct (eqb k0 k') eqn:E; simpl.
    + intros [[= <- <-]|H]; eauto.
    + intros [[= <- <-]|H]; eauto.
      destruct (IH H) as [->|[v'' H']]; eauto.
Qed.

Lemma distinct_keys_dict_set {K V : Type} (eqb : K -> K -> bool) (k : K)
    (v : V) (d : list (K * V)) :
  (forall a b, eqb a b = eqb b a) ->
  distinct_keys eqb d -> distinct_keys eqb (dict_set eqb k v d).
Proof.
  intros Hsym. induction d as [|[k' v'] d IH]; simpl.
  - intros _. split; auto. intros k'' v'' [].
  - intros [Hk Hd]. destruct (eqb k k') eqn:E; simpl.
    + split; auto.
    + split; auto. intros k'' v'' Hin.
      apply dict_set_keys in Hin as [->|[v0 Hin]];
        [now rewrite Hsym|eauto].
Qed.

(** In a dictionary, lookup finds every stored item. *)
Lemma distinct_keys_get {V : Type} (k : Z) (v : V) (d : list (Z * V)) :
  distinct_keys Z.eqb d -> In (k, v) d -> dict_get Z.eqb k d = Some v.
Proof.
  induction d as [|[k' v'] d IH]; simpl; [tauto|].
  intros [Hk Hd] [[= -> ->]|Hin].
  - now rewrite Z.eqb_refl.
  - destruct (Z.eqb k k') eqn:E; auto.
    rewrite Z.eqb_sym, (Hk _ _ Hin) in E. discriminate.
Qed.

Lemma well_keyed_add_edge (p n : Z) (s : pyval) (es : list (Z * entry)) :
  well_keyed es -> well_keyed (add_edge p n s es).
Proof.
  intros [Hd Hc]. unfold add_edge.
  destruct (dict_get Z.eqb p es) as [e|] eqn:E; split;
    try (apply distinct_keys_dict_set; auto; apply Z.eqb_sym);
    intros u e' Hin; apply In_dict_set_Z in Hin as [Hin|[-> _]]; eauto;
    simpl.
  - apply distinct_keys_dict_set; [apply Z.eqb_sym|].
    apply dict_get_In in E. eauto.
  - split; auto. intros k' v' [].
Qed.

Lemma well_keyed_walk (s : pyval) (nds : list Z) :
  forall prev st, well_keyed (fst st) ->
                  well_keyed (fst (walk s prev nds st)).
Proof.
  induction nds as [|n nds IH]; intros prev st H; simpl; auto.
  apply IH. simpl. destruct prev as [p|]; auto.
  destruct (id_truthy (Some p)); auto. now apply well_keyed_add_edge.
Qed.

Lemma well_keyed_process_ways (ws : list way) :
  forall st st', process_ways ws st = Ok st' ->
                 well_keyed (fst st) -> well_keyed (fst st').
Proof.
  induction ws as [|w ws IH]; intros st st'; simpl.
  - now intros [= ->].
  - destruct (process_way w st) as [st1|] eqn:E1; simpl; [|discriminate].
    intros H Hst. apply (IH _ _ H).
    unfold process_way in E1. destruct (accepted w).
    + destruct (resolve_speed_limit w) as [s|]; simpl in E1; [|discriminate].
      destruct (is_oneway w); simpl in E1; injection E1 as <-;
        repeat apply well_keyed_walk; auto.
    + now injection E1 as <-.
Qed.

Lemma loc_eqb_sym (a b : loc) : loc_eqb a b = loc_eqb b a.
Proof.
  unfold loc_eqb.
  assert (forall x y, Qeq_bool x y = Qeq_bool y x) as H.
  { intros x y. destruct (Qeq_bool x y) eqn:E, (Qeq_bool y x) eqn:E'; auto.
    - apply Qeq_bool_iff in E. symmetry in E. apply Qeq_bool_iff in E.
      congruence.
    - apply Qeq_bool_iff in E'. symmetry in E'. apply Qeq_bool_iff in E'.
      congruence. }
  now rewrite (H (fst a)), (H (snd a)).
Qed.

Lemma well_keyed_node_pass (cn : list Z) (nodes : list node) :
  forall s, well_keyed (entries s) -> distinct_keys loc_eqb (locations s) ->
  well_keyed (entries (fold_left (process_node cn) nodes s)) /\
  distinct_keys loc_eqb (locations (fold_left (process_node cn) nodes s)).
Proof.
  induction nodes as [|n nodes IH]; intros s He Hl; simpl; auto.
  apply IH; unfold process_node; destruct (set_mem (node_id n) cn); auto;
    simpl.
  - destruct He as [Hd Hc].
    destruct (dict_get Z.eqb (node_id n) (entries s)) as [e|] eqn:E; split;
      try (apply distinct_keys_dict_set; auto; apply Z.eqb_sym);
      intros u e' Hin; apply In_dict_set_Z in Hin as [Hin|[-> _]]; eauto;
      simpl; auto.
    apply dict_get_In in E. eauto.
  - apply distinct_keys_dict_set; auto. apply loc_eqb_sym.
Qed.

(** X6.  The default-speed table has an entry between 10 and 60 for every
    class of the allow-list, so the table lookup cannot fail and graph
    construction never raises, whatever the two record streams hold. *)
Theorem build_never_raises :
  (forall c, In c ALLOWED_HIGHWAY_TYPES ->
     exists z, default_speed (VStr c) = Ok (VInt z) /\ 10 <= z <= 60) /\
  (forall nodes ways,
     exists g, build_auxiliary_structures nodes ways = Ok g).
Proof.
  split; [|exact build_total].
  intros c Hc. simpl in Hc.
  repeat (destruct Hc as [<-|Hc]; [eexists; split; [reflexivity|lia]|]).
  destruct Hc.
Qed.

(** X7.  The built structure is a dictionary of dictionaries: no node id is
    a key twice, no neighbour occurs twice in an adjacency mapping, no two
    keys of the coordinate index are equal as pairs of floats; so looking an
    id or a neighbour up finds exactly what is stored. *)
Theorem built_structure_is_dictionary (nodes : list node) (ways : list way)
    (g : structure) :
  build_auxiliary_structures nodes ways = Ok g ->
  distinct_keys Z.eqb (entries g) /\
  (forall u e, In (u, e) (entries g) -> distinct_keys Z.eqb (connected e)) /\
  distinct_keys loc_eqb (locations g) /\
  (forall u e, In (u, e) (entries g) <->
               dict_get Z.eqb u (entries g) = Some e) /\
  (forall u e v s, In (u, e) (entries g) ->
     (In (v, s) (connected e) <-> edge_weight (entries g) u v = Some s)).
Proof.
  intros Hb. destruct (build_inv _ _ _ Hb) as [st [Hst ->]].
  destruct (well_keyed_node_pass (snd st) nodes (mkStructure (fst st) []))
    as [[Hd Hc] Hl]; simpl; auto.
  { apply (well_keyed_process_ways ways ([], [])); auto.
    split; simpl; auto. intros u e []. }
  repeat split; auto.
  - now apply distinct_keys_get.
  - apply dict_get_In.
  - intros Hv. unfold edge_weight.
    rewrite (distinct_keys_get _ _ _ Hd H). apply distinct_keys_get; eauto.
  - unfold edge_weight. rewrite (distinct_keys_get _ _ _ Hd H).
    apply dict_get_In.
Qed.

Lemma built_structure_is_dictionary_witness :
  distinct_keys loc_eqb (locations Sample.twins) /\
  (In (3, VInt 25) [(3, VInt 25); (1, VInt 25)] <->
   edge_weight (entries Sample.twins) 2 3 = Some (VInt 25)).
Proof.
  destruct (built_structure_is_dictionary Sample.twin_nodes
              [Sample.twin_way] Sample.twins eq_refl)
    as [_ [_ [Hl [_ He]]]].
  split; [exact Hl|].
  apply (He 2 (mkEntry (Some 1%Q) (Some 0%Q) (Some [])
                 [(3, VInt 25); (1, VInt 25)])).
  simpl. auto.
Defined.

(** ** Coordinates and the coordinate index *)

Lemma Qeq_bool_sym (x y : Q) : Qeq_bool x y = Qeq_bool y x.
Proof.
  destruct (Qeq_bool x y) eqn:E, (Qeq_bool y x) eqn:E'; auto.
  - apply Qeq_bool_iff in E. symmetry in E. apply Qeq_bool_iff in E.
    congruence.
  - apply Qeq_bool_iff in E'. symmetry in E'. apply Qeq_bool_iff in E'.
    congruence.
Qed.

Lemma loc_eqb_refl (a : loc) : loc_eqb a a = true.
Proof.
  unfold loc_eqb. apply andb_true_iff. split; apply Qeq_bool_iff, Qeq_refl.
Qed.

Lemma loc_eqb_trans (a b c : loc) :
  loc_eqb a b = true -> loc_eqb b c = true -> loc_eqb a c = true.
Proof.
  unfold loc_eqb. rewrite !andb_true_iff, !Qeq_bool_iff.
  intros [H1 H2] [H3 H4]. split; etransitivity; eauto.
Qed.

(** Lookup after an update, for a key test that is an equivalence. *)
Lemma dict_get_set {K V : Type} (eqb : K -> K -> bool) :
  (forall a, eqb a a = true) ->
  (forall a b, eqb a b = eqb b a) ->
  (forall a b c, eqb a b = true -> eqb b c = true -> eqb a c = true) ->
  forall (k k0 : K) (v : V) (d : list (K * V)),
    dict_get eqb k (dict_set eqb k0 v d) =
    if eqb k k0 then Some v else dict_get eqb k d.
Proof.
  intros Hrefl Hsym Htrans k k0 v d.
  induction d as [|[k' v'] d IH]; simpl.
  - reflexivity.
  - destruct (eqb k0 k') eqn:E0; simpl.
    + destruct (eqb k k0) eqn:E.
      * now rewrite (Htrans _ _ _ E E0).
      * destruct (eqb k k') eqn:E'; auto.
        rewrite Hsym in E0. rewrite (Htrans _ _ _ E' E0) in E. discriminate.
    + rewrite IH. destruct (eqb k k') eqn:E'; auto.
      destruct (eqb k k0) eqn:E; auto.
      rewrite Hsym in E. rewrite (Htrans _ _ _ E E') in E0. discriminate.
Qed.

Lemma last_record_some (x : Z) (nodes : list node) (n : node) :
  In n nodes -> node_id n = x ->
  exists m, last_record x nodes = Some m.
Proof.
  induction nodes as [|n' nodes IH]; simpl; [tauto|].
  intros [->|Hin] Hx.
  - destruct (last_record x nodes); eauto.
    apply Z.eqb_eq in Hx. rewrite Hx. eauto.
  - destruct (IH Hin Hx) as [m ->]. eauto.
Qed.

Lemma last_record_In (x : Z) (nodes : list node) (m : node) :
  last_record x nodes = Some m -> In m nodes /\ node_id m = x.
Proof.
  induction nodes as [|n nodes IH]; simpl; [discriminate|].
  destruct (last_record x nodes) as [m'|].
  - intros [= <-]. destruct (IH eq_refl). auto.
  - destruct (Z.eqb (node_id n) x) eqn:E; [|discriminate].
    intros [= <-]. apply Z.eqb_eq in E. auto.
Qed.

Lemma process_node_get_lat_lon (cn : list Z) (s : structure) (n : node)
    (x : Z) :
  get_lat_lon x (process_node cn s n) =
  if Z.eqb (node_id n) x && set_mem x cn
  then Ok (Some (node_lat n, node_lon n))
  else get_lat_lon x s.
Proof.
  unfold process_node, get_lat_lon.
  destruct (Z.eqb (node_id n) x) eqn:E; simpl.
  - apply Z.eqb_eq in E. subst x.
    destruct (set_mem (node_id n) cn); auto. simpl.
    destruct (dict_get Z.eqb (node_id n) (entries s));
      now rewrite dict_get_set_same.
  - destruct (set_mem (node_id n) cn); auto. simpl.
    assert (x <> node_id n) as Hne
      by (intros ->; now rewrite Z.eqb_refl in E).
    destruct (dict_get Z.eqb (node_id n) (entries s));
      now rewrite dict_get_set_other.
Qed.

(** The coordinates of an id after the node pass are those of its last
    record, when the id is connected and has a record. *)
Lemma node_pass_get_lat_lon (cn : list Z) (nodes : list node) (x : Z) :
  forall s,
    get_lat_lon x (fold_left (process_node cn) nodes s) =
    match last_record x nodes with
    | Some m =>
        if set_mem x cn then Ok (Some (node_lat m, node_lon m))
        else get_lat_lon x s
    | None => get_lat_lon x s
    end.
Proof.
  induction nodes as [|n nodes IH]; intros s; simpl; auto.
  rewrite IH, process_node_get_lat_lon.
  destruct (last_record x nodes) as [m|].
  - destruct (set_mem x cn); auto. now rewrite andb_false_r.
  - destruct (Z.eqb (node_id n) x); simpl; auto.
Qed.

Lemma node_pass_index_origin (cn : list Z) (nodes : list node) :
  forall s l i,
    In (l, i) (locations (fold_left (process_node cn) nodes s)) ->
    In (l, i) (locations s) \/
    exists n, In n nodes /\ node_id n = i /\ set_mem i cn = true /\
              loc_eqb (node_lat n, node_lon n) l = true.
Proof.
  induction nodes as [|n nodes IH]; intros s l i; simpl; auto.
  intros H. apply IH in H as [H|[m [Hm H]]]; [|right; eauto].
  unfold process_node in H.
  destruct (set_mem (node_id n) cn) eqn:Hmem; auto. simpl in H.
  apply In_dict_set in H as [H|[-> [->|E]]]; auto; right; exists n;
    repeat split; auto. apply loc_eqb_refl.
Qed.

Lemma connected_nodes_spec (ways : list way)
    (st : list (Z * entry) * list Z) (x : Z) :
  process_ways ways ([], []) = Ok st ->
  (set_mem x (snd st) = true <-> on_accepted_way ways x).
Proof.
  intros H. rewrite set_mem_In, (process_ways_nodes ways x _ _ H). simpl.
  unfold on_accepted_way. tauto.
Qed.

(** X8.  Every item of the coordinate index maps coordinates equal to those
    of some node record to that record's id; the id occurs in an accepted
    way, and [get_lat_lon] returns for it the coordinates of the last record
    with that id.  So an id found by the nearest-node scan always has
    coordinates. *)
Theorem index_items_have_coordinates (nodes : list node) (ways : list way)
    (g : structure) (l : loc) (i : Z) :
  build_auxiliary_structures nodes ways = Ok g ->
  In (l, i) (locations g) ->
  on_accepted_way ways i /\
  (exists n, In n nodes /\ node_id n = i /\
             loc_eqb (node_lat n, node_lon n) l = true) /\
  (exists m, last_record i nodes = Some m /\
             get_lat_lon i g = Ok (Some (node_lat m, node_lon m))).
Proof.
  intros Hb Hin. destruct (build_inv _ _ _ Hb) as [st [Hst ->]].
  apply node_pass_index_origin in Hin as [[]|[n [Hn [Hi [Hm Hl]]]]].
  split; [|split].
  - now apply (connected_nodes_spec ways st).
  - eauto.
  - destruct (last_record_some i nodes n Hn Hi) as [m Em].
    exists m. split; auto.
    now rewrite node_pass_get_lat_lon, Em, Hm.
Qed.

Lemma index_items_have_coordinates_witness :
  on_accepted_way [Sample.twin_way] 3 /\
  exists m, last_record 3 Sample.twin_nodes = Some m /\
            get_lat_lon 3 Sample.twins
            = Ok (Some (node_lat m, node_lon m)).
Proof.
  destruct (index_items_have_coordinates Sample.twin_nodes
              [Sample.twin_way] Sample.twins (1, 0)%Q 3 eq_refl)
    as [Hw [_ Hm]].
  - simpl. auto.
  - split; [exact Hw|exact Hm].
Defined.

Lemma node_pass_index_lookup (cn : list Z) (nodes : list node) (k : loc) :
  forall s,
    (forall n, In n nodes -> set_mem (node_id n) cn = true ->
               loc_eqb k (node_lat n, node_lon n) = false) ->
    dict_get loc_eqb k (locations (fold_left (process_node cn) nodes s)) =
    dict_get loc_eqb k (locations s).
Proof.
  induction nodes as [|n nodes IH]; intros s Hno; simpl; auto.
  rewrite IH by (intros m Hm; apply Hno; now right).
  unfold process_node. destruct (set_mem (node_id n) cn) eqn:Hm; auto.
  simpl. rewrite (dict_get_set loc_eqb loc_eqb_refl loc_eqb_sym loc_eqb_trans).
  now rewrite (Hno n (or_introl eq_refl) Hm).
Qed.

(** X9.  The coordinate index is last-write-wins: looking up the
    coordinates of a node record whose id occurs in an accepted way returns
    that record's id, unless a later record of the stream, also on an
    accepted way, has equal coordinates. *)
Theorem index_last_write_wins (nodes1 nodes2 : list node) (n : node)
    (ways : list way) (g : structure) :
  build_auxiliary_structures (nodes1 ++ n :: nodes2) ways = Ok g ->
  on_accepted_way ways (node_id n) ->
  (forall m, In m nodes2 -> on_accepted_way ways (node_id m) ->
             loc_eqb (node_lat n, node_lon n) (node_lat m, node_lon m)
             = false) ->
  dict_get loc_eqb (node_lat n, node_lon n) (locations g)
  = Some (node_id n).
Proof.
  intros Hb Hw Hlater. destruct (build_inv _ _ _ Hb) as [st [Hst ->]].
  rewrite fold_left_app. simpl.
  rewrite node_pass_index_lookup.
  - unfold process_node.
    rewrite (proj2 (connected_nodes_spec ways st _ Hst) Hw). simpl.
    rewrite (dict_get_set loc_eqb loc_eqb_refl loc_eqb_sym loc_eqb_trans).
    now rewrite loc_eqb_refl.
  - intros m Hm Hmem. apply Hlater; auto.
    now apply (connected_nodes_spec ways st).
Qed.

Lemma index_last_write_wins_witness :
  dict_get loc_eqb (1, 0)%Q (locations Sample.twins) = Some 3.
Proof.
  apply (index_last_write_wins
           [mkNode 1 0 0 []; mkNode 2 1 0 []] [mkNode 4 2 0 []]
           (mkNode 3 1 0 []) [Sample.twin_way] Sample.twins eq_refl).
  - exists Sample.twin_way. repeat split; simpl; auto 6.
  - intros m [<-|[]] _. reflexivity.
Defined.

(** ** Which edges and which coordinates a built graph has *)

Lemma dict_set_nonempty {K V : Type} (eqb : K -> K -> bool) (k : K) (v : V)
    (d : list (K * V)) :
  dict_set eqb k v d <> [].
Proof.
  destruct d as [|[k' v'] d]; simpl; [discriminate|].
  destruct (eqb k k'); discriminate.
Qed.

Lemma bare_entries_add_edge (p n : Z) (s : pyval) (es : list (Z * entry)) :
  bare_entries es -> bare_entries (add_edge p n s es).
Proof.
  intros H u e Hin. unfold add_edge in Hin.
  destruct (dict_get Z.eqb p es) as [e0|] eqn:E;
    apply In_dict_set_Z in Hin as [Hin|[-> _]]; eauto; simpl.
  - apply dict_get_In in E. destruct (H _ _ E) as [Hl [Ho _]].
    repeat split; auto. apply dict_set_nonempty.
  - repeat split; auto. discriminate.
Qed.

Lemma bare_entries_walk (s : pyval) (nds : list Z) :
  forall prev st, bare_entries (fst st) ->
                  bare_entries (fst (walk s prev nds st)).
Proof.
  induction nds as [|n nds IH]; intros prev st H; simpl; auto.
  apply IH. simpl. destruct prev as [p|]; auto.
  destruct (id_truthy (Some p)); auto. now apply bare_entries_add_edge.
Qed.

Lemma bare_entries_process_ways (ws : list way) :
  forall st st', process_ways ws st = Ok st' ->
                 bare_entries (fst st) -> bare_entries (fst st').
Proof.
  induction ws as [|w ws IH]; intros st st'; simpl.
  - now intros [= ->].
  - destruct (process_way w st) as [st1|] eqn:E1; simpl; [|discriminate].
    intros H Hst. apply (IH _ _ H).
    unfold process_way in E1. destruct (accepted w).
    + destruct (resolve_speed_limit w) as [s|]; simpl in E1; [|discriminate].
      destruct (is_oneway w); simpl in E1; injection E1 as <-;
        repeat apply bare_entries_walk; auto.
    + now injection E1 as <-.
Qed.

(** After the way pass, an id has an entry exactly when an edge leaves it. *)
Lemma bare_entry_iff_edge (es : list (Z * entry)) (u : Z) :
  bare_entries es ->
  (dict_get Z.eqb u es <> None <-> exists v, edge_weight es u v <> None).
Proof.
  intros Hb. unfold edge_weight. split.
  - destruct (dict_get Z.eqb u es) as [e|] eqn:E; [|congruence].
    intros _. destruct (Hb _ _ (dict_get_In _ _ _ E)) as [_ [_ Hc]].
    destruct (connected e) as [|[v s] r]; [congruence|].
    exists v. simpl. rewrite Z.eqb_refl. discriminate.
  - intros [v Hv]. destruct (dict_get Z.eqb u es); congruence.
Qed.

(** The edges the way pass leaves are the written pairs. *)
Lemma process_ways_edge_iff (ways : list way)
    (st : list (Z * entry) * list Z) (u v : Z) :
  process_ways ways ([], []) = Ok st ->
  (edge_weight (fst st) u v <> None <-> written ways u v).
Proof.
  intros Hst. split.
  - destruct (edge_weight (fst st) u v) as [s|] eqn:E; [|congruence].
    intros _.
    destruct (process_ways_origin _ u v s _ _ Hst E)
      as [H0|[w [Hin [Ha [Hh _]]]]]; [discriminate|].
    apply hits_way_steps in Hh as [Hr Hne]. split; eauto.
  - intros [Hne [w [Hin [Ha Hr]]]].
    apply in_split in Hin as [ws1 [ws2 ->]].
    destruct (resolve_speed_limit_accepted w Ha) as [s Hs].
    now destruct (process_ways_recorded _ _ _ _ _ _ u v Hst Ha Hs Hr Hne).
Qed.

(** X10.  The built graph has the directed edge [u -> v] exactly when [u] is
    not 0 and some accepted way has [u, v] as consecutive nodes, or [v, u]
    and is not tagged one-way [yes]. *)
Theorem built_edges_are_written_pairs (nodes : list node) (ways : list way)
    (g : structure) (u v : Z) :
  build_auxiliary_structures nodes ways = Ok g ->
  (edge_weight (entries g) u v <> None <->
   u <> 0 /\
   exists w, In w ways /\ accepted w = true /\
     (adjacent u v (way_nodes w) \/
      (is_oneway w = false /\ adjacent v u (way_nodes w)))).
Proof.
  intros Hb. destruct (build_edge_weight _ _ _ Hb) as [st [Hst Hg]].
  rewrite Hg. apply (process_ways_edge_iff ways st u v Hst).
Qed.

Lemma built_edges_are_written_pairs_witness :
  edge_weight (entries Sample.town) 3 4 <> None /\
  ~ (4 <> 0 /\
     exists w, In w Sample.town_ways /\ accepted w = true /\
       (adjacent 4 3 (way_nodes w) \/
        (is_oneway w = false /\ adjacent 3 4 (way_nodes w)))).
Proof.
  destruct (built_edges_are_written_pairs Sample.town_nodes Sample.town_ways
              Sample.town 4 3 eq_refl) as [_ H].
  split; [discriminate|].
  intros Hw. apply H in Hw. apply Hw. reflexivity.
Defined.

(** X11.  What [get_lat_lon] answers on a built graph.  For an id on an
    accepted way that has a node record it returns the coordinates of the
    last such record.  For an id without record it raises [KeyError] when
    an edge leaves the id, and returns [None] when no edge leaves it.  For
    an id on no accepted way it returns [None]. *)
Theorem get_lat_lon_on_built_graph (nodes : list node) (ways : list way)
    (g : structure) (x : Z) :
  build_auxiliary_structures nodes ways = Ok g ->
  (forall m, on_accepted_way ways x -> last_record x nodes = Some m ->
     get_lat_lon x g = Ok (Some (node_lat m, node_lon m))) /\
  (last_record x nodes = None -> (exists v, written ways x v) ->
     get_lat_lon x g = Raise KeyError) /\
  (last_record x nodes = None -> ~ (exists v, written ways x v) ->
     get_lat_lon x g = Ok None) /\
  (~ on_accepted_way ways x -> get_lat_lon x g = Ok None).
Proof.
  intros Hb. destruct (build_inv _ _ _ Hb) as [st [Hst ->]].
  assert (bare_entries (fst st)) as Hbare.
  { apply (bare_entries_process_ways ways ([], [])); auto. intros u e []. }
  assert ((exists v, written ways x v) ->
          get_lat_lon x (mkStructure (fst st) []) = Raise KeyError) as Hraise.
  { intros [v Hv]. apply (process_ways_edge_iff ways st x v Hst) in Hv.
    assert (dict_get Z.eqb x (fst st) <> None) as Hx
      by (apply bare_entry_iff_edge; eauto).
    unfold get_lat_lon. simpl.
    destruct (dict_get Z.eqb x (fst st)) as [e|] eqn:E; [|congruence].
    destruct (Hbare _ _ (dict_get_In _ _ _ E)) as [-> _]. reflexivity. }
  assert (~ (exists v, written ways x v) ->
          get_lat_lon x (mkStructure (fst st) []) = Ok None) as Hnone.
  { intros Hno. unfold get_lat_lon. simpl.
    destruct (dict_get Z.eqb x (fst st)) as [e|] eqn:E; auto.
    destruct Hno.
    assert (dict_get Z.eqb x (fst st) <> None) as Hx by congruence.
    apply bare_entry_iff_edge in Hx as [v Hv]; auto.
    exists v. now apply (process_ways_edge_iff ways st x v Hst). }
  rewrite node_pass_get_lat_lon. repeat split.
  - intros m Hw ->.
    now rewrite (proj2 (connected_nodes_spec ways st x Hst) Hw).
  - intros ->. exact Hraise.
  - intros ->. exact Hnone.
  - intros Hw.
    assert (set_mem x (snd st) = false) as ->.
    { apply not_true_iff_false. intros H. apply Hw.
      now apply (connected_nodes_spec ways st x Hst). }
    assert (get_lat_lon x (mkStructure (fst st) []) = Ok None) as ->.
    { apply Hnone. intros [v [_ [w [Hin [Ha Hr]]]]]. apply Hw.
      exists w. repeat split; auto. now apply records_In in Hr. }
    now destruct (last_record x nodes).
Qed.

Lemma get_lat_lon_on_built_graph_witness :
  get_lat_lon 3 Sample.gap = Ok (Some (2, 0)%Q) /\
  get_lat_lon 2 Sample.gap = Raise KeyError /\
  get_lat_lon 4 Sample.sink = Ok None.
Proof.
  destruct (get_lat_lon_on_built_graph Sample.gap_nodes
              [Sample.main_street] Sample.gap 3 eq_refl) as [H3 _].
  destruct (get_lat_lon_on_built_graph Sample.gap_nodes
              [Sample.main_street] Sample.gap 2 eq_refl) as [_ [H2 _]].
  destruct (get_lat_lon_on_built_graph Sample.sink_nodes
              Sample.sink_ways Sample.sink 4 eq_refl) as [_ [_ [H4 _]]].
  split; [|split].
  - apply (H3 (mkNode 3 2 0 [])); [|reflexivity].
    exists Sample.main_street. repeat split; simpl; auto.
  - apply H2; [reflexivity|]. exists 3. split; [discriminate|].
    exists Sample.main_street. repeat split; simpl; auto.
    left. exists [1], []. reflexivity.
  - apply H4; [reflexivity|].
    intros [v [_ [w [Hin [Ha Hr]]]]].
    destruct Hin as [<-|[<-|[]]]; destruct Hr as [Hr|[Ho Hr]];
      try discriminate; apply steps_None_adjacent in Hr; simpl in Hr;
      decompose [or] Hr; try discriminate; auto.
Defined.

(** ** Symmetry and speed limits *)

Lemma hits_symmetric (w : way) (u v : Z) :
  is_oneway w = false -> ~ In 0 (way_nodes w) ->
  hits u v (way_steps w) = hits v u (way_steps w).
Proof.
  intros Ho H0.
  assert (forall a b, hits a b (way_steps w) = true ->
                      hits b a (way_steps w) = true) as H.
  { intros a b Hab. apply hits_way_steps in Hab as [Hr _].
    apply hits_way_steps. split.
    - destruct Hr as [Hr|[_ Hr]]; [right|left]; auto.
    - intros ->. apply records_In in Hr. tauto. }
  destruct (hits u v (way_steps w)) eqn:E, (hits v u (way_steps w)) eqn:E';
    auto.
  - apply H in E. congruence.
  - apply H in E'. congruence.
Qed.

Lemma process_ways_symmetric (ws : list way) :
  (forall w, In w ws -> accepted w = true ->
             is_oneway w = false /\ ~ In 0 (way_nodes w)) ->
  forall st st', process_ways ws st = Ok st' ->
    (forall u v, edge_weight (fst st) u v = edge_weight (fst st) v u) ->
    forall u v, edge_weight (fst st') u v = edge_weight (fst st') v u.
Proof.
  induction ws as [|w ws IH]; intros Hall st st'; simpl.
  - now intros [= ->].
  - destruct (process_way w st) as [st1|] eqn:E1; simpl; [|discriminate].
    intros H Hst.
    apply (IH (fun w' Hw' => Hall w' (or_intror Hw')) _ _ H).
    destruct (accepted w) eqn:Ha.
    + destruct (resolve_speed_limit_accepted w Ha) as [s Hs].
      destruct (process_way_accepted w s st Ha Hs) as [st2 [E2 [He _]]].
      rewrite E1 in E2. injection E2 as <-.
      destruct (Hall w (or_introl eq_refl) Ha) as [Ho H0].
      intros u v. now rewrite !He, (hits_symmetric w u v Ho H0), Hst.
    + rewrite process_way_rejected in E1 by assumption.
      now injection E1 as <-.
Qed.

(** X12.  When no accepted way is tagged one-way [yes] and none mentions the
    node id 0, the built graph is symmetric: the edges [u -> v] and [v -> u]
    exist together and carry the same weight. *)
Theorem two_way_graph_is_symmetric (nodes : list node) (ways : list way)
    (g : structure) :
  build_auxiliary_structures nodes ways = Ok g ->
  (forall w, In w ways -> accepted w = true ->
             is_oneway w = false /\ ~ In 0 (way_nodes w)) ->
  forall u v, edge_weight (entries g) u v = edge_weight (entries g) v u.
Proof.
  intros Hb Hall u v. destruct (build_edge_weight _ _ _ Hb) as [st [Hst Hg]].
  rewrite !Hg.
  apply (process_ways_symmetric ways Hall ([], []) st Hst). reflexivity.
Qed.

Lemma two_way_graph_is_symmetric_witness :
  edge_weight (entries Sample.lanes) 1 2
  = edge_weight (entries Sample.lanes) 2 1.
Proof.
  apply (two_way_graph_is_symmetric [] [Sample.lane_10; Sample.lane_20]
           Sample.lanes eq_refl).
  intros w [<-|[<-|[]]] _; split; try reflexivity; simpl; intuition lia.
Defined.



(** ** The two configurations of the search *)

Lemma line_distance_nonneg (a b : loc) : (0 <= Sample.line_distance a b)%Q.
Proof.
  unfold Sample.line_distance.
  pose proof (Qabs_nonneg (fst a - fst b)).
  pose proof (Qabs_nonneg (snd a - snd b)). lra.
Qed.



(** The cost [find_fast_path] computes for an arc is the distance divided by
    the stored weight. *)
Lemma fast_cost_arc (great_circle_distance : loc -> loc -> Q)
    (aux : structure) (u v : Z) (w : Q) :
  fast_cost great_circle_distance aux u v = Ok (Some w) ->
  exists a b z,
    get_lat_lon u aux = Ok (Some a) /\ get_lat_lon v aux = Ok (Some b) /\
    edge_weight (entries aux) u v = Some (VInt z) /\ z <> 0 /\
    w = (great_circle_distance a b / inject_Z z)%Q.
Proof.
  unfold fast_cost, edge_weight.
  destruct (get_lat_lon u aux) as [la|]; simpl; [|discriminate].
  destruct (get_lat_lon v aux) as [lb|]; simpl; [|discriminate].
  destruct (dict_get Z.eqb u (entries aux)) as [e|]; simpl; [|discriminate].
  destruct (dict_get Z.eqb v (connected e)) as [s|]; simpl; [|discriminate].
  destruct la as [a|], lb as [b|]; try discriminate.
  unfold div_speed. destruct s as [t|z]; [discriminate|].
  destruct (Z.leb float_int_limit (Z.abs z)); [discriminate|].
  destruct (Z.eqb_spec z 0); [discriminate|].
  intros [= <-]. exists a, b, z. auto.
Qed.



(** ** get_node_by_id *)

(** X17.  [get_node_by_id] returns the first record of the stream with the
    given id, and [None] exactly when no record has it. *)
Theorem get_node_by_id_first_match (x : Z) (nodes : list node) :
  (forall n, get_node_by_id x nodes = Some n <->
     exists l1 l2, nodes = l1 ++ n :: l2 /\ node_id n = x /\
                   forall m, In m l1 -> node_id m <> x) /\
  (get_node_by_id x nodes = None <->
   forall m, In m nodes -> node_id m <> x).
Proof.
  induction nodes as [|n0 nodes [IHs IHn]]; simpl.
  - split; [|tauto]. intros n. split; [discriminate|].
    intros [[|? ?] [l2 [H _]]]; discriminate.
  - destruct (Z.eqb_spec (node_id n0) x) as [E|E]; split.
    + intros n. split.
      * intros [= <-]. exists [], nodes. repeat split; auto.
      * intros [[|m l1] [l2 [H [Hx Hl1]]]]; simpl in H.
        -- now injection H as <- _.
        -- injection H as <- _. destruct (Hl1 n0); simpl; auto.
    + split; [discriminate|]. intros H. destruct (H n0); auto.
    + intros n. rewrite IHs. split.
      * intros [l1 [l2 [-> [Hx Hl1]]]]. exists (n0 :: l1), l2.
        repeat split; auto. intros m [<-|Hm]; auto.
      * intros [[|m l1] [l2 [H [Hx Hl1]]]]; simpl in H.
        -- injection H as <- _. contradiction.
        -- injection H as <- ->. exists l1, l2. repeat split; auto.
           intros m' Hm'. apply Hl1. now right.
    + rewrite IHn. split.
      * intros H m [<-|Hm]; auto.
      * intros H m Hm. apply H. now right.
Qed.

(** ** What the path assemblers answer *)

Lemma aux_neighbors_spec (aux : structure) (u : Z) (ns : list Z) :
  aux_neighbors aux u = Ok ns <->
  exists e, dict_get Z.eqb u (entries aux) = Some e /\
            ns = map fst (connected e).
Proof.
  unfold aux_neighbors. destruct (dict_get Z.eqb u (entries aux)) as [e|].
  - split.
    + intros [= <-]. eauto.
    + intros [e' [[= <-] ->]]. reflexivity.
  - split; [discriminate|]. intros [e' [[=] _]].
Qed.

Lemma find_path_shape (great_circle_distance : loc -> loc -> Q)
    (cost : structure -> Z -> Z -> result (option Q)) (heuristic : bool)
    (fuel : nat) (aux : structure) (loc1 loc2 : loc) (locs : list loc) :
  find_path great_circle_distance cost heuristic fuel aux loc1 loc2
    = Some (Ok (Some locs)) ->
  path_answer great_circle_distance aux loc1 loc2 locs.
Proof.
  unfold find_path, path_answer.
  destruct (get_nearest_node_id great_circle_distance loc1 aux) as [a|];
    simpl; [|discriminate].
  destruct (Z.eqb_spec a 0) as [|Ha]; simpl; [discriminate|].
  destruct (get_nearest_node_id great_circle_distance loc2 aux) as [b|];
    simpl; [|discriminate].
  destruct (Z.eqb_spec b 0) as [|Hb]; simpl; [discriminate|].
  destruct (Z.eqb_spec a b) as [<-|Hab].
  - destruct (coord_of aux a) as [c|] eqn:Ec; simpl; [|discriminate].
    intros [= <-]. exists a, a, [a]. repeat split; auto.
    + now exists [].
    + constructor; [tauto|constructor].
    + intros x y [[|? [|? ?]] [l2 H]]; discriminate.
    + constructor; [|constructor]. now apply coord_of_get_lat_lon.
  - destruct (uniform_cost_search great_circle_distance fuel a b
                (aux_neighbors aux) (cost aux) aux heuristic)
      as [[[p|]|]|] eqn:Hrun; try discriminate.
    intros [= Hconv]. exists a, b, p.
    apply search_loop_sound with (start := a) in Hrun as [[g Hr] Hnd];
      [|apply agenda_sound_init].
    repeat split; auto.
    + eapply route_head; eauto.
    + eapply route_last; eauto.
    + intros x y Hxy.
      destruct (route_adjacent _ _ _ _ _ Hr x y Hxy)
        as [w [[ns [Hns [Hy _]]] _]].
      apply aux_neighbors_spec in Hns as [e [He ->]]. eauto.
    + destruct p as [|n rest]; [simpl in Hconv; discriminate|].
      change ((cs <- coords_of aux (n :: rest) ;; Ok (Some cs))
                = Ok (Some locs)) in Hconv.
      destruct (coords_of aux (n :: rest)) as [cs|] eqn:Ecs;
        unfold bind in Hconv; [|discriminate Hconv].
      injection Hconv as <-. now apply coords_of_spec.
Qed.

(** X18.  Whenever [find_short_path] or [find_fast_path] returns a list of
    coordinates, these are the coordinates, in order, of a node path that
    starts at the node nearest to the first query point, ends at the node
    nearest to the second, repeats no node, and goes from each node to one
    of its neighbours in the graph; both nearest ids are other than 0. *)
Theorem path_assemblers_return_graph_paths
    (great_circle_distance : loc -> loc -> Q) (fuel : nat) (aux : structure)
    (loc1 loc2 : loc) (locs : list loc) :
  (find_short_path great_circle_distance fuel aux loc1 loc2
     = Some (Ok (Some locs)) ->
   path_answer great_circle_distance aux loc1 loc2 locs) /\
  (find_fast_path great_circle_distance fuel aux loc1 loc2
     = Some (Ok (Some locs)) ->
   path_answer great_circle_distance aux loc1 loc2 locs).
Proof. split; apply find_path_shape. Qed.

Lemma path_assemblers_return_graph_paths_witness :
  path_answer Sample.line_distance Sample.sink (0, 0)%Q (2, 0)%Q
    [(0, 0); (1, 0); (2, 0)]%Q.
Proof.
  destruct (path_assemblers_return_graph_paths Sample.line_distance 10
              Sample.sink (0, 0)%Q (2, 0)%Q [(0, 0); (1, 0); (2, 0)]%Q)
    as [H _].
  apply H. reflexivity.
Defined.
(** ** The path assemblers on complete data *)

Lemma build_coords_complete (nodes : list node) (ways : list way)
    (g : structure) :
  build_auxiliary_structures nodes ways = Ok g ->
  complete_data nodes ways ->
  coords_complete g /\
  forall l i, In (l, i) (locations g) ->
    exists c, get_lat_lon i g = Ok (Some c).
Proof.
  intros Hb Hc. destruct (build_inv _ _ _ Hb) as [st [Hst ->]].
  assert (forall x, on_accepted_way ways x ->
            exists c, get_lat_lon x
              (fold_left (process_node (snd st)) nodes
                 (mkStructure (fst st) [])) = Ok (Some c)) as Hx.
  { intros x Hx. destruct (Hc x Hx) as [n [Hn Hi]].
    destruct (last_record_some x nodes n Hn Hi) as [m Hm].
    rewrite node_pass_get_lat_lon, Hm,
      (proj2 (connected_nodes_spec ways st x Hst) Hx). eauto. }
  destruct (node_pass_ids (on_accepted_way ways) (snd st) nodes)
    with (s := mkStructure (fst st) []) as [Hids Hloc].
  - intros x Hin. apply (connected_nodes_spec ways st x Hst).
    now apply set_mem_In.
  - simpl. apply (ids_within_process_ways _ ways) with (st := ([], []));
      auto.
    + intros w x Hw Ha Hin. exists w. auto.
    + intros k e [].
  - intros l i [].
  - split.
    + intros u e Hin. destruct (Hids u e Hin) as [Hu Hv].
      split; [auto|]. intros v s Hvs. apply Hx. eapply Hv; eauto.
    + intros l i Hin. apply Hx. eapply Hloc; eauto.
Qed.

Lemma build_speed_usable (nodes : list node) (ways : list way)
    (g : structure) :
  build_auxiliary_structures nodes ways = Ok g ->
  (forall w v, In w ways -> accepted w = true ->
     dict_get String.eqb "maxspeed_mph"%string (way_tags w) = Some v ->
     exists z, v = VInt z /\ z <> 0 /\ Z.abs z < float_int_limit) ->
  forall u v s, edge_weight (entries g) u v = Some s ->
    exists z, s = VInt z /\ z <> 0 /\ Z.abs z < float_int_limit.
Proof.
  intros Hb Htags u v s He.
  destruct (build_edge_weight _ _ _ Hb) as [st [Hst Hg]]. rewrite Hg in He.
  destruct (process_ways_origin _ u v s _ _ Hst He)
    as [H0|[w [Hin [Ha [Hh Hs]]]]]; [discriminate|].
  unfold resolve_speed_limit in Hs.
  destruct (dict_get String.eqb "maxspeed_mph"%string (way_tags w))
    as [t|] eqn:Et.
  - injection Hs as <-. eauto.
  - apply accepted_spec in Ha as [c [Hc Hal]]. rewrite Hc in Hs.
    simpl in Hal. unfold default_speed in Hs.
    repeat (destruct Hal as [<-|Hal];
            [injection Hs as <-; eexists;
             split; [reflexivity|];
             split; [lia|vm_compute; reflexivity]|]).
    destruct Hal.
Qed.

Lemma nearest_fold_In (great_circle_distance : loc -> loc -> Q) (l0 : loc)
    (ls : list (loc * Z)) (n : Z) :
  forall acc,
    snd (fold_left (nearest_step great_circle_distance l0) ls acc) = Some n ->
    snd acc = Some n \/ exists l, In (l, n) ls.
Proof.
  induction ls as [|[l z] ls IH]; intros acc; simpl; auto.
  intros H. apply IH in H as [H|[l' H]]; [|right; eauto].
  unfold nearest_step in H. simpl in H.
  destruct (fst acc) as [d|].
  - destruct (Qltb (great_circle_distance l0 l) d); auto.
    injection H as ->. right. eauto.
  - injection H as ->. right. eauto.
Qed.

Lemma route_within (E : Z -> Z -> Q -> Prop) (P : Z -> Prop) (s : Z)
    (p : list Z) (x : Z) (c : Q) :
  route E s p x c -> P s -> (forall u v w, E u v w -> P v) -> Forall P p.
Proof.
  intros Hr Hs HE. induction Hr as [|p u c v w Hr IH He]; auto.
  apply Forall_app. split; auto. constructor; eauto.
Qed.

Section Totality.
Variable great_circle_distance : loc -> loc -> Q.
Variable aux : structure.
Variable cost : structure -> Z -> Z -> result (option Q).
Variable heuristic : bool.
Hypothesis Hcc : coords_complete aux.
Hypothesis Hloc :
  forall l i, In (l, i) (locations aux) ->
    exists c, get_lat_lon i aux = Ok (Some c).
Hypothesis Hcost :
  forall u e v, dict_get Z.eqb u (entries aux) = Some e ->
    In v (map fst (connected e)) -> exists c, cost aux u v = Ok c.

Lemma coords_key (x : Z) (c : loc) :
  get_lat_lon x aux = Ok (Some c) -> In x (map fst (entries aux)).
Proof.
  unfold get_lat_lon.
  destruct (dict_get Z.eqb x (entries aux)) as [e|] eqn:E; [|discriminate].
  intros _. apply dict_get_In in E. apply in_map_iff. now exists (x, e).
Qed.

Lemma key_coords (x : Z) :
  In x (map fst (entries aux)) -> exists c, get_lat_lon x aux = Ok (Some c).
Proof.
  intros H. apply in_map_iff in H as [[u e] [<- Hin]]. apply (Hcc u e Hin).
Qed.

Lemma neighbors_closed (u : Z) (ns : list Z) :
  aux_neighbors aux u = Ok ns ->
  forall v, In v ns -> In v (map fst (entries aux)).
Proof.
  intros Hns v Hv. apply aux_neighbors_spec in Hns as [e [He ->]].
  apply in_map_iff in Hv as [[v' s] [<- Hin]].
  apply dict_get_In in He.
  destruct (Hcc u e He) as [_ H]. destruct (H v' s Hin) as [c Hc].
  eapply coords_key; eauto.
Qed.

Lemma coords_of_total (p : list Z) :
  Forall (fun x => In x (map fst (entries aux))) p ->
  exists cs, coords_of aux p = Ok cs.
Proof.
  induction 1 as [|x p Hx _ [cs IH]]; simpl; eauto.
  destruct (key_coords x Hx) as [c Hc].
  apply coord_of_get_lat_lon in Hc. rewrite Hc, IH. simpl. eauto.
Qed.

Lemma search_total (start goal : Z) :
  In start (map fst (entries aux)) -> In goal (map fst (entries aux)) ->
  exists o,
    (forall fuel, (search_budget aux <= fuel)%nat ->
       uniform_cost_search great_circle_distance fuel start goal
         (aux_neighbors aux) (cost aux) aux heuristic = Some (Ok o)) /\
    exists o', convert_nodes_path_to_loc_path o aux = Ok o'.
Proof.
  intros Hs Hg. set (V := map fst (entries aux)) in *.
  assert (forall u ns, In u V -> aux_neighbors aux u = Ok ns ->
            forall v, In v ns -> In v V) as Hclosed
    by (intros u ns _; apply neighbors_closed).
  assert (agenda_within V [([start], 0%Q)]) as Hinit.
  { intros q g [[= <- <-]|[]]. exists start. auto. }
  destruct (search_loop_terminates great_circle_distance goal
              (aux_neighbors aux) (cost aux) aux heuristic V Hclosed
              (search_budget aux) [([start], 0%Q)] [] Hinit)
    as [r [Hrun _]].
  { unfold search_budget. fold V. simpl. lia. }
  destruct (search_loop_no_raise great_circle_distance goal
              (aux_neighbors aux) (cost aux) aux heuristic V Hclosed)
    with (fuel := search_budget aux) (agenda := [([start], 0%Q)])
         (expanded_set := @nil Z) (r := r) as [o ->]; auto.
  - intros u Hu. apply in_map_iff in Hu as [[u' e] [<- Hin]].
    destruct (In_dict_get _ _ _ Hin) as [e' He'].
    exists (map fst (connected e')). unfold aux_neighbors. simpl.
    now rewrite He'.
  - intros u ns v _ Hns Hv. apply aux_neighbors_spec in Hns as [e [He ->]].
    eapply Hcost; eauto.
  - intros u Hu. unfold hval. destruct heuristic; [|eauto].
    destruct (key_coords u Hu) as [a ->].
    destruct (key_coords goal Hg) as [b ->]. simpl. eauto.
  - exists o. split.
    + intros fuel Hfuel. unfold uniform_cost_search.
      eapply search_loop_more_fuel; eauto.
    + destruct o as [[|n rest]|]; simpl; eauto.
      apply search_loop_sound with (start := start) in Hrun as [[g Hr] _];
        [|apply agenda_sound_init].
      destruct (coords_of_total (n :: rest)) as [cs Hcs].
      { eapply route_within; [exact Hr|exact Hs|].
        intros u v w [[ns [Hns [Hv _]]] _]. eapply neighbors_closed; eauto. }
      simpl in Hcs. rewrite Hcs. simpl. eauto.
Qed.

Lemma find_path_total (loc1 loc2 : loc) :
  exists o, forall fuel, (search_budget aux <= fuel)%nat ->
    find_path great_circle_distance cost heuristic fuel aux loc1 loc2
    = Some (Ok o).
Proof.
  unfold find_path.
  destruct (get_nearest_node_id great_circle_distance loc1 aux) as [a|]
    eqn:Ea; simpl; [|eauto].
  destruct (Z.eqb a 0); simpl; [eauto|].
  destruct (get_nearest_node_id great_circle_distance loc2 aux) as [b|]
    eqn:Eb; simpl; [|eauto].
  destruct (Z.eqb b 0); simpl; [eauto|].
  assert (forall l n, get_nearest_node_id great_circle_distance l aux
                      = Some n -> In n (map fst (entries aux))) as Hkey.
  { intros l n H. apply nearest_fold_In in H as [H|[l' H]];
      [discriminate|].
    destruct (Hloc _ _ H) as [c Hc]. eapply coords_key; eauto. }
  pose proof (Hkey _ _ Ea) as Ha. pose proof (Hkey _ _ Eb) as Hb.
  destruct (Z.eqb a b).
  - destruct (key_coords a Ha) as [c Hc].
    apply coord_of_get_lat_lon in Hc. rewrite Hc. simpl. eauto.
  - destruct (search_total a b Ha Hb) as [o [Hrun [o' Ho']]].
    exists o'. intros fuel Hfuel. rewrite (Hrun fuel Hfuel). now rewrite Ho'.
Qed.
End Totality.

(** X19.  On a graph built from data in which every node of an accepted way
    has a node record, [find_short_path] raises no exception: once the loop
    is given [search_budget] iterations it returns a coordinate list or
    [None], the same for every larger number of iterations.  The same holds
    for [find_fast_path] when every [maxspeed_mph] tag of an accepted way
    is an integer other than 0 whose magnitude is below [float_int_limit],
    so that it can be converted to a float. *)
Theorem path_assemblers_total_on_complete_data
    (great_circle_distance : loc -> loc -> Q) (nodes : list node)
    (ways : list way) (aux : structure) (loc1 loc2 : loc) :
  build_auxiliary_structures nodes ways = Ok aux ->
  complete_data nodes ways ->
  (exists o, forall fuel, (search_budget aux <= fuel)%nat ->
     find_short_path great_circle_distance fuel aux loc1 loc2
     = Some (Ok o)) /\
  ((forall w v, In w ways -> accepted w = true ->
      dict_get String.eqb "maxspeed_mph"%string (way_tags w) = Some v ->
      exists z, v = VInt z /\ z <> 0 /\ Z.abs z < float_int_limit) ->
   exists o, forall fuel, (search_budget aux <= fuel)%nat ->
     find_fast_path great_circle_distance fuel aux loc1 loc2
     = Some (Ok o)).
Proof.
  intros Hb Hc. destruct (build_coords_complete _ _ _ Hb Hc) as [Hcc Hloc].
  split.
  - apply find_path_total; auto.
    intros u e v He Hv. unfold short_cost.
    apply dict_get_In in He. destruct (Hcc u e He) as [[a ->] Hn].
    apply in_map_iff in Hv as [[v' s] [<- Hin]]. cbn [fst].
    destruct (Hn v' s Hin) as [b ->]. simpl. eauto.
  - intros Htags. apply find_path_total; auto.
    intros u e v He Hv. unfold fast_cost. rewrite He.
    pose proof (dict_get_In _ _ _ He) as Hin.
    destruct (Hcc u e Hin) as [[a ->] Hn].
    apply in_map_iff in Hv as [[v' s] [<- Hvs]]. cbn [fst].
    destruct (Hn v' s Hvs) as [b ->]. simpl.
    destruct (In_dict_get _ _ _ Hvs) as [s' Hs']. rewrite Hs'. simpl.
    destruct (build_speed_usable _ _ _ Hb Htags u v' s')
      as [z [-> [Hz Hlim]]].
    { unfold edge_weight. now rewrite He. }
    unfold div_speed.
    destruct (Z.leb_spec float_int_limit (Z.abs z)); [lia|].
    destruct (Z.eqb_spec z 0); [contradiction|].
    unfold bind. eauto.
Qed.

Lemma path_assemblers_total_on_complete_data_witness :
  (exists o, forall fuel, (search_budget Sample.detour <= fuel)%nat ->
     find_short_path Sample.line_distance fuel Sample.detour
       (4, 0)%Q (0, 0)%Q = Some (Ok o)) /\
  exists o, forall fuel, (search_budget Sample.detour <= fuel)%nat ->
     find_fast_path Sample.line_distance fuel Sample.detour
       (4, 0)%Q (0, 0)%Q = Some (Ok o).
Proof.
  assert (complete_data Sample.detour_nodes Sample.detour_ways) as Hc.
  { intros x [w [Hw [Ha Hx]]].
    destruct Hw as [<-|[<-|[<-|[<-|[]]]]]; simpl in Hx;
      decompose [or] Hx; subst; try contradiction;
      eexists; apply last_record_In; reflexivity. }
  destruct (path_assemblers_total_on_complete_data Sample.line_distance
              Sample.detour_nodes Sample.detour_ways Sample.detour
              (4, 0)%Q (0, 0)%Q eq_refl Hc) as [Hs Hf].
  split; [exact Hs|]. apply Hf.
  intros w v [<-|[<-|[<-|[<-|[]]]]] _ [= <-]; eexists;
    (split; [reflexivity|]); (split; [lia|vm_compute; reflexivity]).
Defined.
